(** * Black-hole animation (blackhole.h): model and properties

    A shallow embedding of [drawBlackHole], [initializeAccretionParticle],
    [calculateTrailColors] and [eraseBlackHole].

    Conventions of the model.
    - C [float] values are real numbers ([R]) and the tick computes on them
      exactly.  [sqrt], [sin], [cos] are those of the real-number library.
      Rounding is modelled where a property depends on it: the speed limit of
      the falling stars ([limitSpeed]) is written over the operations it
      uses, with exact reals, rounded reals and IEEE 754 single precision
      ([binary32]) as instances.
    - C [int] values are integers ([Z]); [unsigned long] time stamps are
      integers modulo 2^32 with the wrap-around of subtraction written out.
    - Fixed-size arrays are lists; a loop [for (i = 0; i < N; i++)] whose body
      only touches element [i] is an indexed map over the list.
    - [millis()] and [random()] are inputs of a tick: every call site reads a
      field of the record [Inputs].
    - Calls to the display ([tft.drawPixel], [tft.fillCircle], [tft.drawCircle])
      are collected, in program order, in a list of [Call]s. *)

From Stdlib Require Import Reals ZArith List Bool Lra Lia.
From Stdlib Require Import Machin.
From Stdlib Require SpecFloat.
Import ListNotations.

Open Scope R_scope.

(** ** Arithmetic of the Arduino core and of libm *)

(** [(int)x] for a float [x]: truncation toward zero. *)
Definition truncZ (r : R) : Z :=
  if Rle_dec 0 r then Int_part r else (- Int_part (- r))%Z.

(** [round(x)]: [(x) >= 0 ? (long)((x) + 0.5) : (long)((x) - 0.5)]. *)
Definition roundZ (x : R) : Z :=
  if Rle_dec 0 x then truncZ (x + 5 / 10) else truncZ (x - 5 / 10).

(** [fmod(a, m)]: the remainder of the division truncated toward zero. *)
Definition fmod (a m : R) : R := a - IZR (truncZ (a / m)) * m.

(** [constrain(amt, low, high)] on floats and on ints. *)
Definition constrainR (amt low high : R) : R :=
  if Rlt_dec amt low then low else if Rlt_dec high amt then high else amt.

Definition constrainZ (amt low high : Z) : Z :=
  if (amt <? low)%Z then low else if (high <? amt)%Z then high else amt.

(** [sq(x)] on ints. *)
Definition sq (x : Z) : Z := (x * x)%Z.

(** [atan2(y, x)]. *)
Definition atan2 (y x : R) : R :=
  if Rlt_dec 0 x then atan (y / x)
  else if Rlt_dec x 0 then
    (if Rle_dec 0 y then atan (y / x) + PI else atan (y / x) - PI)
  else if Rlt_dec 0 y then PI / 2
  else if Rlt_dec y 0 then - (PI / 2)
  else 0.

(** Comparisons of floats as booleans. *)
Definition Rleb (a b : R) : bool := if Rle_dec a b then true else false.
Definition Rltb (a b : R) : bool := if Rlt_dec a b then true else false.

(** Case analysis on every comparison of floats in the goal. *)
Ltac rdec :=
  repeat match goal with
         | |- context [Rle_dec ?a ?b] => destruct (Rle_dec a b)
         | |- context [Rlt_dec ?a ?b] => destruct (Rlt_dec a b)
         end.

(** [a - b] on [unsigned long]. *)
Definition usub (a b : Z) : Z := ((a - b) mod 2 ^ 32)%Z.

(** ** Single-precision arithmetic

    The operations of [float] that the speed limit of the falling stars uses,
    with the real number a value stands for. *)
Class FloatOps (F : Type) : Type := {
  f_const : Z -> F;          (* an integer literal, such as [400.0f] *)
  f_add : F -> F -> F;
  f_mul : F -> F -> F;
  f_div : F -> F -> F;
  f_sqrt : F -> F;
  f_ltb : F -> F -> bool;    (* [a < b] *)
  f_value : F -> R
}.

(** Exact arithmetic on real numbers: what the tick computes with. *)
#[global] Instance exactOps : FloatOps R :=
  {| f_const := IZR;
     f_add := Rplus;
     f_mul := Rmult;
     f_div := Rdiv;
     f_sqrt := sqrt;
     f_ltb := Rltb;
     f_value := fun a => a |}.





(** An arithmetic whose operations have a relative error of at most [u] and
    whose comparison and literal 400 are exact: single precision with
    [u = 2^-24], as long as no operation overflows or underflows. *)
Record accurate {F : Type} (A : FloatOps F) (u : R) : Prop := {
  acc_400 : f_value (f_const 400) = 400;
  acc_ltb : forall a b, f_ltb a b = true <-> f_value a < f_value b;
  acc_add : forall a b,
      Rabs (f_value (f_add a b) - (f_value a + f_value b))
      <= u * Rabs (f_value a + f_value b);
  acc_mul : forall a b,
      Rabs (f_value (f_mul a b) - f_value a * f_value b)
      <= u * Rabs (f_value a * f_value b);
  acc_div : forall a b,
      f_value b <> 0 ->
      Rabs (f_value (f_div a b) - f_value a / f_value b)
      <= u * Rabs (f_value a / f_value b);
  acc_sqrt : forall a,
      0 <= f_value a ->
      Rabs (f_value (f_sqrt a) - sqrt (f_value a)) <= u * sqrt (f_value a)
}.

(** The speed limit of the falling-star loop ([speedSq], [maxSpeedSq],
    [speedScale]), on the velocity the acceleration has just produced. *)
Definition limitSpeed {F : Type} {A : FloatOps F} (vx vy : F) : F * F :=
  let speedSq := f_add (f_mul vx vx) (f_mul vy vy) in
  let maxSpeedSq := f_const 400 in
  if f_ltb maxSpeedSq speedSq then
    let speedScale := f_sqrt (f_div maxSpeedSq speedSq) in
    (f_mul vx speedScale, f_mul vy speedScale)
  else (vx, vy).

(** ** Colours (RGB565) *)

Definition red (color : Z) : Z := Z.shiftl (Z.land (Z.shiftr color 11) 31) 3.
Definition green (color : Z) : Z := Z.shiftl (Z.land (Z.shiftr color 5) 63) 2.
Definition blue (color : Z) : Z := Z.shiftl (Z.land color 31) 3.

(** [tft.color565(r, g, b)] of the display library, whose arguments are
    [uint8_t]. *)
Definition color565 (r g b : Z) : Z :=
  Z.lor (Z.lor (Z.shiftl (Z.land (r mod 256) 248) 8)
               (Z.shiftl (Z.land (g mod 256) 252) 3))
        (Z.shiftr (b mod 256) 3).

Definition TFT_WHITE : Z := 65535.
Definition TFT_BLACK : Z := 0.

(** ** Display calls *)

Inductive Call : Type :=
| DrawPixel (x y color : Z)
| FillCircle (x y r color : Z)
| DrawCircle (x y r color : Z).

(** ** Lists as arrays *)

Fixpoint imap_from {A B : Type} (k : nat) (f : nat -> A -> B) (l : list A) : list B :=
  match l with
  | [] => []
  | a :: l' => f k a :: imap_from (S k) f l'
  end.

Definition imap {A B : Type} (f : nat -> A -> B) (l : list A) : list B :=
  imap_from 0 f l.

(** [a[i] = v] for [i] inside the array. *)
Fixpoint set_nth {A : Type} (i : nat) (v : A) (l : list A) : list A :=
  match l, i with
  | [], _ => []
  | _ :: l', O => v :: l'
  | a :: l', S i' => a :: set_nth i' v l'
  end.

Definition apply_at {A : Type} (i : nat) (f : A -> A) (l : list A) : list A :=
  imap (fun k a => if Nat.eqb k i then f a else a) l.

(** ** Data model *)

Definition MAX_ACCRETION_PARTICLES : nat := 450.
Definition MAX_FALLING_STARS : nat := 6.

Module AP.
Record AccretionParticle : Type := mk {
  angle : R;
  distance : R;
  speed : R;
  brightness : Z;
  size : Z;
  prevX : Z;
  prevY : Z;
  color : Z;
  active : bool;
  hasTrail : bool;
  relativistic_factor : R;
  doppler_shift : R;
  trailStartTime : Z;
  trailLifetime : Z;
  trailX : list Z;
  trailY : list Z;
  trailColors : list Z;
  trailLength : Z
}.
End AP.
Definition AccretionParticle : Type := AP.AccretionParticle.

Module FS.
Record FallingStar : Type := mk {
  x : R;
  y : R;
  vx : R;
  vy : R;
  distance : R;
  brightness : Z;
  prevX : Z;
  prevY : Z;
  active : bool;
  spinFactor : R;
  startTime : Z;
  hasTrail : bool;
  trailLifetime : Z
}.
End FS.
Definition FallingStar : Type := FS.FallingStar.

(** The globals of blackhole.h.  [previousLensPoints] holds the pairs
    ([i][0], [i][1]); [prevTrailX] and [prevTrailY] are indexed by the star
    first: entry [i] is the column [prevTrailX[0..9][i]]. *)
Record State : Type := mkState {
  blackHoleRadius : R;
  diskInnerRadius : R;
  diskOuterRadius : R;
  prevBlackHoleX : Z;
  prevBlackHoleY : Z;
  previousEventHorizonRadius : R;
  blackHoleInitialized : bool;
  blackHoleLastUpdateTime : Z;
  accretionDisk : list AccretionParticle;
  fallingStars : list FallingStar;
  previousLensPoints : list (Z * Z);
  prevTrailX : list (list Z);
  prevTrailY : list (list Z);
  trailLen : list Z;
  prevInnerParticleX : list Z;
  prevInnerParticleY : list Z
}.

(** What a tick reads from outside: the shared focal transform, the clock and
    the random-number source, one field per call site. *)
Record Inputs : Type := mkInputs {
  objectX : Z;
  objectY : Z;
  objectScale : R;
  millisEntry : Z;              (* currentTime = millis() *)
  millisParticle : nat -> Z;    (* millis() in the fading branch of particle i *)
  millisStar : nat -> Z;        (* millis() in the fading branch of star i *)
  millisFlash : nat -> Z;       (* millis() when star i is consumed *)
  rndAngle : nat -> Z;          (* random(0, 3600) for particle i *)
  rndFactor : nat -> Z;         (* random(0, 1000) for particle i *)
  rndSpawn : Z;                 (* random(100) *)
  rndBrightness : Z;            (* random(180, 256) *)
  rndSpin : Z;                  (* random(50, 200) *)
  rndEdge : Z;                  (* random(4) *)
  rndPos : Z;                   (* random(SCREEN_WIDTH) or random(SCREEN_HEIGHT) *)
  rndOffset : Z;                (* random(-10, 10) *)
  rndSpeed : Z                  (* random(4, 10) *)
}.

(** ** calculateTrailColors *)

Definition fadeColor (baseColor : Z) (i : nat) : Z :=
  let fadeRatio := 1 - INR i * (12 / 100) in
  color565 (Z.max 0 (truncZ (IZR (red baseColor) * fadeRatio)))
           (Z.max 0 (truncZ (IZR (green baseColor) * fadeRatio)))
           (Z.max 0 (truncZ (IZR (blue baseColor) * fadeRatio))).

Definition calculateTrailColors (p : AccretionParticle) : AccretionParticle :=
  AP.mk (AP.angle p) (AP.distance p) (AP.speed p) (AP.brightness p) (AP.size p)
        (AP.prevX p) (AP.prevY p) (AP.color p) (AP.active p) (AP.hasTrail p)
        (AP.relativistic_factor p) (AP.doppler_shift p)
        (AP.trailStartTime p) (AP.trailLifetime p)
        (AP.trailX p) (AP.trailY p)
        (map (fadeColor (AP.color p)) (seq 0 8))
        (AP.trailLength p).

(** ** initializeAccretionParticle *)

Definition currentDiskInnerRadius (bhr : R) : R := Rmax 1 (bhr * (12 / 10)).

Definition currentDiskOuterRadius (bhr : R) : R :=
  Rmax (currentDiskInnerRadius bhr + 1) (bhr * (25 / 10)).

(** The five temperature bands of the blackbody approximation. *)
Definition bandColor (temp_ratio : R) : Z * Z * Z :=
  if Rlt_dec (15 / 10) temp_ratio then (255, 255, 255)%Z
  else if Rlt_dec (12 / 10) temp_ratio then (255, 255, 255)%Z
  else if Rlt_dec (8 / 10) temp_ratio then (255, 255, 220)%Z
  else if Rlt_dec (6 / 10) temp_ratio then (255, 240, 150)%Z
  else (255, 200, 100)%Z.

(** The body of [initializeAccretionParticle] on the slot it writes: [bhr] is
    the global [blackHoleRadius], [rA] and [rF] the two random draws.  The
    fields the function does not assign keep the slot's values.
    [pow(x, 2.0f)] and [pow(x, 4.0f)] are the integer powers [x ^ 2] and
    [x ^ 4]; [pow(x, 0.75f)], whose base is positive, is [Rpower]. *)
Definition initParticle (bhr : R) (rA rF : Z) (p : AccretionParticle)
  : AccretionParticle :=
  let cdir := currentDiskInnerRadius bhr in
  let cdor := currentDiskOuterRadius bhr in
  let diskWidth := cdor - cdir in
  let angle := IZR rA * PI / 1800 in
  let randFactor := IZR rF / 1000 in
  let distanceFactor := randFactor ^ 2 in
  let distance := cdir + distanceFactor * diskWidth in
  let orbital_velocity := sqrt (bhr / distance) in
  let relativistic_factor := Rmin orbital_velocity (9 / 10) in
  let sin_angle := sin angle in
  let doppler := 1 / (1 - relativistic_factor * sin_angle) in
  let temp_factor := Rpower (cdir / distance) (75 / 100) in
  let temp_ratio := temp_factor * doppler in
  let '(r, g, b) := bandColor temp_ratio in
  let intensity := constrainR (doppler ^ 4) (1 / 10) 3 in
  let r := constrainZ (truncZ (IZR r * intensity)) 0 255 in
  let g := constrainZ (truncZ (IZR g * intensity)) 0 255 in
  let b := constrainZ (truncZ (IZR b * intensity)) 0 255 in
  let orbitRatio := sqrt (cdir / distance) in
  calculateTrailColors
    (AP.mk angle distance ((4 / 100) * orbitRatio)
           (constrainZ (truncZ (255 * intensity)) 50 255) (AP.size p)
           (-1) (-1) (color565 r g b) true true
           relativistic_factor doppler
           (AP.trailStartTime p) (AP.trailLifetime p)
           (repeat (-1)%Z 8) (repeat (-1)%Z 8)
           (AP.trailColors p) 0).

(** [initializeAccretionParticle(index, centerX, centerY)] on the globals. *)
Definition initializeAccretionParticle (inp : Inputs) (index : nat)
    (centerX centerY : Z) (s : State) : State :=
  mkState (blackHoleRadius s) (diskInnerRadius s) (diskOuterRadius s)
          (prevBlackHoleX s) (prevBlackHoleY s) (previousEventHorizonRadius s)
          (blackHoleInitialized s) (blackHoleLastUpdateTime s)
          (apply_at index
             (initParticle (blackHoleRadius s) (rndAngle inp index) (rndFactor inp index))
             (accretionDisk s))
          (fallingStars s) (previousLensPoints s)
          (prevTrailX s) (prevTrailY s) (trailLen s)
          (prevInnerParticleX s) (prevInnerParticleY s).

(** ** drawBlackHole *)

Section Tick.

(** [SCREEN_WIDTH], [SCREEN_HEIGHT] and [BG_COLOR] are declared [extern] in
    blackhole.h and defined by the sketch that includes it. *)
Variables SCREEN_WIDTH SCREEN_HEIGHT BG_COLOR : Z.

(** The test [x >= 0 && x < SCREEN_WIDTH && y >= 0 && y < SCREEN_HEIGHT]. *)
Definition onScreen (x y : Z) : bool :=
  ((0 <=? x) && (x <? SCREEN_WIDTH) && (0 <=? y) && (y <? SCREEN_HEIGHT))%Z.

(** *** Radii and first-run initialisation *)

Definition setRadii (scale : R) (s : State) : State :=
  let bhr := 14 * scale in
  mkState bhr (bhr * (12 / 10)) (bhr * 2)
          (prevBlackHoleX s) (prevBlackHoleY s) (previousEventHorizonRadius s)
          (blackHoleInitialized s) (blackHoleLastUpdateTime s)
          (accretionDisk s) (fallingStars s) (previousLensPoints s)
          (prevTrailX s) (prevTrailY s) (trailLen s)
          (prevInnerParticleX s) (prevInnerParticleY s).

Definition resetStar (st : FallingStar) : FallingStar :=
  FS.mk (FS.x st) (FS.y st) (FS.vx st) (FS.vy st) (FS.distance st)
        (FS.brightness st) (-1) (-1) false (FS.spinFactor st)
        (FS.startTime st) false (FS.trailLifetime st).

(** The block guarded by [!blackHoleInitialized]. *)
Definition firstRun (inp : Inputs) (s : State) : State :=
  mkState (blackHoleRadius s) (diskInnerRadius s) (diskOuterRadius s)
          (objectX inp) (objectY inp) (blackHoleRadius s)
          true (millisEntry inp)
          (imap (fun i => initParticle (blackHoleRadius s) (rndAngle inp i) (rndFactor inp i))
                (accretionDisk s))
          (map resetStar (fallingStars s))
          (repeat (-1, -1)%Z 60)
          (repeat (repeat (-1)%Z 10) MAX_FALLING_STARS)
          (repeat (repeat (-1)%Z 10) MAX_FALLING_STARS)
          (repeat 0%Z MAX_FALLING_STARS)
          (repeat (-1)%Z 4) (repeat (-1)%Z 4).

(** [deltaTime], from the state before [blackHoleLastUpdateTime] is
    overwritten. *)
Definition deltaTimeOf (currentTime lastUpdate : Z) : R :=
  let dt := IZR (usub currentTime lastUpdate) / 1000 in
  let dt := if Rlt_dec (1 / 10) dt then 1 / 10 else dt in
  if Rle_dec dt 0 then 16 / 1000 else dt.

Definition setLastUpdate (t : Z) (s : State) : State :=
  mkState (blackHoleRadius s) (diskInnerRadius s) (diskOuterRadius s)
          (prevBlackHoleX s) (prevBlackHoleY s) (previousEventHorizonRadius s)
          (blackHoleInitialized s) t
          (accretionDisk s) (fallingStars s) (previousLensPoints s)
          (prevTrailX s) (prevTrailY s) (trailLen s)
          (prevInnerParticleX s) (prevInnerParticleY s).

(** *** Erasing section *)

Definition blackHoleMovedOrResized (centerX centerY : Z) (s : State) : bool :=
  negb (centerX =? prevBlackHoleX s)%Z || negb (centerY =? prevBlackHoleY s)%Z
  || Rltb (5 / 10) (Rabs (blackHoleRadius s - previousEventHorizonRadius s)).

Definition eraseHorizon (centerX centerY : Z) (s : State) : bool :=
  blackHoleMovedOrResized centerX centerY s && Rltb 0 (previousEventHorizonRadius s).

Definition eraseLensCalls (pts : list (Z * Z)) : list Call :=
  flat_map (fun pt => if (0 <=? fst pt)%Z then [DrawPixel (fst pt) (snd pt) BG_COLOR] else [])
           pts.

Definition eraseLensPoint (pt : Z * Z) : Z * Z :=
  if (0 <=? fst pt)%Z then ((-1)%Z, snd pt) else pt.

(** Pixels of the pairs ([xs[t]], [ys[t]]), [t < n], whose x is not negative. *)
Definition erasePixels (n : Z) (xs ys : list Z) : list Call :=
  flat_map (fun pt => if (0 <=? fst pt)%Z then [DrawPixel (fst pt) (snd pt) BG_COLOR] else [])
           (firstn (Z.to_nat n) (combine xs ys)).

Definition eraseParticleCalls (p : AccretionParticle) : list Call :=
  (if (0 <=? AP.prevX p)%Z then [DrawPixel (AP.prevX p) (AP.prevY p) BG_COLOR] else [])
  ++ erasePixels (AP.trailLength p) (AP.trailX p) (AP.trailY p).

Definition clearParticleTrail (p : AccretionParticle) : AccretionParticle :=
  AP.mk (AP.angle p) (AP.distance p) (AP.speed p) (AP.brightness p) (AP.size p)
        (AP.prevX p) (AP.prevY p) (AP.color p) (AP.active p) (AP.hasTrail p)
        (AP.relativistic_factor p) (AP.doppler_shift p)
        (AP.trailStartTime p) (AP.trailLifetime p)
        (repeat (-1)%Z 8) (repeat (-1)%Z 8)
        (AP.trailColors p) 0.

(** [col[t] = -1] for [t < n]. *)
Definition clearPrefix (n : Z) (col : list Z) : list Z :=
  imap (fun t v => if (Z.of_nat t <? n)%Z then (-1)%Z else v) col.

Definition eraseInnerCalls (xs ys : list Z) : list Call :=
  flat_map (fun pt => if (0 <=? fst pt)%Z then [DrawPixel (fst pt) (snd pt) BG_COLOR] else [])
           (combine xs ys).

Definition eraseSection (centerX centerY : Z) (s : State) : State * list Call :=
  let horizon := eraseHorizon centerX centerY s in
  let lens := previousLensPoints s in
  (mkState (blackHoleRadius s) (diskInnerRadius s) (diskOuterRadius s)
           (prevBlackHoleX s) (prevBlackHoleY s) (previousEventHorizonRadius s)
           (blackHoleInitialized s) (blackHoleLastUpdateTime s)
           (map clearParticleTrail (accretionDisk s))
           (fallingStars s)
           (if horizon then map eraseLensPoint lens else lens)
           (imap (fun i col => clearPrefix (nth i (trailLen s) 0%Z) col) (prevTrailX s))
           (imap (fun i col => clearPrefix (nth i (trailLen s) 0%Z) col) (prevTrailY s))
           (map (fun _ => 0%Z) (trailLen s))
           (map (fun x => if (0 <=? x)%Z then (-1)%Z else x) (prevInnerParticleX s))
           (imap (fun i y => if (0 <=? nth i (prevInnerParticleX s) (-1))%Z then (-1)%Z else y)
                 (prevInnerParticleY s)),
   (if horizon
    then FillCircle (prevBlackHoleX s) (prevBlackHoleY s)
                    (truncZ (previousEventHorizonRadius s + 4)) BG_COLOR
         :: eraseLensCalls lens
    else [])
   ++ flat_map eraseParticleCalls (accretionDisk s)
   ++ concat (imap (fun i col => erasePixels (nth i (trailLen s) 0%Z) col
                                             (nth i (prevTrailY s) []))
                   (prevTrailX s))
   ++ eraseInnerCalls (prevInnerParticleX s) (prevInnerParticleY s)).

(** *** Update section: accretion disk *)

Definition setPrev (x y : Z) (p : AccretionParticle) : AccretionParticle :=
  AP.mk (AP.angle p) (AP.distance p) (AP.speed p) (AP.brightness p) (AP.size p)
        x y (AP.color p) (AP.active p) (AP.hasTrail p)
        (AP.relativistic_factor p) (AP.doppler_shift p)
        (AP.trailStartTime p) (AP.trailLifetime p)
        (AP.trailX p) (AP.trailY p) (AP.trailColors p) (AP.trailLength p).

Definition setHasTrail (b : bool) (p : AccretionParticle) : AccretionParticle :=
  AP.mk (AP.angle p) (AP.distance p) (AP.speed p) (AP.brightness p) (AP.size p)
        (AP.prevX p) (AP.prevY p) (AP.color p) (AP.active p) b
        (AP.relativistic_factor p) (AP.doppler_shift p)
        (AP.trailStartTime p) (AP.trailLifetime p)
        (AP.trailX p) (AP.trailY p) (AP.trailColors p) (AP.trailLength p).

(** The angle after [angle += ...; angle = fmod(angle, 2*PI);
    if (angle < 0) angle += 2*PI]. *)
Definition wrapAngle (a : R) : R :=
  let a := fmod a (2 * PI) in
  if Rlt_dec a 0 then a + 2 * PI else a.

(** The trail push of the active branch: shift the eight slots by one, put
    the previous position at the head, recompute the colours, bump the
    length. *)
Definition pushTrail (p : AccretionParticle) : AccretionParticle :=
  let q := calculateTrailColors
             (AP.mk (AP.angle p) (AP.distance p) (AP.speed p) (AP.brightness p) (AP.size p)
                    (AP.prevX p) (AP.prevY p) (AP.color p) (AP.active p) (AP.hasTrail p)
                    (AP.relativistic_factor p) (AP.doppler_shift p)
                    (AP.trailStartTime p) (AP.trailLifetime p)
                    (AP.prevX p :: firstn 7 (AP.trailX p))
                    (AP.prevY p :: firstn 7 (AP.trailY p))
                    (AP.trailColors p) (AP.trailLength p)) in
  AP.mk (AP.angle q) (AP.distance q) (AP.speed q) (AP.brightness q) (AP.size q)
        (AP.prevX q) (AP.prevY q) (AP.color q) (AP.active q) (AP.hasTrail q)
        (AP.relativistic_factor q) (AP.doppler_shift q)
        (AP.trailStartTime q) (AP.trailLifetime q)
        (AP.trailX q) (AP.trailY q) (AP.trailColors q)
        (Z.min 8 (AP.trailLength q + 1)).

(** The active branch of the particle loop, on a particle whose [prevX] has
    already been set to -1. *)
Definition advanceParticle (bhr dir dor : R) (centerX centerY : Z) (deltaTime : R)
    (p : AccretionParticle) : AccretionParticle :=
  let cdir := Rmax 1 (bhr * (12 / 10)) in
  let spinFactor := sqrt (cdir / Rmax (AP.distance p) (cdir * (5 / 10))) in
  let angle := wrapAngle (AP.angle p + AP.speed p * spinFactor * deltaTime * 60) in
  let distance := Rmax (AP.distance p) (cdir * (1 / 10)) in
  let distance := Rmin distance (dor * (11 / 10)) in
  let distRatio := Rmax (1 / 10) ((distance - dir) / Rmax 1 (dor - dir)) in
  let relativistic_factor := 8 / 10 + (1 - distRatio) * 2 in
  let verticalCompression := 5 / 10 - (3 / 10) * cos angle in
  let floatX := IZR centerX + cos angle * distance in
  let floatY := IZR centerY + sin angle * distance * verticalCompression in
  let x := roundZ floatX in
  let y := roundZ floatY in
  let p1 := AP.mk angle distance (AP.speed p) (AP.brightness p) (AP.size p)
                  (AP.prevX p) (AP.prevY p) (AP.color p) (AP.active p) (AP.hasTrail p)
                  relativistic_factor (AP.doppler_shift p)
                  (AP.trailStartTime p) (AP.trailLifetime p)
                  (AP.trailX p) (AP.trailY p) (AP.trailColors p) (AP.trailLength p) in
  let p2 :=
    if AP.active p1 && (0 <=? AP.prevX p1)%Z then
      let dist := sqrt (IZR (sq (x - AP.prevX p1) + sq (y - AP.prevY p1))) in
      if Rltb (5 / 10 + AP.relativistic_factor p1 * (5 / 10)) dist
      then pushTrail p1 else p1
    else p1 in
  setPrev x y p2.

(** One iteration of the particle loop of the update section. *)
Definition updateParticle (inp : Inputs) (bhr dir dor : R) (deltaTime : R)
    (i : nat) (p : AccretionParticle) : AccretionParticle :=
  let lastValidX := AP.prevX p in
  let lastValidY := AP.prevY p in
  let p := setPrev (-1) (AP.prevY p) p in
  if negb (AP.active p) then
    if AP.hasTrail p then
      if (AP.trailLifetime p <? usub (millisParticle inp i) (AP.trailStartTime p))%Z
      then initParticle bhr (rndAngle inp i) (rndFactor inp i) (setHasTrail false p)
      else setPrev lastValidX lastValidY p
    else initParticle bhr (rndAngle inp i) (rndFactor inp i) p
  else advanceParticle bhr dir dor (objectX inp) (objectY inp) deltaTime p.

(** *** Update section: falling stars *)

Definition setStarPrev (x y : Z) (st : FallingStar) : FallingStar :=
  FS.mk (FS.x st) (FS.y st) (FS.vx st) (FS.vy st) (FS.distance st)
        (FS.brightness st) x y (FS.active st) (FS.spinFactor st)
        (FS.startTime st) (FS.hasTrail st) (FS.trailLifetime st).

(** The flash drawn when a star is consumed: three rings of eight points. *)
Definition flashPoint (bhr : R) (centerX centerY : Z) (r j : nat) : list Call :=
  let angle := INR j * PI / 4 in
  let flashX := roundZ (IZR centerX + cos angle * (bhr + INR r)) in
  let flashY := roundZ (IZR centerY + sin angle * (bhr + INR r)) in
  if onScreen flashX flashY then [DrawPixel flashX flashY TFT_WHITE] else [].

Definition flashCalls (bhr : R) (centerX centerY : Z) : list Call :=
  flat_map (fun r => flat_map (flashPoint bhr centerX centerY r) (seq 0 8)) (seq 0 3).

(** Velocity after gravity, frame dragging and the speed limit (computed with
    exact reals); only run when [dist > 0.1]. *)
Definition accelerate (bhr deltaTime dx dy distSq dist : R) (st : FallingStar) : R * R :=
  let gravityForce := (bhr * bhr * 150) / Rmax distSq (bhr * (5 / 10)) in
  let gravityForce := Rmin gravityForce 50 in
  let accX := (dx / dist) * gravityForce in
  let accY := (dy / dist) * gravityForce in
  let '(accX, accY) :=
    if Rltb dist (bhr * 8) then
      let perpX := - dy / dist in
      let perpY := dx / dist in
      let spinRadius := bhr * 4 in
      let effectiveDist := Rmax dist (spinRadius * (1 / 10)) in
      let spinStrength := FS.spinFactor st * (15 / 10) * (spinRadius / effectiveDist) in
      let spinStrength := Rmin spinStrength 8 in
      (accX + perpX * spinStrength, accY + perpY * spinStrength)
    else (accX, accY) in
  let vx := FS.vx st + accX * deltaTime in
  let vy := FS.vy st + accY * deltaTime in
  limitSpeed (A := exactOps) vx vy.

(** One iteration of the falling-star loop of the update section, with the
    display calls it makes. *)
Definition updateStar (inp : Inputs) (bhr : R) (deltaTime : R)
    (i : nat) (st : FallingStar) : FallingStar * list Call :=
  let centerX := objectX inp in
  let centerY := objectY inp in
  let lastValidX := FS.prevX st in
  let lastValidY := FS.prevY st in
  if negb (FS.active st) then
    if FS.hasTrail st then
      if (FS.trailLifetime st <? usub (millisStar inp i) (FS.startTime st))%Z
      then (FS.mk (FS.x st) (FS.y st) (FS.vx st) (FS.vy st) (FS.distance st)
                  (FS.brightness st) (-1) (FS.prevY st) (FS.active st) (FS.spinFactor st)
                  (FS.startTime st) false (FS.trailLifetime st), [])
      else (setStarPrev lastValidX lastValidY st, [])
    else (setStarPrev (-1) (FS.prevY st) st, [])
  else
    let dx := IZR centerX - FS.x st in
    let dy := IZR centerY - FS.y st in
    let distSq := dx * dx + dy * dy in
    let dist := sqrt distSq in
    let '(vx, vy) :=
      if Rltb (1 / 10) dist then accelerate bhr deltaTime dx dy distSq dist st
      else (FS.vx st, FS.vy st) in
    let fx := FS.x st + vx * deltaTime in
    let fy := FS.y st + vy * deltaTime in
    let x := roundZ fx in
    let y := roundZ fy in
    if Rleb dist bhr || (x <? -10)%Z || (SCREEN_WIDTH + 10 <=? x)%Z
       || (y <? -10)%Z || (SCREEN_HEIGHT + 10 <=? y)%Z then
      if Rleb dist (bhr * (15 / 10)) then
        (FS.mk fx fy vx vy dist (FS.brightness st) lastValidX lastValidY false
               (FS.spinFactor st) (millisFlash inp i) true 600,
         flashCalls bhr centerX centerY)
      else
        (FS.mk fx fy vx vy dist (FS.brightness st) lastValidX lastValidY false
               (FS.spinFactor st) (FS.startTime st) false (FS.trailLifetime st), [])
    else
      (FS.mk fx fy vx vy dist (FS.brightness st) x y true
             (FS.spinFactor st) (FS.startTime st) (FS.hasTrail st) (FS.trailLifetime st), []).

(** *** Spawning a falling star *)

Fixpoint firstFree (k : nat) (l : list FallingStar) : option nat :=
  match l with
  | [] => None
  | st :: l' =>
      if negb (FS.active st) && negb (FS.hasTrail st) then Some k
      else firstFree (S k) l'
  end.

(** The body of the activation, on the free slot. *)
Definition spawnStar (inp : Inputs) (st : FallingStar) : FallingStar :=
  let centerX := objectX inp in
  let centerY := objectY inp in
  let edge := rndEdge inp in
  let '(x, y) :=
    if (edge =? 0)%Z then (IZR (rndPos inp), -5)
    else if (edge =? 1)%Z then (IZR (SCREEN_WIDTH + 4), IZR (rndPos inp))
    else if (edge =? 2)%Z then (IZR (rndPos inp), IZR (SCREEN_HEIGHT + 4))
    else if (edge =? 3)%Z then (-5, IZR (rndPos inp))
    else (FS.x st, FS.y st) in
  let dx := IZR centerX - x in
  let dy := IZR centerY - y in
  let dist := sqrt (dx * dx + dy * dy) in
  let angle_to_center := atan2 dy dx in
  let angle_offset := IZR (rndOffset inp) * PI / 180 in
  let initial_angle := angle_to_center + angle_offset in
  let initialSpeed := IZR (rndSpeed inp) / 10 in
  FS.mk x y (cos initial_angle * initialSpeed) (sin initial_angle * initialSpeed)
        dist (rndBrightness inp) (-1) (-1) true (IZR (rndSpin inp) / 100)
        (millisEntry inp) false (FS.trailLifetime st).

Definition spawnSection (inp : Inputs) (s : State) : State :=
  if (rndSpawn inp <? 4)%Z then
    match firstFree 0 (fallingStars s) with
    | Some k =>
        mkState (blackHoleRadius s) (diskInnerRadius s) (diskOuterRadius s)
                (prevBlackHoleX s) (prevBlackHoleY s) (previousEventHorizonRadius s)
                (blackHoleInitialized s) (blackHoleLastUpdateTime s)
                (accretionDisk s)
                (apply_at k (spawnStar inp) (fallingStars s))
                (previousLensPoints s)
                (prevTrailX s) (prevTrailY s) (set_nth k 0%Z (trailLen s))
                (prevInnerParticleX s) (prevInnerParticleY s)
    | None => s
    end
  else s.

(** The two loops of the update section (Advance), without the spawn. *)
Definition advanceSection (inp : Inputs) (deltaTime : R) (s : State) : State :=
  mkState (blackHoleRadius s) (diskInnerRadius s) (diskOuterRadius s)
          (prevBlackHoleX s) (prevBlackHoleY s) (previousEventHorizonRadius s)
          (blackHoleInitialized s) (blackHoleLastUpdateTime s)
          (imap (updateParticle inp (blackHoleRadius s) (diskInnerRadius s)
                                (diskOuterRadius s) deltaTime)
                (accretionDisk s))
          (map fst (imap (updateStar inp (blackHoleRadius s) deltaTime) (fallingStars s)))
          (previousLensPoints s)
          (prevTrailX s) (prevTrailY s) (trailLen s)
          (prevInnerParticleX s) (prevInnerParticleY s).

Definition advanceCalls (inp : Inputs) (deltaTime : R) (s : State) : list Call :=
  flat_map snd (imap (updateStar inp (blackHoleRadius s) deltaTime) (fallingStars s)).

Definition updateSection (inp : Inputs) (deltaTime : R) (s : State) : State * list Call :=
  (spawnSection inp (advanceSection inp deltaTime s), advanceCalls inp deltaTime s).

(** *** Drawing section *)

(** The trail loop shared by the two disk passes. *)
Definition trailDrawCalls (bhr : R) (centerX centerY : Z) (p : AccretionParticle)
  : list Call :=
  flat_map
    (fun e : Z * Z * Z =>
       let '(trailX, trailY, c) := e in
       if (trailX <? 0)%Z || (trailY <? 0)%Z || (SCREEN_WIDTH <=? trailX)%Z
          || (SCREEN_HEIGHT <=? trailY)%Z then []
       else if (sq (trailX - centerX) + sq (trailY - centerY) <=? sq (roundZ bhr))%Z then []
       else [DrawPixel trailX trailY c])
    (firstn (Z.to_nat (AP.trailLength p))
            (combine (combine (AP.trailX p) (AP.trailY p)) (AP.trailColors p))).

(** 1. Back half of the disk. *)
Definition drawBackParticle (bhr : R) (centerX centerY : Z) (p : AccretionParticle)
  : list Call :=
  if negb (AP.active p) || (AP.prevX p <? 0)%Z then []
  else if Rltb 0 (sin (AP.angle p)) then []
  else
    let x := AP.prevX p in
    let y := AP.prevY p in
    if onScreen x y then
      if (sq (x - centerX) + sq (y - centerY) <=? sq (roundZ bhr))%Z then []
      else
        let visibilityFactor := Rmax (1 / 10) (8 / 10 + (4 / 10) * sin (AP.angle p)) in
        let baseColor := AP.color p in
        let r := Z.max (truncZ (IZR (red baseColor) * visibilityFactor)) 30 in
        let g := Z.max (truncZ (IZR (green baseColor) * visibilityFactor)) 25 in
        let b := Z.max (truncZ (IZR (blue baseColor) * visibilityFactor)) 20 in
        DrawPixel x y (color565 r g b) :: trailDrawCalls bhr centerX centerY p
    else [].

(** 2. Event horizon. *)
Definition drawHorizon (bhr : R) (centerX centerY : Z) : list Call :=
  if Rleb (5 / 10) bhr then [FillCircle centerX centerY (roundZ bhr) TFT_BLACK] else [].

(** 3. Inner swirl: position of point [i] and the call it makes. *)
Definition innerPoint (bhr : R) (centerX centerY currentTime : Z) (i : nat) : Z * Z :=
  let innerAngle := fmod (IZR currentTime / 90 + INR i * (PI / 2)) (2 * PI) in
  let distanceFactor := Rmin (15 / 100 + (6 / 10) * INR i / 4) (9 / 10) in
  (roundZ (IZR centerX + cos innerAngle * bhr * distanceFactor),
   roundZ (IZR centerY + sin innerAngle * bhr * distanceFactor)).

Definition drawInnerCall (bhr : R) (centerX centerY currentTime : Z) (i : nat) : list Call :=
  let '(innerX, innerY) := innerPoint bhr centerX centerY currentTime i in
  if onScreen innerX innerY then
    let brightness := Z.max 10 (50 - 12 * Z.of_nat i) in
    [DrawPixel innerX innerY (color565 brightness brightness brightness)]
  else [].

Definition innerTrackX (bhr : R) (centerX centerY currentTime : Z) (i : nat) : Z :=
  let '(innerX, innerY) := innerPoint bhr centerX centerY currentTime i in
  if onScreen innerX innerY then innerX else (-1)%Z.

Definition innerTrackY (bhr : R) (centerX centerY currentTime : Z) (i : nat) : Z :=
  let '(innerX, innerY) := innerPoint bhr centerX centerY currentTime i in
  if onScreen innerX innerY then innerY else (-1)%Z.

(** 4. Photon ring.  The highlight loop
    [for (angle = PI*0.75; angle < PI*1.25; angle += 0.04)] runs at most 40
    times; [fuel] bounds the unrolling. *)
Fixpoint highlightArc (fuel : nat) (centerX centerY r_bh : Z) (angle : R) : list Call :=
  match fuel with
  | O => []
  | S fuel' =>
      if Rlt_dec angle (PI * (125 / 100)) then
        let x := roundZ (IZR centerX + IZR r_bh * cos angle) in
        let y := roundZ (IZR centerY + IZR r_bh * sin angle) in
        (if onScreen x y then [DrawPixel x y TFT_WHITE] else [])
        ++ highlightArc fuel' centerX centerY r_bh (angle + 4 / 100)
      else []
  end.

Definition drawPhotonRing (bhr : R) (centerX centerY : Z) : list Call :=
  if Rleb (5 / 10) bhr then
    let r_bh := roundZ bhr in
    let half := Z.quot (Z.min SCREEN_WIDTH SCREEN_HEIGHT) 2 in
    DrawCircle centerX centerY r_bh (color565 255 230 180)
    :: highlightArc 40 centerX centerY r_bh (PI * (75 / 100))
    ++ (if (r_bh + 1 <? half)%Z
        then [DrawCircle centerX centerY (r_bh + 1) (color565 200 180 150)] else [])
    ++ (if (r_bh + 2 <? half)%Z
        then [DrawCircle centerX centerY (r_bh + 2) (color565 150 140 120)] else [])
  else [].

(** 6. Falling stars.  The tracker of one star is the triple of its column of
    [prevTrailX], its column of [prevTrailY] and its [trailLen]. *)
Definition Tracker : Type := list Z * list Z * Z.

(** [prevTrailX[trailLen[i]][i] = x; prevTrailY[trailLen[i]][i] = y; trailLen[i]++]. *)
Definition record (x y : Z) (tr : Tracker) : Tracker :=
  let '(tx, ty, len) := tr in
  (set_nth (Z.to_nat len) x tx, set_nth (Z.to_nat len) y ty, (len + 1)%Z).

(** The stretch loop [for (j = 1; j <= numStretchPoints && trailLen[i] < 10; j++)],
    over the values of [j] still to run. *)
Fixpoint stretchLoop (bhr : R) (centerX centerY x y : Z) (stretchAngle : R)
    (starBrightness : Z) (js : list nat) (tr : Tracker) : Tracker * list Call :=
  match js with
  | [] => (tr, [])
  | j :: js' =>
      if (snd tr <? 10)%Z then
        let spacing := INR j * (4 / 10 + INR j * (5 / 100)) in
        let aheadX := roundZ (IZR x + cos stretchAngle * spacing) in
        let aheadY := roundZ (IZR y + sin stretchAngle * spacing) in
        let behindX := roundZ (IZR x - cos stretchAngle * spacing * (11 / 10)) in
        let behindY := roundZ (IZR y - sin stretchAngle * spacing * (11 / 10)) in
        let '(tr1, c1) :=
          if onScreen aheadX aheadY
             && Rltb bhr (sqrt (IZR (sq (aheadX - centerX) + sq (aheadY - centerY))))
          then
            let intensityFactor := 1 / (INR j * (7 / 10) + 1) in
            let aheadColor :=
              color565
                (Z.min 255 (truncZ (IZR starBrightness * (12 / 10) * intensityFactor)))
                (Z.min 255 (truncZ (IZR starBrightness * (11 / 10) * intensityFactor)))
                (Z.min 255 (truncZ (IZR starBrightness * intensityFactor))) in
            (record aheadX aheadY tr, [DrawPixel aheadX aheadY aheadColor])
          else (tr, []) in
        let '(tr2, c2) :=
          if onScreen behindX behindY && (snd tr1 <? 10)%Z then
            let tailFactor := 1 / (INR j * 1 + 1) in
            let behindColor :=
              color565
                (Z.min 255 (truncZ (IZR starBrightness * (11 / 10) * tailFactor)))
                (Z.min 255 (truncZ (IZR starBrightness * (8 / 10) * tailFactor)))
                (Z.min 255 (truncZ (IZR starBrightness * (6 / 10) * tailFactor))) in
            (record behindX behindY tr1, [DrawPixel behindX behindY behindColor])
          else (tr1, []) in
        let '(tr3, c3) :=
          stretchLoop bhr centerX centerY x y stretchAngle starBrightness js' tr2 in
        (tr3, c1 ++ c2 ++ c3)
      else (tr, [])
  end.

Definition drawStar (bhr : R) (centerX centerY : Z) (st : FallingStar) (tr : Tracker)
  : Tracker * list Call :=
  if negb (FS.active st) then (tr, [])
  else
    let x := FS.prevX st in
    let y := FS.prevY st in
    if onScreen x y then
      let current_dx := IZR centerX - FS.x st in
      let current_dy := IZR centerY - FS.y st in
      let current_distSq := current_dx * current_dx + current_dy * current_dy in
      let current_dist := sqrt current_distSq in
      let gravityFactor := Rmin 3 (bhr * 20 / Rmax current_distSq 1) in
      let starBrightness :=
        Z.max 20 (Z.min 255 (FS.brightness st + truncZ (200 * gravityFactor))) in
      let starColor := color565 starBrightness starBrightness starBrightness in
      let tr1 := if (snd tr <? 10)%Z then record x y tr else tr in
      if Rltb current_dist (bhr * 2) then
        let stretchAngle := atan2 current_dy current_dx in
        let tidalForce := (bhr * bhr * bhr * 50) / Rmax (current_distSq * current_dist) 1 in
        let stretchFactor := Rmin 6 tidalForce in
        let numStretchPoints := Z.max 1 (truncZ stretchFactor) in
        let '(tr2, c) :=
          stretchLoop bhr centerX centerY x y stretchAngle starBrightness
                      (seq 1 (Z.to_nat numStretchPoints)) tr1 in
        (tr2, DrawPixel x y starColor :: c)
      else (tr1, [DrawPixel x y starColor])
    else (tr, []).

(** The tracker of star [i] in the globals. *)
Definition trackerOf (s : State) (i : nat) : Tracker :=
  (nth i (prevTrailX s) [], nth i (prevTrailY s) [], nth i (trailLen s) 0%Z).

(** 7. Front half of the disk. *)
Definition drawFrontParticle (bhr : R) (centerX centerY : Z) (p : AccretionParticle)
  : AccretionParticle * list Call :=
  if negb (AP.active p) || (AP.prevX p <? 0)%Z then (p, [])
  else if Rleb (sin (AP.angle p)) 0 then (p, [])
  else
    let x := AP.prevX p in
    let y := AP.prevY p in
    if onScreen x y then
      let visibilityFactor := 8 / 10 + (4 / 10) * sin (AP.angle p) in
      let baseColor := AP.color p in
      let distToCenter := sqrt (IZR (sq (x - centerX) + sq (y - centerY))) in
      let boost (c : Z) : Z :=
        if Rltb distToCenter (bhr * (16 / 10)) && Rltb 0 bhr then
          let boostFactor :=
            1 + Rmax 0 ((bhr * (16 / 10) - distToCenter) / (bhr * (6 / 10))) * (9 / 10) in
          Z.min 255 (truncZ (IZR c * boostFactor))
        else c in
      let r_base := constrainZ (truncZ (IZR (boost (red baseColor)) * visibilityFactor)) 0 255 in
      let g_base := constrainZ (truncZ (IZR (boost (green baseColor)) * visibilityFactor)) 0 255 in
      let b_base := constrainZ (truncZ (IZR (boost (blue baseColor)) * visibilityFactor)) 0 255 in
      let finalColor := color565 r_base g_base b_base in
      let calls := DrawPixel x y finalColor :: trailDrawCalls bhr centerX centerY p in
      if Rltb distToCenter (bhr * (14 / 10)) && Rltb bhr distToCenter then
        let trailAngle := atan2 (IZR (y - centerY)) (IZR (x - centerX)) in
        let trailX := roundZ (IZR x - 1 * cos trailAngle * (6 / 10)) in
        let trailY := roundZ (IZR y - 1 * sin trailAngle * (6 / 10)) in
        if onScreen trailX trailY then
          let trailFactor := (6 / 10) / 1 in
          let trailColor :=
            color565 (Z.min 255 (truncZ (IZR r_base * trailFactor * (12 / 10))))
                     (Z.min 255 (truncZ (IZR g_base * trailFactor * (11 / 10))))
                     (Z.min 255 (truncZ (IZR b_base * trailFactor))) in
          let n := AP.trailLength p in
          ((if (n <? 8)%Z then
              AP.mk (AP.angle p) (AP.distance p) (AP.speed p) (AP.brightness p) (AP.size p)
                    (AP.prevX p) (AP.prevY p) (AP.color p) (AP.active p) (AP.hasTrail p)
                    (AP.relativistic_factor p) (AP.doppler_shift p)
                    (AP.trailStartTime p) (AP.trailLifetime p)
                    (set_nth (Z.to_nat n) trailX (AP.trailX p))
                    (set_nth (Z.to_nat n) trailY (AP.trailY p))
                    (set_nth (Z.to_nat n) trailColor (AP.trailColors p))
                    (n + 1)
            else p),
           calls ++ [DrawPixel trailX trailY trailColor])
        else (p, calls)
      else (p, calls)
    else (p, []).

(** The whole drawing section, in the order of the source: back half, event
    horizon, inner swirl, photon ring, falling stars, front half.  Step 5
    (gravitational lensing) is commented out in the source and has no
    counterpart here. *)
Definition drawSection (inp : Inputs) (s : State) : State * list Call :=
  let centerX := objectX inp in
  let centerY := objectY inp in
  let bhr := blackHoleRadius s in
  let starDraws :=
    imap (fun i (st : FallingStar) =>
            drawStar bhr centerX centerY st (trackerOf s i)) (fallingStars s) in
  let tracker (i : nat) : Tracker :=
    nth i (map fst starDraws) (trackerOf s i) in
  let front := map (drawFrontParticle bhr centerX centerY) (accretionDisk s) in
  (mkState (blackHoleRadius s) (diskInnerRadius s) (diskOuterRadius s)
           (prevBlackHoleX s) (prevBlackHoleY s) (previousEventHorizonRadius s)
           (blackHoleInitialized s) (blackHoleLastUpdateTime s)
           (map fst front)
           (fallingStars s)
           (previousLensPoints s)
           (imap (fun i _ => fst (fst (tracker i))) (prevTrailX s))
           (imap (fun i _ => snd (fst (tracker i))) (prevTrailY s))
           (imap (fun i _ => snd (tracker i)) (trailLen s))
           (imap (fun i _ => innerTrackX bhr centerX centerY (millisEntry inp) i)
                 (prevInnerParticleX s))
           (imap (fun i _ => innerTrackY bhr centerX centerY (millisEntry inp) i)
                 (prevInnerParticleY s)),
   flat_map (drawBackParticle bhr centerX centerY) (accretionDisk s)
   ++ drawHorizon bhr centerX centerY
   ++ flat_map (drawInnerCall bhr centerX centerY (millisEntry inp)) (seq 0 4)
   ++ drawPhotonRing bhr centerX centerY
   ++ flat_map snd starDraws
   ++ flat_map snd front).

(** *** The tick *)

Definition commit (inp : Inputs) (s : State) : State :=
  mkState (blackHoleRadius s) (diskInnerRadius s) (diskOuterRadius s)
          (objectX inp) (objectY inp) (blackHoleRadius s)
          (blackHoleInitialized s) (blackHoleLastUpdateTime s)
          (accretionDisk s) (fallingStars s) (previousLensPoints s)
          (prevTrailX s) (prevTrailY s) (trailLen s)
          (prevInnerParticleX s) (prevInnerParticleY s).

(** The state at the start of the erasing section. *)
Definition prepare (inp : Inputs) (s : State) : State :=
  let s1 := setRadii (objectScale inp) s in
  let s2 := if blackHoleInitialized s1 then s1 else firstRun inp s1 in
  setLastUpdate (millisEntry inp) s2.

Definition tickDelta (inp : Inputs) (s : State) : R :=
  let s1 := setRadii (objectScale inp) s in
  let s2 := if blackHoleInitialized s1 then s1 else firstRun inp s1 in
  deltaTimeOf (millisEntry inp) (blackHoleLastUpdateTime s2).

(** The state at the end of the update section (after Advance and spawn). *)
Definition advanced (inp : Inputs) (s : State) : State :=
  fst (updateSection inp (tickDelta inp s)
         (fst (eraseSection (objectX inp) (objectY inp) (prepare inp s)))).

Definition drawBlackHole (inp : Inputs) (s : State) : State * list Call :=
  let s3 := prepare inp s in
  let e := eraseSection (objectX inp) (objectY inp) s3 in
  let u := updateSection inp (tickDelta inp s) (fst e) in
  let d := drawSection inp (fst u) in
  (commit inp (fst d), snd e ++ snd u ++ snd d).

(** ** eraseBlackHole *)

Definition eraseBlackHole (s : State) : State * list Call :=
  if blackHoleInitialized s then
    let eraseRadius :=
      if Rlt_dec 0 (previousEventHorizonRadius s)
      then Rmax (previousEventHorizonRadius s * (25 / 10)) (diskOuterRadius s * (11 / 10)) + 5
      else 60 in
    (mkState (blackHoleRadius s) (diskInnerRadius s) (diskOuterRadius s)
             (-1000) (-1000) 0 false (blackHoleLastUpdateTime s)
             (accretionDisk s) (fallingStars s)
             (map (fun pt : Z * Z => ((-1)%Z, snd pt)) (previousLensPoints s))
             (prevTrailX s) (prevTrailY s)
             (map (fun _ => 0%Z) (trailLen s))
             (map (fun _ => (-1)%Z) (prevInnerParticleX s))
             (prevInnerParticleY s),
     [FillCircle (prevBlackHoleX s) (prevBlackHoleY s) (roundZ eraseRadius) BG_COLOR])
  else (s, []).

(** ** Runs of the module *)

(** The globals as the C++ start-up leaves them: zero, except for the
    initialisers written in the source. *)
Definition zeroParticle : AccretionParticle :=
  AP.mk 0 0 0 0 0 0 0 0 false false 0 0 0 0
        (repeat 0%Z 8) (repeat 0%Z 8) (repeat 0%Z 8) 0.

Definition zeroStar : FallingStar :=
  FS.mk 0 0 0 0 0 0 0 0 false 0 0 false 0.

Definition initialState : State :=
  mkState 0 0 0 (-1000) (-1000) 0 false 0
          (repeat zeroParticle MAX_ACCRETION_PARTICLES)
          (repeat zeroStar MAX_FALLING_STARS)
          (repeat (0, 0)%Z 60)
          (repeat (repeat 0%Z 10) MAX_FALLING_STARS)
          (repeat (repeat 0%Z 10) MAX_FALLING_STARS)
          (repeat 0%Z MAX_FALLING_STARS)
          (repeat (-1)%Z 4) (repeat (-1)%Z 4).

(** The contract of [random(low, high)]: [low <= result < high]. *)
Record validInputs (inp : Inputs) : Prop := {
  rndAngle_range : forall i, (0 <= rndAngle inp i < 3600)%Z;
  rndFactor_range : forall i, (0 <= rndFactor inp i < 1000)%Z;
  rndSpawn_range : (0 <= rndSpawn inp < 100)%Z;
  rndBrightness_range : (180 <= rndBrightness inp < 256)%Z;
  rndSpin_range : (50 <= rndSpin inp < 200)%Z;
  rndEdge_range : (0 <= rndEdge inp < 4)%Z;
  rndOffset_range : (-10 <= rndOffset inp < 10)%Z;
  rndSpeed_range : (4 <= rndSpeed inp < 10)%Z
}.

(** States the module can be in: the start-up state, and any state reached
    from one by a tick or by a teardown. *)
Inductive reachable : State -> Prop :=
| reach_init : reachable initialState
| reach_tick inp s :
    reachable s -> validInputs inp -> reachable (fst (drawBlackHole inp s))
| reach_erase s :
    reachable s -> reachable (fst (eraseBlackHole s)).

(** ** Concrete inputs used by the examples *)

(** A tick with the focal object at ([cx], [cy]), scale [scale], clock
    reading [now], every particle draw equal to ([rA], [rF]) and the spawn
    draw [spawn]. *)
Definition inputsAt (cx cy : Z) (scale : R) (now : Z) (rA rF spawn : Z) : Inputs :=
  mkInputs cx cy scale now (fun _ => now) (fun _ => now) (fun _ => now)
           (fun _ => rA) (fun _ => rF) spawn 200 100 3 60 0 5.

(** A particle in orbit at distance 20 and angle 1. *)
Definition orbitingParticle : AccretionParticle :=
  AP.mk 1 20 (4 / 100) 255 0 (-1) (-1) 65535 true true (9 / 10) 1 0 0
        (repeat (-1)%Z 8) (repeat (-1)%Z 8) (repeat 0%Z 8) 0.

(** A falling star at rest on the focal centre (120, 120). *)
Definition centreStar : FallingStar :=
  FS.mk 120 120 0 0 0 200 120 120 true 1 0 false 0.


(** ** Vocabulary of the properties *)

(** The distance the star loop computes: from the position before the move. *)
Definition distToCenter (inp : Inputs) (st : FallingStar) : R :=
  sqrt ((IZR (objectX inp) - FS.x st) * (IZR (objectX inp) - FS.x st)
        + (IZR (objectY inp) - FS.y st) * (IZR (objectY inp) - FS.y st)).

(** The point of the flash on ring [r] (radius [blackHoleRadius + r]) at angle
    [j * PI / 4]. *)
Definition flashX (bhr : R) (centerX : Z) (r j : nat) : Z :=
  roundZ (IZR centerX + cos (INR j * PI / 4) * (bhr + INR r)).

Definition flashY (bhr : R) (centerY : Z) (r j : nat) : Z :=
  roundZ (IZR centerY + sin (INR j * PI / 4) * (bhr + INR r)).

(** [vx*vx + vy*vy] of a falling star. *)
Definition speedSq (st : FallingStar) : R := FS.vx st * FS.vx st + FS.vy st * FS.vy st.

(** Every entry of [previousLensPoints] is (-1, -1). *)
Definition lensClear (s : State) : Prop :=
  previousLensPoints s = repeat ((-1)%Z, (-1)%Z) 60.

(** Every slot of [accretionDisk] has [active] set. *)
Definition allActive (s : State) : Prop :=
  Forall (fun p => AP.active p = true) (accretionDisk s).

(** The state right after the two loops of the update section (Advance) of
    a tick. *)
Definition afterAdvance (inp : Inputs) (s : State) : State :=
  advanceSection inp (tickDelta inp s)
                 (fst (eraseSection (objectX inp) (objectY inp) (prepare inp s))).

(** A call that is either not a pixel or a pixel on the screen. *)
Definition pixelOnScreen (c : Call) : Prop :=
  match c with
  | DrawPixel x y _ => onScreen x y = true
  | _ => True
  end.

(** A slot whose trail is empty: length 0 and both arrays filled with -1. *)
Definition emptyTrail (p : AccretionParticle) : Prop :=
  AP.trailLength p = 0%Z
  /\ AP.trailX p = repeat (-1)%Z 8 /\ AP.trailY p = repeat (-1)%Z 8.

(** The calls of the two disk passes of a tick (steps 1 and 7 of the drawing
    section), the calls of its inner-swirl pass (step 3) and of its
    falling-star pass (step 6). *)
Definition diskDrawCalls (inp : Inputs) (s : State) : list Call :=
  let u := advanced inp s in
  flat_map (drawBackParticle (blackHoleRadius u) (objectX inp) (objectY inp)) (accretionDisk u)
  ++ flat_map snd (map (drawFrontParticle (blackHoleRadius u) (objectX inp) (objectY inp))
                       (accretionDisk u)).

Definition innerDrawCalls (inp : Inputs) (s : State) : list Call :=
  let u := advanced inp s in
  flat_map (drawInnerCall (blackHoleRadius u) (objectX inp) (objectY inp) (millisEntry inp))
           (seq 0 4).

Definition starDrawCalls (inp : Inputs) (s : State) : list Call :=
  let u := advanced inp s in
  flat_map snd (imap (fun i (st : FallingStar) =>
                        drawStar (blackHoleRadius u) (objectX inp) (objectY inp) st
                                 (trackerOf u i))
                     (fallingStars u)).

(** The calls of the erasing section of the tick run with inputs [inp] from
    state [s]. *)
Definition eraseCalls (inp : Inputs) (s : State) : list Call :=
  snd (eraseSection (objectX inp) (objectY inp) (prepare inp s)).

(** A pixel call whose position is painted with the background colour by one
    of the calls [e]. *)
Definition erasedBy (e : list Call) (c : Call) : Prop :=
  match c with
  | DrawPixel x y _ => In (DrawPixel x y BG_COLOR) e
  | _ => True
  end.

(** The sizes of the tracker arrays, as declared in the source:
    [prevInnerParticleX[4]], [fallingStars[6]], [prevTrailX[10][6]],
    [trailLen[6]]. *)
Definition wellSized (s : State) : Prop :=
  length (prevInnerParticleX s) = 4%nat
  /\ length (prevInnerParticleY s) = 4%nat
  /\ length (fallingStars s) = MAX_FALLING_STARS
  /\ length (prevTrailX s) = MAX_FALLING_STARS
  /\ length (prevTrailY s) = MAX_FALLING_STARS
  /\ length (trailLen s) = MAX_FALLING_STARS
  /\ Forall (fun col => length col = 10%nat) (prevTrailX s)
  /\ Forall (fun col => length col = 10%nat) (prevTrailY s).

(** A tracker with ten slots in each column and a length between 0 and 10. *)
Definition wfTracker (tr : Tracker) : Prop :=
  length (fst (fst tr)) = 10%nat /\ length (snd (fst tr)) = 10%nat
  /\ (0 <= snd tr <= 10)%Z.

(** The positions a tracker holds: its first [trailLen] pairs. *)
Definition recorded (tr : Tracker) : list (Z * Z) :=
  firstn (Z.to_nat (snd tr)) (combine (fst (fst tr)) (snd (fst tr))).

(** The positions of the pixel calls of a list of calls. *)
Definition pixelsOf (calls : list Call) : list (Z * Z) :=
  flat_map (fun c => match c with DrawPixel x y _ => [(x, y)] | _ => [] end) calls.

(** The tracker of star [i] after the star pass run in state [u] (the local
    [tracker] of [drawSection]). *)
Definition starTracker (inp : Inputs) (u : State) (i : nat) : Tracker :=
  nth i (map fst (imap (fun i (st : FallingStar) =>
                          drawStar (blackHoleRadius u) (objectX inp) (objectY inp) st
                                   (trackerOf u i))
                       (fallingStars u)))
      (trackerOf u i).

(** The colour a call paints with, and whether a call is a pixel. *)
Definition callColor (c : Call) : Z :=
  match c with
  | DrawPixel _ _ k => k
  | FillCircle _ _ _ k => k
  | DrawCircle _ _ _ k => k
  end.

Definition isPixel (c : Call) : Prop :=
  match c with
  | DrawPixel _ _ _ => True
  | _ => False
  end.

(** A pixel call on the screen and strictly outside the circle of radius
    [round(bhr)] around the centre. *)
Definition outsideHorizon (bhr : R) (cx cy : Z) (c : Call) : Prop :=
  match c with
  | DrawPixel x y _ =>
      onScreen x y = true /\ (sq (roundZ bhr) < sq (x - cx) + sq (y - cy))%Z
  | _ => False
  end.

(** * Properties *)

(** ** Truncation, rounding and remainder *)

Lemma Int_part_bounds (r : R) : IZR (Int_part r) <= r < IZR (Int_part r) + 1.
Proof. destruct (base_Int_part r); lra. Qed.

Lemma truncZ_nonneg (r : R) : 0 <= r -> IZR (truncZ r) <= r < IZR (truncZ r) + 1.
Proof.
  intro Hr. unfold truncZ. destruct (Rle_dec 0 r); [apply Int_part_bounds | lra].
Qed.

Lemma truncZ_neg (r : R) : r < 0 -> r <= IZR (truncZ r) < r + 1.
Proof.
  intro Hr. unfold truncZ. destruct (Rle_dec 0 r); [lra |].
  rewrite opp_IZR. pose proof (Int_part_bounds (- r)). lra.
Qed.

Lemma roundZ_near (x : R) : x - 5 / 10 <= IZR (roundZ x) <= x + 5 / 10.
Proof.
  unfold roundZ. destruct (Rle_dec 0 x).
  - pose proof (truncZ_nonneg (x + 5 / 10)). lra.
  - pose proof (truncZ_neg (x - 5 / 10)). lra.
Qed.

Lemma roundZ_between (a b : Z) (x : R) :
  IZR a <= x <= IZR b -> (a <= roundZ x <= b)%Z.
Proof.
  intros [Ha Hb]. pose proof (roundZ_near x) as [H1 H2]. split.
  - apply Z.lt_succ_r, lt_IZR. rewrite succ_IZR. lra.
  - apply Z.lt_succ_r, lt_IZR. rewrite succ_IZR. lra.
Qed.

Lemma roundZ_IZR (n : Z) : roundZ (IZR n) = n.
Proof. assert (n <= roundZ (IZR n) <= n)%Z by (apply roundZ_between; lra). lia. Qed.

Lemma fmod_nonneg (a m : R) : 0 < m -> 0 <= a -> 0 <= fmod a m < m.
Proof.
  intros Hm Ha. unfold fmod.
  assert (Hq : 0 <= a / m) by (apply Rle_mult_inv_pos; assumption).
  pose proof (truncZ_nonneg _ Hq) as [H1 H2].
  assert (E : a = a / m * m) by (field; lra).
  split.
  - assert (IZR (truncZ (a / m)) * m <= a / m * m) by (apply Rmult_le_compat_r; lra). lra.
  - assert (a / m * m < (IZR (truncZ (a / m)) + 1) * m) by (apply Rmult_lt_compat_r; lra). lra.
Qed.

Lemma fmod_neg (a m : R) : 0 < m -> a < 0 -> - m < fmod a m <= 0.
Proof.
  intros Hm Ha. unfold fmod.
  assert (Hq : a / m < 0).
  { unfold Rdiv. rewrite <- (Rmult_0_l (/ m)).
    apply Rmult_lt_compat_r; [apply Rinv_0_lt_compat; assumption | assumption]. }
  pose proof (truncZ_neg _ Hq) as [H1 H2].
  assert (E : a = a / m * m) by (field; lra).
  split.
  - assert (IZR (truncZ (a / m)) * m < (a / m + 1) * m) by (apply Rmult_lt_compat_r; lra). lra.
  - assert (a / m * m <= IZR (truncZ (a / m)) * m) by (apply Rmult_le_compat_r; lra). lra.
Qed.

Lemma wrapAngle_range (a : R) : 0 <= wrapAngle a < 2 * PI.
Proof.
  pose proof PI_RGT_0 as Hpi.
  assert (Hm : 0 < 2 * PI) by lra.
  unfold wrapAngle. destruct (Rle_dec 0 a) as [Ha | Ha].
  - pose proof (fmod_nonneg a (2 * PI) Hm Ha).
    destruct (Rlt_dec (fmod a (2 * PI)) 0); lra.
  - assert (Ha' : a < 0) by lra.
    pose proof (fmod_neg a (2 * PI) Hm Ha').
    destruct (Rlt_dec (fmod a (2 * PI)) 0); lra.
Qed.

(** ** Indexed maps *)

Lemma nth_error_imap_from {A B : Type} (f : nat -> A -> B) (l : list A) :
  forall k n, nth_error (imap_from k f l) n = option_map (f (k + n)%nat) (nth_error l n).
Proof.
  induction l as [| a l IH]; intros k n.
  - destruct n; reflexivity.
  - destruct n as [| n]; simpl.
    + rewrite Nat.add_0_r. reflexivity.
    + rewrite IH. replace (S k + n)%nat with (k + S n)%nat by lia. reflexivity.
Qed.

Lemma nth_error_imap {A B : Type} (f : nat -> A -> B) (l : list A) (n : nat) :
  nth_error (imap f l) n = option_map (f n) (nth_error l n).
Proof. unfold imap. rewrite nth_error_imap_from. reflexivity. Qed.

Lemma nth_error_apply_at {A : Type} (f : A -> A) (l : list A) (i : nat) :
  nth_error (apply_at i f l) i = option_map f (nth_error l i).
Proof. unfold apply_at. rewrite nth_error_imap, Nat.eqb_refl. reflexivity. Qed.

Lemma Forall_imap_from {A B : Type} (P : A -> Prop) (Q : B -> Prop) (f : nat -> A -> B) :
  (forall i a, P a -> Q (f i a)) ->
  forall l k, Forall P l -> Forall Q (imap_from k f l).
Proof.
  intros Hf l. induction l as [| a l IH]; intros k Hl; simpl.
  - constructor.
  - inversion Hl; subst. constructor; [apply Hf; assumption | apply IH; assumption].
Qed.

Lemma Forall_imap {A B : Type} (P : A -> Prop) (Q : B -> Prop) (f : nat -> A -> B) (l : list A) :
  (forall i a, P a -> Q (f i a)) -> Forall P l -> Forall Q (imap f l).
Proof. intros Hf Hl. apply Forall_imap_from with (P := P); assumption. Qed.

(** ** The particle initialiser *)

Lemma initParticle_distance (bhr : R) (rA rF : Z) (p : AccretionParticle) :
  AP.distance (initParticle bhr rA rF p)
  = currentDiskInnerRadius bhr
    + (IZR rF / 1000) ^ 2 * (currentDiskOuterRadius bhr - currentDiskInnerRadius bhr).
Proof. unfold initParticle. destruct (bandColor _) as [[r g] b]. reflexivity. Qed.

Lemma initParticle_relativistic_factor (bhr : R) (rA rF : Z) (p : AccretionParticle) :
  AP.relativistic_factor (initParticle bhr rA rF p)
  = Rmin (sqrt (bhr / AP.distance (initParticle bhr rA rF p))) (9 / 10).
Proof. unfold initParticle. destruct (bandColor _) as [[r g] b]. reflexivity. Qed.

Lemma initParticle_angle (bhr : R) (rA rF : Z) (p : AccretionParticle) :
  AP.angle (initParticle bhr rA rF p) = IZR rA * PI / 1800.
Proof. unfold initParticle. destruct (bandColor _) as [[r g] b]. reflexivity. Qed.

Lemma initParticle_active (bhr : R) (rA rF : Z) (p : AccretionParticle) :
  AP.active (initParticle bhr rA rF p) = true.
Proof. unfold initParticle. destruct (bandColor _) as [[r g] b]. reflexivity. Qed.

Lemma initialized_slot (inp : Inputs) (index : nat) (cx cy : Z) (s : State)
    (p : AccretionParticle) :
  nth_error (accretionDisk (initializeAccretionParticle inp index cx cy s)) index = Some p ->
  exists q, nth_error (accretionDisk s) index = Some q
            /\ p = initParticle (blackHoleRadius s) (rndAngle inp index) (rndFactor inp index) q.
Proof.
  simpl. rewrite nth_error_apply_at.
  destruct (nth_error (accretionDisk s) index) as [q |]; simpl; [| discriminate].
  intro E. injection E as <-. exists q. split; reflexivity.
Qed.

(** C1 (as amended): the relativistic factor stored by the initialiser is the
    square root of the event-horizon radius [blackHoleRadius] (not of the
    disk inner radius) divided by the particle's new distance, capped at
    0.9. *)
Theorem C1_relativistic_factor_uses_horizon_radius :
  forall (inp : Inputs) (index : nat) (cx cy : Z) (s : State) (p : AccretionParticle),
    nth_error (accretionDisk (initializeAccretionParticle inp index cx cy s)) index = Some p ->
    AP.relativistic_factor p = Rmin (sqrt (blackHoleRadius s / AP.distance p)) (9 / 10).
Proof.
  intros inp index cx cy s p Hp.
  destruct (initialized_slot _ _ _ _ _ _ Hp) as [q [_ ->]].
  apply initParticle_relativistic_factor.
Qed.

(** C7: the active branch of the particle loop leaves the angle in
    [0, 2*PI). *)
Theorem C7_angle_wrapped :
  forall (inp : Inputs) (bhr dir dor deltaTime : R) (i : nat) (p : AccretionParticle),
    AP.active p = true ->
    0 <= AP.angle (updateParticle inp bhr dir dor deltaTime i p) < 2 * PI.
Proof.
  intros inp bhr dir dor deltaTime i p Hact.
  unfold updateParticle. simpl. rewrite Hact. simpl.
  unfold advanceParticle. simpl. rewrite Hact. simpl.
  apply wrapAngle_range.
Qed.

(** ** The radii during a tick *)

Lemma spawnSection_radii (inp : Inputs) (s : State) :
  blackHoleRadius (spawnSection inp s) = blackHoleRadius s
  /\ diskInnerRadius (spawnSection inp s) = diskInnerRadius s
  /\ diskOuterRadius (spawnSection inp s) = diskOuterRadius s.
Proof.
  unfold spawnSection.
  destruct (rndSpawn inp <? 4)%Z; [| auto].
  destruct (firstFree 0 (fallingStars s)); simpl; auto.
Qed.

Lemma prepare_radii (inp : Inputs) (s : State) :
  blackHoleRadius (prepare inp s) = 14 * objectScale inp
  /\ diskInnerRadius (prepare inp s) = 14 * objectScale inp * (12 / 10)
  /\ diskOuterRadius (prepare inp s) = 14 * objectScale inp * 2.
Proof.
  unfold prepare. simpl. destruct (blackHoleInitialized s); simpl; auto.
Qed.

Lemma advanced_radii (inp : Inputs) (s : State) :
  blackHoleRadius (advanced inp s) = 14 * objectScale inp
  /\ diskInnerRadius (advanced inp s) = 14 * objectScale inp * (12 / 10)
  /\ diskOuterRadius (advanced inp s) = 14 * objectScale inp * 2.
Proof.
  unfold advanced, updateSection. cbn [fst].
  match goal with
  | |- context [spawnSection inp ?t] =>
      destruct (spawnSection_radii inp t) as (-> & -> & ->)
  end.
  simpl. apply prepare_radii.
Qed.

Lemma drawBlackHole_radii (inp : Inputs) (s : State) :
  blackHoleRadius (fst (drawBlackHole inp s)) = 14 * objectScale inp
  /\ diskInnerRadius (fst (drawBlackHole inp s)) = 14 * objectScale inp * (12 / 10)
  /\ diskOuterRadius (fst (drawBlackHole inp s)) = 14 * objectScale inp * 2.
Proof.
  unfold drawBlackHole. simpl. apply advanced_radii.
Qed.


(** ** Radial position after Advance *)

Lemma advanceParticle_distance (bhr dir dor : R) (cx cy : Z) (deltaTime : R)
    (p : AccretionParticle) :
  AP.distance (advanceParticle bhr dir dor cx cy deltaTime p)
  = Rmin (Rmax (AP.distance p) (Rmax 1 (bhr * (12 / 10)) * (1 / 10))) (dor * (11 / 10)).
Proof.
  unfold advanceParticle. cbv zeta.
  match goal with |- context [if ?c then _ else _] => destruct c end;
    [match goal with |- context [if ?c then _ else _] => destruct c end |];
    reflexivity.
Qed.



(** ** Termination of a falling star *)

Lemma Rleb_true (a b : R) : Rleb a b = true <-> a <= b.
Proof. unfold Rleb. destruct (Rle_dec a b); split; intros; try discriminate; tauto. Qed.

Lemma Rleb_false (a b : R) : Rleb a b = false <-> ~ a <= b.
Proof. unfold Rleb. destruct (Rle_dec a b); split; intros; try discriminate; tauto. Qed.

Lemma Rltb_true (a b : R) : Rltb a b = true <-> a < b.
Proof. unfold Rltb. destruct (Rlt_dec a b); split; intros; try discriminate; tauto. Qed.

Lemma Rltb_false (a b : R) : Rltb a b = false <-> ~ a < b.
Proof. unfold Rltb. destruct (Rlt_dec a b); split; intros; try discriminate; tauto. Qed.

(** What the loop does with an active star: it stores the distance, and
    either keeps the star active without drawing, or deactivates it with the
    flash and a trail (distance at most 1.5 radii), or deactivates it without
    either. *)
Lemma updateStar_active (inp : Inputs) (bhr deltaTime : R) (i : nat) (st : FallingStar) :
  FS.active st = true ->
  let r := updateStar inp bhr deltaTime i st in
  FS.distance (fst r) = distToCenter inp st
  /\ ((FS.active (fst r) = true /\ snd r = [])
      \/ (FS.active (fst r) = false /\ distToCenter inp st <= bhr * (15 / 10)
          /\ FS.hasTrail (fst r) = true
          /\ snd r = flashCalls bhr (objectX inp) (objectY inp))
      \/ (FS.active (fst r) = false /\ ~ distToCenter inp st <= bhr * (15 / 10)
          /\ FS.hasTrail (fst r) = false
          /\ snd r = [])).
Proof.
  intros Hact r. subst r. unfold updateStar. rewrite Hact. cbn [negb]. cbv zeta.
  fold (distToCenter inp st).
  destruct (if Rltb (1 / 10) (distToCenter inp st) then _ else _) as [vx vy].
  destruct (Rleb (distToCenter inp st) bhr || _ || _ || _ || _).
  - destruct (Rleb (distToCenter inp st) (bhr * (15 / 10))) eqn:E; cbn [fst snd FS.distance].
    + split; [reflexivity |]. right; left.
      apply Rleb_true in E. repeat split; auto.
    + split; [reflexivity |]. right; right.
      apply Rleb_false in E. repeat split; auto.
  - cbn [fst snd FS.distance]. split; [reflexivity |]. left. split; reflexivity.
Qed.

(** C5: when the star loop deactivates an active star, [hasTrail] becomes
    true exactly when the distance computed in that iteration (which is the
    one stored in the star) is at most 1.5 times the event-horizon radius;
    otherwise [hasTrail] becomes false and nothing is drawn. *)
Theorem C5_trail_iff_consumed_near :
  forall (inp : Inputs) (bhr deltaTime : R) (i : nat) (st : FallingStar),
    FS.active st = true ->
    FS.active (fst (updateStar inp bhr deltaTime i st)) = false ->
    let st' := fst (updateStar inp bhr deltaTime i st) in
    let calls := snd (updateStar inp bhr deltaTime i st) in
    FS.distance st' = distToCenter inp st
    /\ (FS.hasTrail st' = true <-> FS.distance st' <= bhr * (15 / 10))
    /\ (~ FS.distance st' <= bhr * (15 / 10) -> FS.hasTrail st' = false /\ calls = []).
Proof.
  intros inp bhr deltaTime i st Hact Hoff st' calls.
  destruct (updateStar_active inp bhr deltaTime i st Hact) as [Hd Hcases].
  fold st' in Hd, Hcases, Hoff. fold calls in Hcases.
  rewrite Hd.
  destruct Hcases as [[Hon _] | [(_ & Hnear & Htrail & _) | (_ & Hfar & Htrail & Hcalls)]].
  - rewrite Hon in Hoff. discriminate.
  - split; [reflexivity |]. split.
    + split; intros _; assumption.
    + intro Hn. contradiction.
  - split; [reflexivity |]. split.
    + split; intro Hyp; [rewrite Htrail in Hyp; discriminate | contradiction].
    + intros _. split; assumption.
Qed.

(** ** The consumption flash *)

Lemma in_flashCalls (bhr : R) (cx cy : Z) (c : Call) :
  In c (flashCalls bhr cx cy)
  <-> exists r j, (r < 3)%nat /\ (j < 8)%nat
                  /\ onScreen (flashX bhr cx r j) (flashY bhr cy r j) = true
                  /\ c = DrawPixel (flashX bhr cx r j) (flashY bhr cy r j) TFT_WHITE.
Proof.
  unfold flashCalls. rewrite in_flat_map. split.
  - intros (r & Hr & Hin). apply in_flat_map in Hin. destruct Hin as (j & Hj & Hin).
    apply in_seq in Hr. apply in_seq in Hj.
    unfold flashPoint in Hin. fold (flashX bhr cx r j) (flashY bhr cy r j) in Hin.
    destruct (onScreen _ _) eqn:E; [| destruct Hin].
    destruct Hin as [<- | []]. exists r, j. repeat split; auto; lia.
  - intros (r & j & Hr & Hj & Hon & ->). exists r. split; [apply in_seq; lia |].
    apply in_flat_map. exists j. split; [apply in_seq; lia |].
    unfold flashPoint. fold (flashX bhr cx r j) (flashY bhr cy r j).
    rewrite Hon. left. reflexivity.
Qed.

Lemma length_flat_map_le {A B : Type} (f : A -> list B) (n : nat) (l : list A) :
  (forall a, length (f a) <= n)%nat -> (length (flat_map f l) <= n * length l)%nat.
Proof.
  intro Hf. induction l as [| a l IH]; simpl; [lia |].
  rewrite length_app. specialize (Hf a). lia.
Qed.

Lemma flashCalls_length (bhr : R) (cx cy : Z) : (length (flashCalls bhr cx cy) <= 24)%nat.
Proof.
  unfold flashCalls.
  change 24%nat with (8 * length (seq 0 3))%nat.
  apply length_flat_map_le. intro r.
  change 8%nat with (1 * length (seq 0 8))%nat.
  apply length_flat_map_le. intro j.
  unfold flashPoint. destruct (onScreen _ _); simpl; lia.
Qed.

(** C4 (as amended): the flash drawn when a star is consumed within 1.5
    radii is made of three rings of eight points: for every [r] in 0..2 and
    every [j] in 0..7 the point at angle [j*PI/4] on the circle of radius
    [blackHoleRadius + r], drawn in white when it is on the screen and
    skipped otherwise; that is at most 24 pixels, and nothing else. *)
Theorem C4_flash_is_three_rings :
  forall (inp : Inputs) (bhr deltaTime : R) (i : nat) (st : FallingStar),
    FS.active st = true ->
    FS.active (fst (updateStar inp bhr deltaTime i st)) = false ->
    distToCenter inp st <= bhr * (15 / 10) ->
    let calls := snd (updateStar inp bhr deltaTime i st) in
    (forall c, In c calls
               <-> exists r j, (r < 3)%nat /\ (j < 8)%nat
                    /\ onScreen (flashX bhr (objectX inp) r j) (flashY bhr (objectY inp) r j) = true
                    /\ c = DrawPixel (flashX bhr (objectX inp) r j)
                                     (flashY bhr (objectY inp) r j) TFT_WHITE)
    /\ (length calls <= 24)%nat.
Proof.
  intros inp bhr deltaTime i st Hact Hoff Hnear calls.
  destruct (updateStar_active inp bhr deltaTime i st Hact) as [_ Hcases].
  fold calls in Hcases.
  destruct Hcases as [[Hon _] | [(_ & _ & _ & Hcalls) | (_ & Hfar & _)]].
  - rewrite Hon in Hoff. discriminate.
  - rewrite Hcalls. split; [intro c; apply in_flashCalls | apply flashCalls_length].
  - contradiction.
Qed.

(** ** The speed ceiling of falling stars *)

(** *** The speed limit in an arithmetic that rounds *)

Lemma rel_error_bounds (x y u : R) :
  0 <= y -> Rabs (x - y) <= u * Rabs y -> y * (1 - u) <= x <= y * (1 + u).
Proof.
  intros Hy H. rewrite (Rabs_pos_eq y Hy) in H.
  unfold Rabs in H. destruct (Rcase_abs (x - y)); lra.
Qed.

Lemma rel_error_square (x y u : R) :
  0 <= u -> Rabs (x - y) <= u * Rabs y -> x * x <= y * y * ((1 + u) * (1 + u)).
Proof.
  intros Hu H.
  assert (Hx : Rabs x <= Rabs y * (1 + u)).
  { pose proof (Rabs_triang (x - y) y) as Ht.
    replace (x - y + y) with x in Ht by ring. lra. }
  pose proof (Rabs_pos x) as Hx0. pose proof (Rabs_pos y) as Hy0.
  replace (x * x) with (Rabs x * Rabs x)
    by (unfold Rabs; destruct (Rcase_abs x); ring).
  replace (y * y) with (Rabs y * Rabs y)
    by (unfold Rabs; destruct (Rcase_abs y); ring).
  replace (Rabs y * Rabs y * ((1 + u) * (1 + u)))
    with (Rabs y * (1 + u) * (Rabs y * (1 + u))) by ring.
  apply Rmult_le_compat; lra.
Qed.


Section Limit.
Context {F : Type} (A : FloatOps F) (u : R).
Hypothesis Hu : 0 <= u <= / 16777216.
Hypothesis HA : accurate A u.

Lemma limitSpeed_bounded (vx vy : F) :
  f_value (fst (limitSpeed vx vy)) * f_value (fst (limitSpeed vx vy))
  + f_value (snd (limitSpeed vx vy)) * f_value (snd (limitSpeed vx vy))
  <= 400 * ((1 + u) ^ 5 / (1 - u) ^ 2).
Proof.
  assert (Hu1 : u <= 1 / 16000000) by lra.
  destruct Hu as [Hu0 _].
  set (X := f_value vx). set (Y := f_value vy).
  set (k := 1 + u). set (m := 1 - u).
  assert (Hk : 1 <= k) by (unfold k; lra).
  assert (Hm : 0 < m) by (unfold m; lra).
  pose proof (acc_mul A u HA vx vx) as Ha. fold X in Ha.
  pose proof (acc_mul A u HA vy vy) as Hb. fold Y in Hb.
  apply rel_error_bounds in Ha; [| nra].
  apply rel_error_bounds in Hb; [| nra].
  set (a := f_value (f_mul vx vx)) in *. set (b := f_value (f_mul vy vy)) in *.
  fold k m in Ha, Hb.
  assert (Ha0 : 0 <= a) by nra. assert (Hb0 : 0 <= b) by nra.
  pose proof (acc_add A u HA (f_mul vx vx) (f_mul vy vy)) as HT. fold a b in HT.
  apply rel_error_bounds in HT; [| lra].
  set (T := f_value (f_add (f_mul vx vx) (f_mul vy vy))) in *.
  fold k m in HT.
  set (S := X * X + Y * Y).
  assert (HS0 : 0 <= S) by (unfold S; nra).
  assert (HST : S * (m * m) <= T).
  { apply Rle_trans with ((a + b) * m); [| lra].
    replace (S * (m * m)) with ((S * m) * m) by ring.
    apply Rmult_le_compat_r; [lra |]. unfold S. nra. }
  assert (Hbound : 400 * (k ^ 5 / m ^ 2) * (m * m) = 400 * k ^ 5).
  { field. lra. }
  assert (Hk5 : 1 <= k ^ 5).
  { apply pow_R1_Rle. exact Hk. }
  assert (Hmm : 0 < m * m) by nra.
  unfold limitSpeed. cbv zeta. fold T.
  destruct (f_ltb (f_const 400) (f_add (f_mul vx vx) (f_mul vy vy))) eqn:E; cbn [fst snd].
  - apply (acc_ltb A u HA) in E. rewrite (acc_400 A u HA) in E. fold T in E.
    pose proof (acc_div A u HA (f_const 400) (f_add (f_mul vx vx) (f_mul vy vy))) as Hq.
    rewrite (acc_400 A u HA) in Hq. fold T in Hq.
    assert (HqT : 0 < 400 / T) by (apply Rdiv_lt_0_compat; lra).
    apply rel_error_bounds in Hq; [| lra | lra].
    set (q := f_div (f_const 400) (f_add (f_mul vx vx) (f_mul vy vy))) in *.
    fold k m in Hq.
    assert (Hq0 : 0 <= f_value q) by nra.
    pose proof (acc_sqrt A u HA q Hq0) as Hr.
    pose proof (sqrt_pos (f_value q)) as Hsq.
    rewrite <- (Rabs_pos_eq _ Hsq) in Hr at 2.
    apply rel_error_bounds in Hr; [| exact Hsq].
    set (sc := f_sqrt q) in *. fold k m in Hr.
    set (r := f_value sc) in *.
    assert (Hr0 : 0 <= r) by nra.
    assert (Hrr : r * r <= 400 / T * (k * k * k)).
    { apply Rle_trans with (sqrt (f_value q) * k * (sqrt (f_value q) * k)).
      - apply Rmult_le_compat; lra.
      - replace (sqrt (f_value q) * k * (sqrt (f_value q) * k))
          with (sqrt (f_value q) * sqrt (f_value q) * (k * k)) by ring.
        rewrite (sqrt_sqrt _ Hq0).
        replace (400 / T * (k * k * k)) with (400 / T * k * (k * k)) by ring.
        apply Rmult_le_compat_r; [nra | lra]. }
    pose proof (rel_error_square _ _ u Hu0 (acc_mul A u HA vx sc)) as HX'.
    pose proof (rel_error_square _ _ u Hu0 (acc_mul A u HA vy sc)) as HY'.
    fold X r k in HX'. fold Y r k in HY'.
    apply Rle_trans with (S * (r * r) * (k * k)).
    { unfold S. nra. }
    apply Rle_trans with (S * (400 / T * (k * k * k)) * (k * k)).
    { apply Rmult_le_compat_r; [nra |]. apply Rmult_le_compat_l; lra. }
    apply (Rmult_le_reg_r (m * m)); [exact Hmm |].
    rewrite Hbound.
    replace (S * (400 / T * (k * k * k)) * (k * k) * (m * m))
      with (S * (m * m) / T * (400 * k ^ 5)) by (field; lra).
    assert (Hratio : S * (m * m) / T <= 1).
    { apply (Rmult_le_reg_r T); [lra |]. unfold Rdiv. rewrite Rmult_assoc, Rinv_l by lra. lra. }
    assert (0 <= S * (m * m) / T).
    { apply Rle_mult_inv_pos; [nra | lra]. }
    nra.
  - assert (HT400 : T <= 400).
    { destruct (Rle_or_lt T 400) as [H | H]; [exact H |].
      exfalso. assert (Hc : f_ltb (f_const 400) (f_add (f_mul vx vx) (f_mul vy vy)) = true).
      { apply (acc_ltb A u HA). rewrite (acc_400 A u HA). exact H. }
      rewrite E in Hc. discriminate. }
    fold X Y S.
    apply (Rmult_le_reg_r (m * m)); [exact Hmm |].
    rewrite Hbound. nra.
Qed.
End Limit.

Lemma exactOps_accurate : accurate exactOps 0.
Proof.
  constructor; cbn [f_value f_const f_ltb f_add f_mul f_div f_sqrt exactOps]; intros;
    try (replace (_ - _) with 0 by ring; rewrite Rabs_R0; lra).
  - reflexivity.
  - apply Rltb_true.
Qed.


(** *** The speed limit in the tick *)

Lemma accelerate_capped (bhr deltaTime dx dy distSq dist : R) (st : FallingStar) :
  fst (accelerate bhr deltaTime dx dy distSq dist st)
    * fst (accelerate bhr deltaTime dx dy distSq dist st)
  + snd (accelerate bhr deltaTime dx dy distSq dist st)
    * snd (accelerate bhr deltaTime dx dy distSq dist st) <= 400.
Proof.
  unfold accelerate. cbv zeta.
  destruct (if Rltb dist (bhr * 8) then _ else _) as [accX accY].
  assert (H0 : 0 <= 0 <= / 16777216) by lra.
  pose proof (limitSpeed_bounded exactOps 0 H0 exactOps_accurate
                (FS.vx st + accX * deltaTime) (FS.vy st + accY * deltaTime)) as H.
  cbn [f_value exactOps] in H.
  replace (400 * ((1 + 0) ^ 5 / (1 - 0) ^ 2)) with 400 in H by field.
  exact H.
Qed.

Lemma updateStar_speed (inp : Inputs) (bhr deltaTime : R) (i : nat) (st : FallingStar) :
  speedSq st <= 400 -> speedSq (fst (updateStar inp bhr deltaTime i st)) <= 400.
Proof.
  intro Hst. unfold updateStar. cbv zeta.
  destruct (FS.active st); cbn [negb].
  - set (dx := IZR (objectX inp) - FS.x st).
    set (dy := IZR (objectY inp) - FS.y st).
    set (dist := sqrt (dx * dx + dy * dy)).
    assert (Hv : fst (if Rltb (1 / 10) dist
                      then accelerate bhr deltaTime dx dy (dx * dx + dy * dy) dist st
                      else (FS.vx st, FS.vy st))
                 * fst (if Rltb (1 / 10) dist
                        then accelerate bhr deltaTime dx dy (dx * dx + dy * dy) dist st
                        else (FS.vx st, FS.vy st))
                 + snd (if Rltb (1 / 10) dist
                        then accelerate bhr deltaTime dx dy (dx * dx + dy * dy) dist st
                        else (FS.vx st, FS.vy st))
                   * snd (if Rltb (1 / 10) dist
                          then accelerate bhr deltaTime dx dy (dx * dx + dy * dy) dist st
                          else (FS.vx st, FS.vy st)) <= 400).
    { destruct (Rltb (1 / 10) dist); [apply accelerate_capped | exact Hst]. }
    destruct (if Rltb (1 / 10) dist then _ else _) as [vx vy]. cbn [fst snd] in Hv.
    destruct (Rleb dist bhr || _ || _ || _ || _);
      [destruct (Rleb dist (bhr * (15 / 10))) |]; exact Hv.
  - destruct (FS.hasTrail st); [destruct (_ <? _)%Z |]; exact Hst.
Qed.

(** The spawn gives the star a speed below 1. *)
Lemma spawnStar_speed (inp : Inputs) (st : FallingStar) :
  (4 <= rndSpeed inp < 10)%Z -> speedSq (spawnStar inp st) <= 1.
Proof.
  intros [Hlo Hhi]. apply IZR_le in Hlo. apply IZR_lt in Hhi.
  unfold spawnStar. cbv zeta.
  destruct (if (rndEdge inp =? 0)%Z then _ else _) as [x y].
  unfold speedSq. cbn [FS.vx FS.vy].
  set (a := atan2 _ _ + _). set (v := IZR (rndSpeed inp) / 10).
  assert (Hv : 0 <= v < 1) by (unfold v; lra).
  replace (cos a * v * (cos a * v) + sin a * v * (sin a * v))
    with ((Rsqr (sin a) + Rsqr (cos a)) * (v * v)) by (unfold Rsqr; ring).
  rewrite sin2_cos2. nra.
Qed.

Lemma Forall_apply_at {A : Type} (P : A -> Prop) (f : A -> A) (k : nat) (l : list A) :
  (forall a, P (f a)) -> Forall P l -> Forall P (apply_at k f l).
Proof.
  intros Hf Hl. unfold apply_at. apply Forall_imap with (P := P); [| assumption].
  intros i a Ha. destruct (Nat.eqb i k); [apply Hf | assumption].
Qed.

Lemma tick_stars (inp : Inputs) (s : State) :
  fallingStars (fst (drawBlackHole inp s)) = fallingStars (advanced inp s).
Proof. reflexivity. Qed.



Lemma eraseBlackHole_stars (s : State) :
  fallingStars (fst (eraseBlackHole s)) = fallingStars s.
Proof. unfold eraseBlackHole. destruct (blackHoleInitialized s); reflexivity. Qed.



(** ** The lensing tracker *)

Lemma spawnSection_lens (inp : Inputs) (s : State) :
  previousLensPoints (spawnSection inp s) = previousLensPoints s.
Proof.
  unfold spawnSection. destruct (rndSpawn inp <? 4)%Z; [| reflexivity].
  destruct (firstFree 0 (fallingStars s)); reflexivity.
Qed.

Lemma spawnSection_initialized (inp : Inputs) (s : State) :
  blackHoleInitialized (spawnSection inp s) = blackHoleInitialized s.
Proof.
  unfold spawnSection. destruct (rndSpawn inp <? 4)%Z; [| reflexivity].
  destruct (firstFree 0 (fallingStars s)); reflexivity.
Qed.

Lemma prepare_initialized (inp : Inputs) (s : State) :
  blackHoleInitialized (prepare inp s) = true.
Proof.
  unfold prepare. cbn. destruct (blackHoleInitialized s) eqn:E; cbn; [exact E | reflexivity].
Qed.

Lemma tick_initialized (inp : Inputs) (s : State) :
  blackHoleInitialized (fst (drawBlackHole inp s)) = true.
Proof.
  unfold drawBlackHole, updateSection. cbn.
  rewrite spawnSection_initialized. cbn. apply prepare_initialized.
Qed.

Lemma prepare_lens (inp : Inputs) (s : State) :
  (blackHoleInitialized s = true -> lensClear s) -> lensClear (prepare inp s).
Proof.
  intro H. unfold lensClear, prepare. cbn.
  destruct (blackHoleInitialized s); cbn; [apply H; reflexivity | reflexivity].
Qed.

Lemma eraseLensPoint_clear : map eraseLensPoint (repeat ((-1)%Z, (-1)%Z) 60)
                             = repeat ((-1)%Z, (-1)%Z) 60.
Proof. reflexivity. Qed.

Lemma eraseSection_lens (cx cy : Z) (s : State) :
  lensClear s -> lensClear (fst (eraseSection cx cy s)).
Proof.
  unfold lensClear. intro H. cbn. rewrite H.
  destruct (eraseHorizon cx cy s); [apply eraseLensPoint_clear | reflexivity].
Qed.

Lemma tick_lens (inp : Inputs) (s : State) :
  (blackHoleInitialized s = true -> lensClear s) -> lensClear (fst (drawBlackHole inp s)).
Proof.
  intro H. unfold lensClear, drawBlackHole, updateSection. cbn.
  rewrite spawnSection_lens. cbn.
  apply (eraseSection_lens (objectX inp) (objectY inp) (prepare inp s)).
  apply prepare_lens. exact H.
Qed.

(** Once the module has been initialised, the tracker stays clear for as long
    as the flag is set. *)
Lemma reachable_lens (s : State) :
  reachable s -> blackHoleInitialized s = true -> lensClear s.
Proof.
  intro Hs. induction Hs as [| inp s Hs IH Hinp | s Hs IH].
  - discriminate.
  - intros _. apply tick_lens. exact IH.
  - unfold eraseBlackHole. destruct (blackHoleInitialized s) eqn:E; cbn.
    + discriminate.
    + rewrite E. discriminate.
Qed.

Lemma eraseLensCalls_clear : eraseLensCalls (repeat ((-1)%Z, (-1)%Z) 60) = [].
Proof. reflexivity. Qed.

(** C10: from a state the module can reach, a tick ends with every entry of
    [previousLensPoints] equal to (-1, -1), whatever the tick's inputs; the
    lens loop of the erasing section, when it runs, draws no pixel. *)
Theorem C10_lens_tracker_stays_clear :
  forall (s : State) (inp : Inputs),
    reachable s ->
    previousLensPoints (fst (drawBlackHole inp s)) = repeat ((-1)%Z, (-1)%Z) 60
    /\ eraseLensCalls (previousLensPoints (prepare inp s)) = [].
Proof.
  intros s inp Hs. split.
  - apply tick_lens. apply reachable_lens. exact Hs.
  - rewrite (prepare_lens inp s (reachable_lens s Hs)). apply eraseLensCalls_clear.
Qed.

(** ** Teardown *)

Lemma eraseBlackHole_innerY (s : State) :
  prevInnerParticleY (fst (eraseBlackHole s)) = prevInnerParticleY s.
Proof. unfold eraseBlackHole. destruct (blackHoleInitialized s); reflexivity. Qed.

(** C9 (as amended): two calls of [eraseBlackHole] in a row: the second call
    changes nothing and draws nothing.  When the module was initialised at the
    first call, after each call every x of [previousLensPoints], every
    [prevInnerParticleX] is -1 and every [trailLen] is 0, while
    [prevInnerParticleY], the y of the lens points, [prevTrailX],
    [prevTrailY] and the particles are left as they were; when it was not,
    the first call changes nothing either. *)
Theorem C9_teardown_twice :
  forall s : State,
    let s1 := fst (eraseBlackHole s) in
    let s2 := fst (eraseBlackHole s1) in
    s2 = s1
    /\ snd (eraseBlackHole s1) = []
    /\ (blackHoleInitialized s = true ->
        Forall (fun pt => fst pt = (-1)%Z) (previousLensPoints s2)
        /\ Forall (fun x => x = (-1)%Z) (prevInnerParticleX s2)
        /\ Forall (fun n => n = 0%Z) (trailLen s2)
        /\ map snd (previousLensPoints s2) = map snd (previousLensPoints s)
        /\ prevInnerParticleY s2 = prevInnerParticleY s
        /\ prevTrailX s2 = prevTrailX s
        /\ prevTrailY s2 = prevTrailY s
        /\ accretionDisk s2 = accretionDisk s)
    /\ (blackHoleInitialized s = false -> s1 = s).
Proof.
  intros s s1 s2.
  assert (Hoff : blackHoleInitialized s1 = false).
  { subst s1. unfold eraseBlackHole. destruct (blackHoleInitialized s) eqn:E; [reflexivity | exact E]. }
  assert (H21 : s2 = s1).
  { subst s2. unfold eraseBlackHole at 1. rewrite Hoff. reflexivity. }
  split; [exact H21 |]. split.
  { unfold eraseBlackHole at 1. rewrite Hoff. reflexivity. }
  split.
  - intro Hon. rewrite H21. subst s1. unfold eraseBlackHole. rewrite Hon. cbn.
    repeat split.
    + apply Forall_map. apply Forall_forall. intros pt _. reflexivity.
    + apply Forall_map. apply Forall_forall. intros x _. reflexivity.
    + apply Forall_map. apply Forall_forall. intros n _. reflexivity.
    + rewrite map_map. reflexivity.
  - intro Hno. subst s1. unfold eraseBlackHole. rewrite Hno. reflexivity.
Qed.

(** ** Lemmas used to evaluate the model on concrete inputs *)

Lemma sqrt_below (x c : R) : 0 <= x -> 0 <= c -> x < c * c -> sqrt x < c.
Proof.
  intros Hx Hc H. rewrite <- (sqrt_square c Hc). apply sqrt_lt_1_alt. lra.
Qed.

Lemma sqrt_above (x c : R) : 0 <= c -> c * c <= x -> c <= sqrt x.
Proof.
  intros Hc H. rewrite <- (sqrt_square c Hc). apply sqrt_le_1_alt. exact H.
Qed.

Lemma onScreen_true (x y : Z) :
  (0 <= x < SCREEN_WIDTH)%Z -> (0 <= y < SCREEN_HEIGHT)%Z -> onScreen x y = true.
Proof.
  intros [Hx1 Hx2] [Hy1 Hy2]. unfold onScreen.
  apply Z.leb_le in Hx1, Hy1. apply Z.ltb_lt in Hx2, Hy2.
  rewrite Hx1, Hx2, Hy1, Hy2. reflexivity.
Qed.

Lemma length_flat_map_exact {A B : Type} (f : A -> list B) (n : nat) (l : list A) :
  (forall a, In a l -> length (f a) = n) -> length (flat_map f l) = (n * length l)%nat.
Proof.
  induction l as [| a l IH]; intro Hf; simpl; [lia |].
  rewrite length_app, IH by (intros b Hb; apply Hf; right; exact Hb).
  rewrite (Hf a) by (left; reflexivity). lia.
Qed.

(** When the disc of radius [blackHoleRadius + 2] around the centre, widened
    to the integer [m], is on the screen, no point of the flash is
    suppressed. *)
Lemma flashCalls_full (bhr : R) (cx cy m : Z) :
  0 <= bhr -> bhr + 2 <= IZR m ->
  (0 <= cx - m)%Z -> (cx + m < SCREEN_WIDTH)%Z ->
  (0 <= cy - m)%Z -> (cy + m < SCREEN_HEIGHT)%Z ->
  length (flashCalls bhr cx cy) = 24%nat.
Proof.
  intros Hb Hm Hx1 Hx2 Hy1 Hy2. unfold flashCalls.
  change 24%nat with (8 * length (seq 0 3))%nat.
  apply length_flat_map_exact. intros r Hr. apply in_seq in Hr.
  change 8%nat with (1 * length (seq 0 8))%nat.
  apply length_flat_map_exact. intros j _.
  unfold flashPoint. cbv zeta.
  assert (Hr2 : 0 <= INR r <= 2).
  { split; [apply pos_INR |]. change 2 with (INR 2). apply le_INR. lia. }
  set (a := INR j * PI / 4).
  pose proof (COS_bound a) as [Hc1 Hc2]. pose proof (SIN_bound a) as [Hs1 Hs2].
  assert (HX : (cx - m <= roundZ (IZR cx + cos a * (bhr + INR r)) <= cx + m)%Z).
  { apply roundZ_between. rewrite minus_IZR, plus_IZR. split; nra. }
  assert (HY : (cy - m <= roundZ (IZR cy + sin a * (bhr + INR r)) <= cy + m)%Z).
  { apply roundZ_between. rewrite minus_IZR, plus_IZR. split; nra. }
  rewrite onScreen_true by lia. reflexivity.
Qed.

(** A star within the event horizon is deactivated with the flash. *)
Lemma updateStar_consumed (inp : Inputs) (bhr deltaTime : R) (i : nat) (st : FallingStar) :
  FS.active st = true -> 0 <= bhr -> distToCenter inp st <= bhr ->
  FS.active (fst (updateStar inp bhr deltaTime i st)) = false
  /\ FS.hasTrail (fst (updateStar inp bhr deltaTime i st)) = true
  /\ snd (updateStar inp bhr deltaTime i st) = flashCalls bhr (objectX inp) (objectY inp).
Proof.
  intros Hact Hb Hd. unfold updateStar. rewrite Hact. cbn [negb]. cbv zeta.
  fold (distToCenter inp st).
  destruct (if Rltb (1 / 10) (distToCenter inp st) then _ else _) as [vx vy].
  assert (E1 : Rleb (distToCenter inp st) bhr = true) by (apply Rleb_true; exact Hd).
  assert (E2 : Rleb (distToCenter inp st) (bhr * (15 / 10)) = true) by (apply Rleb_true; lra).
  rewrite E1, E2. cbn. repeat split.
Qed.

Lemma validInputs_inputsAt (cx cy : Z) (scale : R) (now rA rF spawn : Z) :
  (0 <= rA < 3600)%Z -> (0 <= rF < 1000)%Z -> (0 <= spawn < 100)%Z ->
  validInputs (inputsAt cx cy scale now rA rF spawn).
Proof. intros HA HF HS. constructor; cbn; intros; try assumption; lia. Qed.

(** The inner-swirl tracker after a tick. *)
Lemma spawnSection_innerY (inp : Inputs) (s : State) :
  prevInnerParticleY (spawnSection inp s) = prevInnerParticleY s.
Proof.
  unfold spawnSection. destruct (rndSpawn inp <? 4)%Z; [| reflexivity].
  destruct (firstFree 0 (fallingStars s)); reflexivity.
Qed.

Lemma tick_innerY (inp : Inputs) (s : State) :
  prevInnerParticleY (fst (drawBlackHole inp s))
  = imap (fun i _ => innerTrackY (14 * objectScale inp) (objectX inp) (objectY inp)
                                 (millisEntry inp) i)
         (prevInnerParticleY (fst (eraseSection (objectX inp) (objectY inp) (prepare inp s)))).
Proof.
  unfold drawBlackHole, commit, drawSection, updateSection.
  cbn [fst snd prevInnerParticleY].
  destruct (spawnSection_radii inp (advanceSection inp (tickDelta inp s)
              (fst (eraseSection (objectX inp) (objectY inp) (prepare inp s))))) as (-> & _ & _).
  rewrite spawnSection_innerY.
  cbn [advanceSection eraseSection fst blackHoleRadius prevInnerParticleY].
  destruct (prepare_radii inp s) as (-> & _ & _). reflexivity.
Qed.

(** A swirl point lies within 0.9 radii of the centre. *)
Lemma innerPoint_near (bhr : R) (cx cy now : Z) (i : nat) (m : Z) :
  0 <= bhr -> bhr <= IZR m ->
  (cx - m <= fst (innerPoint bhr cx cy now i) <= cx + m)%Z
  /\ (cy - m <= snd (innerPoint bhr cx cy now i) <= cy + m)%Z.
Proof.
  intros Hb Hm. unfold innerPoint. cbv zeta. cbn [fst snd].
  set (a := fmod _ _). set (d := Rmin _ _).
  assert (Hd : 0 <= d <= 1).
  { unfold d. split.
    - apply Rmin_glb; [| lra]. pose proof (pos_INR i). nra.
    - eapply Rle_trans; [apply Rmin_r | lra]. }
  pose proof (COS_bound a) as [Hc1 Hc2]. pose proof (SIN_bound a) as [Hs1 Hs2].
  assert (Hbd : 0 <= bhr * d <= IZR m) by nra.
  split; apply roundZ_between; rewrite minus_IZR, plus_IZR;
    rewrite Rmult_assoc; split; nra.
Qed.

Lemma truncZ_small (r : R) : 0 <= r < 1 -> truncZ r = 0%Z.
Proof.
  intros [H0 H1]. pose proof (truncZ_nonneg r H0) as [Ha Hb].
  assert (-1 < truncZ r < 1)%Z; [| lia].
  split; apply lt_IZR; lra.
Qed.

Lemma wrapAngle_id (a : R) : 0 <= a < 2 * PI -> wrapAngle a = a.
Proof.
  intros [H0 H1]. pose proof PI_RGT_0 as Hpi.
  unfold wrapAngle, fmod. rewrite truncZ_small.
  - destruct (Rlt_dec (a - 0 * (2 * PI)) 0); lra.
  - split.
    + apply Rle_mult_inv_pos; lra.
    + apply Rmult_lt_reg_r with (2 * PI); [lra |].
      unfold Rdiv. rewrite Rmult_assoc, Rinv_l by lra. lra.
Qed.

Lemma deltaTimeOf_range (now last : Z) : 0 < deltaTimeOf now last <= 1 / 10.
Proof. unfold deltaTimeOf. rdec; lra. Qed.

Lemma advanceParticle_prevX (bhr dir dor : R) (cx cy : Z) (deltaTime : R)
    (p : AccretionParticle) :
  AP.prevX (advanceParticle bhr dir dor cx cy deltaTime p)
  = roundZ (IZR cx
            + cos (AP.angle (advanceParticle bhr dir dor cx cy deltaTime p))
              * AP.distance (advanceParticle bhr dir dor cx cy deltaTime p)).
Proof.
  unfold advanceParticle. cbv zeta.
  match goal with |- context [if ?c then _ else _] => destruct c end;
    [match goal with |- context [if ?c then _ else _] => destruct c end |];
    reflexivity.
Qed.

Lemma advanceParticle_angle (bhr dir dor : R) (cx cy : Z) (deltaTime : R)
    (p : AccretionParticle) :
  AP.angle (advanceParticle bhr dir dor cx cy deltaTime p)
  = wrapAngle (AP.angle p
               + AP.speed p
                 * sqrt (Rmax 1 (bhr * (12 / 10))
                         / Rmax (AP.distance p) (Rmax 1 (bhr * (12 / 10)) * (5 / 10)))
                 * deltaTime * 60).
Proof.
  unfold advanceParticle. cbv zeta.
  match goal with |- context [if ?c then _ else _] => destruct c end;
    [match goal with |- context [if ?c then _ else _] => destruct c end |];
    reflexivity.
Qed.

Lemma drawFrontParticle_prev (bhr : R) (cx cy : Z) (p : AccretionParticle) :
  AP.prevX (fst (drawFrontParticle bhr cx cy p)) = AP.prevX p
  /\ AP.prevY (fst (drawFrontParticle bhr cx cy p)) = AP.prevY p
  /\ AP.active (fst (drawFrontParticle bhr cx cy p)) = AP.active p.
Proof.
  unfold drawFrontParticle. cbv zeta.
  repeat match goal with
         | |- context [if ?c then _ else _] => destruct c
         end; cbn; auto.
Qed.

Lemma spawnSection_particles (inp : Inputs) (s : State) :
  accretionDisk (spawnSection inp s) = accretionDisk s.
Proof.
  unfold spawnSection. destruct (rndSpawn inp <? 4)%Z; [| reflexivity].
  destruct (firstFree 0 (fallingStars s)); reflexivity.
Qed.

(** The particles at the end of a tick, from those at the start of its
    erasing section. *)
Lemma tick_particles (inp : Inputs) (s : State) :
  accretionDisk (fst (drawBlackHole inp s))
  = map (fun p => fst (drawFrontParticle (14 * objectScale inp) (objectX inp) (objectY inp) p))
        (imap (updateParticle inp (14 * objectScale inp) (14 * objectScale inp * (12 / 10))
                              (14 * objectScale inp * 2) (tickDelta inp s))
              (map clearParticleTrail (accretionDisk (prepare inp s)))).
Proof.
  unfold drawBlackHole, commit, drawSection, updateSection.
  cbn [fst snd accretionDisk].
  destruct (spawnSection_radii inp (advanceSection inp (tickDelta inp s)
              (fst (eraseSection (objectX inp) (objectY inp) (prepare inp s))))) as (-> & _ & _).
  rewrite spawnSection_particles.
  cbn [advanceSection eraseSection fst blackHoleRadius diskInnerRadius diskOuterRadius
       accretionDisk].
  destruct (prepare_radii inp s) as (-> & -> & ->).
  rewrite map_map. reflexivity.
Qed.

Lemma prepare_particles (inp : Inputs) (s : State) :
  accretionDisk (prepare inp s)
  = if blackHoleInitialized s then accretionDisk s
    else imap (fun i => initParticle (14 * objectScale inp) (rndAngle inp i) (rndFactor inp i))
              (accretionDisk s).
Proof. unfold prepare. cbn. destruct (blackHoleInitialized s); reflexivity. Qed.

(** The erasing section erases the previous pixel of a particle on the sole
    test [prevX >= 0]. *)
Lemma eraseSection_particle_pixel (cx cy : Z) (s : State) (p : AccretionParticle) :
  In p (accretionDisk s) -> (0 <= AP.prevX p)%Z ->
  In (DrawPixel (AP.prevX p) (AP.prevY p) BG_COLOR) (snd (eraseSection cx cy s)).
Proof.
  intros Hp Hx. unfold eraseSection. cbn [snd].
  apply in_or_app. right. apply in_or_app. left.
  apply in_flat_map. exists p. split; [exact Hp |].
  unfold eraseParticleCalls. apply in_or_app. left.
  apply Z.leb_le in Hx. rewrite Hx. left. reflexivity.
Qed.

Lemma tick_calls_erase (inp : Inputs) (s : State) (c : Call) :
  In c (snd (eraseSection (objectX inp) (objectY inp) (prepare inp s))) ->
  In c (snd (drawBlackHole inp s)).
Proof. intro H. unfold drawBlackHole. cbn [snd]. apply in_or_app. left. exact H. Qed.

(** ** Every particle is active once the module is initialised *)

Lemma updateParticle_active (inp : Inputs) (bhr dir dor deltaTime : R) (i : nat)
    (p : AccretionParticle) :
  AP.active p = true ->
  updateParticle inp bhr dir dor deltaTime i p
  = advanceParticle bhr dir dor (objectX inp) (objectY inp) deltaTime
                    (setPrev (-1) (AP.prevY p) p).
Proof. intro H. unfold updateParticle. cbn [AP.active setPrev]. rewrite H. reflexivity. Qed.


Lemma advanceParticle_active (bhr dir dor : R) (cx cy : Z) (deltaTime : R)
    (p : AccretionParticle) :
  AP.active (advanceParticle bhr dir dor cx cy deltaTime p) = AP.active p.
Proof.
  unfold advanceParticle. cbv zeta.
  match goal with |- context [if ?c then _ else _] => destruct c end;
    [match goal with |- context [if ?c then _ else _] => destruct c end |];
    reflexivity.
Qed.

Lemma updateParticle_keeps_active (inp : Inputs) (bhr dir dor deltaTime : R) (i : nat)
    (p : AccretionParticle) :
  AP.active p = true -> AP.active (updateParticle inp bhr dir dor deltaTime i p) = true.
Proof.
  intro H. unfold updateParticle. cbn [AP.active setPrev]. rewrite H. cbn [negb].
  rewrite advanceParticle_active. exact H.
Qed.

Lemma prepare_allActive (inp : Inputs) (s : State) :
  (blackHoleInitialized s = true -> allActive s) -> allActive (prepare inp s).
Proof.
  intro H. unfold allActive. rewrite prepare_particles.
  destruct (blackHoleInitialized s); [apply H; reflexivity |].
  apply Forall_imap with (P := fun _ => True).
  - intros i p _. apply initParticle_active.
  - apply Forall_forall. intros; exact I.
Qed.

Lemma tick_allActive (inp : Inputs) (s : State) :
  (blackHoleInitialized s = true -> allActive s) -> allActive (fst (drawBlackHole inp s)).
Proof.
  intro H. unfold allActive. rewrite tick_particles.
  apply Forall_map.
  apply Forall_imap with (P := fun p => AP.active p = true).
  - intros i p Hp.
    destruct (drawFrontParticle_prev (14 * objectScale inp) (objectX inp) (objectY inp)
                (updateParticle inp (14 * objectScale inp) (14 * objectScale inp * (12 / 10))
                                (14 * objectScale inp * 2) (tickDelta inp s) i p))
      as (_ & _ & ->).
    apply updateParticle_keeps_active. exact Hp.
  - apply Forall_map. pose proof (prepare_allActive inp s H) as Hall.
    revert Hall. apply Forall_impl. intros p Hp. exact Hp.
Qed.

Lemma reachable_allActive (s : State) :
  reachable s -> blackHoleInitialized s = true -> allActive s.
Proof.
  intro Hs. induction Hs as [| inp s Hs IH Hinp | s Hs IH].
  - discriminate.
  - intros _. apply tick_allActive. exact IH.
  - unfold eraseBlackHole. destruct (blackHoleInitialized s) eqn:E; cbn.
    + discriminate.
    + rewrite E. discriminate.
Qed.

Lemma afterAdvance_particles (inp : Inputs) (s : State) :
  accretionDisk (afterAdvance inp s)
  = imap (updateParticle inp (14 * objectScale inp) (14 * objectScale inp * (12 / 10))
                         (14 * objectScale inp * 2) (tickDelta inp s))
         (map clearParticleTrail (accretionDisk (prepare inp s))).
Proof.
  unfold afterAdvance.
  cbn [advanceSection eraseSection fst blackHoleRadius diskInnerRadius diskOuterRadius
       accretionDisk].
  destruct (prepare_radii inp s) as (-> & -> & ->). reflexivity.
Qed.






(** ** Bounds tests of the drawing passes *)

Lemma Forall_flat_map {A B : Type} (P : B -> Prop) (f : A -> list B) (l : list A) :
  (forall a, Forall P (f a)) -> Forall P (flat_map f l).
Proof.
  intro Hf. induction l as [| a l IH]; simpl; [constructor |].
  apply Forall_app. split; [apply Hf | exact IH].
Qed.

Lemma notOffScreen (x y : Z) :
  (x <? 0)%Z || (y <? 0)%Z || (SCREEN_WIDTH <=? x)%Z || (SCREEN_HEIGHT <=? y)%Z = false ->
  onScreen x y = true.
Proof.
  intro H. repeat (apply orb_false_iff in H; destruct H as [H ?]).
  apply onScreen_true; split;
    try (apply Z.ltb_ge; assumption); (apply Z.leb_gt; assumption).
Qed.

Lemma flashCalls_on_screen (bhr : R) (cx cy : Z) :
  Forall pixelOnScreen (flashCalls bhr cx cy).
Proof.
  unfold flashCalls. apply Forall_flat_map. intro r. apply Forall_flat_map. intro j.
  unfold flashPoint. cbv zeta. destruct (onScreen _ _) eqn:E; repeat constructor. exact E.
Qed.

Lemma updateStar_on_screen (inp : Inputs) (bhr deltaTime : R) (i : nat) (st : FallingStar) :
  Forall pixelOnScreen (snd (updateStar inp bhr deltaTime i st)).
Proof.
  destruct (FS.active st) eqn:Hact.
  - destruct (updateStar_active inp bhr deltaTime i st Hact)
      as [_ [[_ ->] | [(_ & _ & _ & ->) | (_ & _ & _ & ->)]]];
      try constructor. apply flashCalls_on_screen.
  - unfold updateStar. rewrite Hact. cbn [negb]. cbv zeta.
    destruct (FS.hasTrail st); [destruct (_ <? _)%Z |]; constructor.
Qed.

Lemma trailDrawCalls_on_screen (bhr : R) (cx cy : Z) (p : AccretionParticle) :
  Forall pixelOnScreen (trailDrawCalls bhr cx cy p).
Proof.
  unfold trailDrawCalls. apply Forall_flat_map. intros [[tx ty] c].
  destruct ((tx <? 0)%Z || (ty <? 0)%Z || (SCREEN_WIDTH <=? tx)%Z
            || (SCREEN_HEIGHT <=? ty)%Z) eqn:E; [constructor |].
  destruct (sq (tx - cx) + sq (ty - cy) <=? sq (roundZ bhr))%Z; repeat constructor.
  apply notOffScreen. exact E.
Qed.

Lemma drawBackParticle_on_screen (bhr : R) (cx cy : Z) (p : AccretionParticle) :
  Forall pixelOnScreen (drawBackParticle bhr cx cy p).
Proof.
  unfold drawBackParticle. cbv zeta.
  destruct (_ || _); [constructor |].
  destruct (Rltb _ _); [constructor |].
  destruct (onScreen _ _) eqn:E; [| constructor].
  destruct (_ <=? _)%Z; [constructor |].
  constructor; [exact E | apply trailDrawCalls_on_screen].
Qed.

Lemma drawInnerCall_on_screen (bhr : R) (cx cy now : Z) (i : nat) :
  Forall pixelOnScreen (drawInnerCall bhr cx cy now i).
Proof.
  unfold drawInnerCall. destruct (innerPoint _ _ _ _ _) as [ix iy].
  destruct (onScreen _ _) eqn:E; repeat constructor. exact E.
Qed.

Lemma highlightArc_on_screen (fuel : nat) (cx cy r_bh : Z) :
  forall angle, Forall pixelOnScreen (highlightArc fuel cx cy r_bh angle).
Proof.
  induction fuel as [| fuel IH]; intro angle; simpl; [constructor |].
  destruct (Rlt_dec _ _); [| constructor].
  apply Forall_app. split; [| apply IH].
  destruct (onScreen _ _) eqn:E; repeat constructor. exact E.
Qed.

Lemma drawPhotonRing_on_screen (bhr : R) (cx cy : Z) :
  Forall pixelOnScreen (drawPhotonRing bhr cx cy).
Proof.
  unfold drawPhotonRing. cbv zeta. destruct (Rleb _ _); [| constructor].
  constructor; [exact I |].
  apply Forall_app. split; [apply highlightArc_on_screen |].
  apply Forall_app. split; destruct (_ <? _)%Z; repeat constructor.
Qed.

Lemma stretchLoop_on_screen (bhr : R) (cx cy x y : Z) (a : R) (b : Z) (js : list nat) :
  forall tr, Forall pixelOnScreen (snd (stretchLoop bhr cx cy x y a b js tr)).
Proof.
  induction js as [| j js IH]; intro tr; simpl; [constructor |].
  destruct (snd tr <? 10)%Z; [| constructor].
  match goal with
  | |- context [if ?c && Rltb ?r ?d then _ else _] =>
      destruct c eqn:E1; cbn [andb]; [destruct (Rltb r d) |]
  end.
  all: match goal with
       | |- context [if ?c && (snd ?t <? 10)%Z then _ else _] =>
           destruct c eqn:E2; cbn [andb]; [destruct (snd t <? 10)%Z |]
       end.
  all: match goal with
       | |- context [stretchLoop ?a1 ?a2 ?a3 ?a4 ?a5 ?a6 ?a7 ?l ?t] =>
           specialize (IH t); destruct (stretchLoop a1 a2 a3 a4 a5 a6 a7 l t) as [t3 c3]
       end.
  all: cbn [snd app] in *; repeat first [assumption | constructor].
Qed.

Lemma drawStar_on_screen (bhr : R) (cx cy : Z) (st : FallingStar) (tr : Tracker) :
  Forall pixelOnScreen (snd (drawStar bhr cx cy st tr)).
Proof.
  unfold drawStar. cbv zeta.
  destruct (negb _); [constructor |].
  destruct (onScreen _ _) eqn:E; [| constructor].
  destruct (Rltb _ _).
  - match goal with
    | |- context [stretchLoop ?b1 ?b2 ?b3 ?b4 ?b5 ?b6 ?b7 ?b8 ?b9] =>
        pose proof (stretchLoop_on_screen b1 b2 b3 b4 b5 b6 b7 b8 b9) as H;
        destruct (stretchLoop b1 b2 b3 b4 b5 b6 b7 b8 b9) as [t c]
    end.
    cbn [snd] in *. constructor; assumption.
  - cbn [snd]. repeat constructor. exact E.
Qed.

Lemma drawFrontParticle_on_screen (bhr : R) (cx cy : Z) (p : AccretionParticle) :
  Forall pixelOnScreen (snd (drawFrontParticle bhr cx cy p)).
Proof.
  unfold drawFrontParticle. cbv zeta.
  pose proof (trailDrawCalls_on_screen bhr cx cy p) as Htrail.
  repeat match goal with
         | |- Forall _ (snd (if ?c then _ else _)) => destruct c eqn:?
         end;
    cbn [snd]; repeat first [assumption | constructor | apply Forall_app; split].
Qed.

(** Every pixel drawn by the update section (the flash) and by the drawing
    section is on the screen. *)
Lemma draws_on_screen (inp : Inputs) (deltaTime : R) (s t : State) :
  Forall pixelOnScreen (snd (updateSection inp deltaTime s) ++ snd (drawSection inp t)).
Proof.
  apply Forall_app. split.
  - unfold updateSection, advanceCalls. cbn [snd].
    apply Forall_forall. intros c Hc. apply in_flat_map in Hc.
    destruct Hc as (r & Hr & Hc).
    apply In_nth_error in Hr. destruct Hr as [i Hi].
    rewrite nth_error_imap in Hi.
    destruct (nth_error (fallingStars s) i) as [st |]; [| discriminate].
    injection Hi as <-.
    pose proof (updateStar_on_screen inp (blackHoleRadius s) deltaTime i st) as H.
    rewrite Forall_forall in H. apply H. exact Hc.
  - unfold drawSection. cbv zeta. cbn [snd].
    apply Forall_app; split; [| apply Forall_app; split; [| apply Forall_app; split;
      [| apply Forall_app; split; [| apply Forall_app; split]]]].
    + apply Forall_flat_map. intro p. apply drawBackParticle_on_screen.
    + unfold drawHorizon. destruct (Rleb _ _); repeat constructor.
    + apply Forall_flat_map. intro i. apply drawInnerCall_on_screen.
    + apply drawPhotonRing_on_screen.
    + apply Forall_forall. intros c Hc. apply in_flat_map in Hc.
      destruct Hc as (r & Hr & Hc).
      apply In_nth_error in Hr. destruct Hr as [i Hi].
      rewrite nth_error_imap in Hi.
      destruct (nth_error (fallingStars t) i) as [st |]; [| discriminate].
      injection Hi as <-.
      pose proof (drawStar_on_screen (blackHoleRadius t) (objectX inp) (objectY inp) st
                    (trackerOf t i)) as H.
      rewrite Forall_forall in H. apply H. exact Hc.
    + rewrite flat_map_concat_map, map_map, <- flat_map_concat_map.
      apply Forall_flat_map. intro p. apply drawFrontParticle_on_screen.
Qed.

(** ** The highlight loop of the photon ring ends within 40 iterations *)

Lemma PI_below_32 : PI <= 32 / 10.
Proof.
  pose proof (PI_2_3_7_ineq 1) as [_ H].
  unfold sum_f_R0, tg_alt, PI_2_3_7_tg, Ratan_seq in H. simpl in H.
  lra.
Qed.

Lemma highlightArc_enough_fuel (cx cy r_bh : Z) (extra : nat) :
  forall (n : nat) (angle : R),
    PI * (125 / 100) <= angle + INR n * (4 / 100) ->
    highlightArc (n + extra) cx cy r_bh angle = highlightArc n cx cy r_bh angle.
Proof.
  induction n as [| n IH]; intros angle Hend.
  - simpl in Hend. destruct extra as [| extra]; [reflexivity |].
    simpl. destruct (Rlt_dec angle (PI * (125 / 100))); [lra | reflexivity].
  - simpl. destruct (Rlt_dec angle (PI * (125 / 100))); [| reflexivity].
    rewrite IH; [reflexivity |].
    rewrite S_INR in Hend. lra.
Qed.

Lemma highlightArc_40 (cx cy r_bh : Z) (extra : nat) :
  highlightArc (40 + extra) cx cy r_bh (PI * (75 / 100))
  = highlightArc 40 cx cy r_bh (PI * (75 / 100)).
Proof.
  apply highlightArc_enough_fuel.
  pose proof PI_below_32.
  replace (INR 40) with 40 by (simpl; lra). lra.
Qed.

(** ** The first-run loop and the initialiser *)

(** Slot [i] after the loop [for (i = 0; i < MAX_ACCRETION_PARTICLES; i++)
    initializeAccretionParticle(i, centerX, centerY)] is the slot written by
    the call for [i]. *)
Lemma firstRun_slot (inp : Inputs) (s : State) (i : nat) :
  nth_error (accretionDisk (firstRun inp s)) i
  = nth_error (accretionDisk (initializeAccretionParticle inp i (objectX inp) (objectY inp) s)) i.
Proof.
  cbn [accretionDisk firstRun initializeAccretionParticle].
  rewrite nth_error_imap, nth_error_apply_at. reflexivity.
Qed.

(** * Further properties of blackhole.h *)

(** ** Colour channels *)

Lemma land_31 (c : Z) : Z.land c 31 = (c mod 32)%Z.
Proof. change 31%Z with (Z.ones 5). rewrite Z.land_ones by lia. reflexivity. Qed.

Lemma land_63 (c : Z) : Z.land c 63 = (c mod 64)%Z.
Proof. change 63%Z with (Z.ones 6). rewrite Z.land_ones by lia. reflexivity. Qed.

(** X1: whatever the colour word, [red] and [blue] return a multiple of 8
    between 0 and 248 and [green] a multiple of 4 between 0 and 252. *)
Theorem X1_channel_ranges :
  forall c : Z,
    ((0 <= red c <= 248 /\ red c mod 8 = 0)
     /\ (0 <= green c <= 252 /\ green c mod 4 = 0)
     /\ (0 <= blue c <= 248 /\ blue c mod 8 = 0))%Z.
Proof.
  intro c. unfold red, green, blue.
  rewrite !land_31, land_63, !Z.shiftl_mul_pow2 by lia.
  change (2 ^ 3)%Z with 8%Z. change (2 ^ 2)%Z with 4%Z.
  pose proof (Z.mod_pos_bound (Z.shiftr c 11) 32).
  pose proof (Z.mod_pos_bound (Z.shiftr c 5) 64).
  pose proof (Z.mod_pos_bound c 32).
  rewrite !Z.mod_mul by lia. lia.
Qed.

(** ** The time step *)

(** X2: the time step of a tick lies in (0, 0.1] whatever the two clock
    readings, also when the clock wrapped; it is 0.016 when the clock did not
    advance, and on the first tick after start-up or teardown. *)
Theorem X2_deltaTime_clamped :
  forall (inp : Inputs) (s : State),
    0 < tickDelta inp s <= 1 / 10
    /\ (blackHoleInitialized s = false -> tickDelta inp s = 16 / 1000)
    /\ (millisEntry inp = blackHoleLastUpdateTime s -> tickDelta inp s = 16 / 1000).
Proof.
  intros inp s.
  assert (Hsame : forall t, deltaTimeOf t t = 16 / 1000).
  { intro t. unfold deltaTimeOf, usub. rewrite Z.sub_diag, Z.mod_0_l by lia.
    rdec; lra. }
  split; [apply deltaTimeOf_range |]. split.
  - intro Hoff. unfold tickDelta. cbn. rewrite Hoff. cbn. apply Hsame.
  - intro Heq. unfold tickDelta. cbn.
    destruct (blackHoleInitialized s); cbn; [rewrite Heq |]; apply Hsame.
Qed.

(** ** What the initialiser leaves in a slot *)


(** ** Life cycle of the falling stars *)

Lemma updateStar_exclusive (inp : Inputs) (bhr deltaTime : R) (i : nat) (st : FallingStar) :
  FS.active st && FS.hasTrail st = false ->
  FS.active (fst (updateStar inp bhr deltaTime i st))
  && FS.hasTrail (fst (updateStar inp bhr deltaTime i st)) = false.
Proof.
  intro H. unfold updateStar. cbv zeta.
  destruct (FS.active st) eqn:Hact; cbn [negb].
  - cbn [andb] in H.
    destruct (if Rltb (1 / 10) _ then _ else _) as [vx vy].
    destruct (Rleb _ bhr || _ || _ || _ || _);
      [destruct (Rleb _ (bhr * (15 / 10))) |]; cbn; try reflexivity. exact H.
  - destruct (FS.hasTrail st); [destruct (_ <? _)%Z |]; cbn; rewrite ?Hact; reflexivity.
Qed.

Lemma advanced_stars_exclusive (inp : Inputs) (s : State) :
  Forall (fun st => FS.active st && FS.hasTrail st = false) (fallingStars s) ->
  Forall (fun st => FS.active st && FS.hasTrail st = false) (fallingStars (advanced inp s)).
Proof.
  intro H. unfold advanced, updateSection. cbn [fst].
  set (e := fst (eraseSection _ _ _)).
  assert (He : Forall (fun st => FS.active st && FS.hasTrail st = false)
                      (fallingStars (advanceSection inp (tickDelta inp s) e))).
  { cbn. apply Forall_map.
    apply Forall_imap with (P := fun st => FS.active st && FS.hasTrail st = false).
    - intros i st Hst. apply updateStar_exclusive. exact Hst.
    - subst e. cbn. destruct (blackHoleInitialized s); cbn; [exact H |].
      apply Forall_map. apply Forall_forall. intros st _. reflexivity. }
  unfold spawnSection. destruct (rndSpawn inp <? 4)%Z; [| exact He].
  destruct (firstFree 0 _); [| exact He].
  cbn. apply Forall_apply_at; [| exact He].
  intro st. unfold spawnStar. cbv zeta.
  destruct (if (rndEdge inp =? 0)%Z then _ else _) as [x y]. reflexivity.
Qed.

(** X4: in every state the module can reach, no falling star is both active
    and trailing: each slot is free, active, or fading. *)
Theorem X4_star_lifecycle_exclusive :
  forall s : State,
    reachable s ->
    Forall (fun st => FS.active st && FS.hasTrail st = false) (fallingStars s).
Proof.
  intros s Hs. induction Hs as [| inp s Hs IH Hinp | s Hs IH].
  - unfold initialState. cbn [fallingStars]. apply Forall_forall.
    intros st Hst. apply repeat_spec in Hst. subst st. reflexivity.
  - rewrite tick_stars. apply advanced_stars_exclusive. exact IH.
  - rewrite eraseBlackHole_stars. exact IH.
Qed.

(** ** The spawn *)

Lemma firstFree_spec (l : list FallingStar) :
  forall k0 k,
    firstFree k0 l = Some k ->
    (k0 <= k)%nat
    /\ (exists st, nth_error l (k - k0) = Some st
                   /\ FS.active st = false /\ FS.hasTrail st = false)
    /\ (forall j st, (j < k - k0)%nat -> nth_error l j = Some st ->
                     FS.active st || FS.hasTrail st = true).
Proof.
  induction l as [| a l IH]; intros k0 k H; simpl in H; [discriminate |].
  destruct (negb (FS.active a) && negb (FS.hasTrail a)) eqn:E.
  - injection H as <-. rewrite Nat.sub_diag. split; [lia |]. split.
    + exists a. apply andb_true_iff in E. destruct E as [E1 E2].
      apply negb_true_iff in E1, E2. auto.
    + intros j st Hj. lia.
  - destruct (IH _ _ H) as (Hle & (st & Hst & Hfree) & Hbusy).
    split; [lia |].
    replace (k - k0)%nat with (S (k - S k0)) by lia. split.
    + exists st. auto.
    + intros [| j] st' Hj Hst'; simpl in Hst'.
      * injection Hst' as <-.
        destruct (FS.active a), (FS.hasTrail a); try reflexivity. discriminate.
      * apply (Hbusy j); [lia | exact Hst'].
Qed.

Lemma firstFree_none (l : list FallingStar) :
  forall k0, firstFree k0 l = None ->
             Forall (fun st => FS.active st || FS.hasTrail st = true) l.
Proof.
  induction l as [| a l IH]; intros k0 H; simpl in H; [constructor |].
  destruct (FS.active a) eqn:E1, (FS.hasTrail a) eqn:E2; cbn in H; try discriminate;
    (constructor; [rewrite E1, E2; reflexivity | eapply IH; exact H]).
Qed.

(** X5: the spawn changes at most one star, and only a free one: either the
    pool is left as it is (the draw [random(100)] is 4 or more, or every slot
    is active or fading), or the first free slot [k] is activated, its
    [trailLen] is set to 0, and every other slot of the pool and of [trailLen]
    is left as it is. *)
Theorem X5_spawn_takes_first_free_slot :
  forall (inp : Inputs) (s : State),
    (spawnSection inp s = s
     /\ ((4 <= rndSpawn inp)%Z
         \/ Forall (fun st => FS.active st || FS.hasTrail st = true) (fallingStars s)))
    \/ (exists k st,
          (rndSpawn inp < 4)%Z
          /\ nth_error (fallingStars s) k = Some st
          /\ FS.active st = false /\ FS.hasTrail st = false
          /\ (forall j st', (j < k)%nat -> nth_error (fallingStars s) j = Some st' ->
                            FS.active st' || FS.hasTrail st' = true)
          /\ nth_error (fallingStars (spawnSection inp s)) k = Some (spawnStar inp st)
          /\ FS.active (spawnStar inp st) = true
          /\ (forall j, j <> k ->
                        nth_error (fallingStars (spawnSection inp s)) j
                        = nth_error (fallingStars s) j
                        /\ nth_error (trailLen (spawnSection inp s)) j
                           = nth_error (trailLen s) j)
          /\ (forall n, nth_error (trailLen s) k = Some n ->
                        nth_error (trailLen (spawnSection inp s)) k = Some 0%Z)).
Proof.
  intros inp s. unfold spawnSection.
  destruct (rndSpawn inp <? 4)%Z eqn:Hdraw.
  2:{ left. split; [reflexivity |]. left. apply Z.ltb_ge. exact Hdraw. }
  apply Z.ltb_lt in Hdraw.
  destruct (firstFree 0 (fallingStars s)) as [k |] eqn:Hk.
  2:{ left. split; [reflexivity |]. right. eapply firstFree_none. exact Hk. }
  right. destruct (firstFree_spec _ _ _ Hk) as (_ & (st & Hst & Ha & Ht) & Hbusy).
  rewrite Nat.sub_0_r in Hst, Hbusy.
  exists k, st. cbn [fallingStars trailLen].
  split; [exact Hdraw |]. split; [exact Hst |]. split; [exact Ha |]. split; [exact Ht |].
  split; [exact Hbusy |]. split.
  { rewrite nth_error_apply_at, Hst. reflexivity. }
  split.
  { unfold spawnStar. cbv zeta.
    destruct (if (rndEdge inp =? 0)%Z then _ else _) as [x y]. reflexivity. }
  split.
  - intros j Hj. split.
    + unfold apply_at. rewrite nth_error_imap.
      destruct (Nat.eqb_spec j k); [contradiction |].
      destruct (nth_error (fallingStars s) j); reflexivity.
    + clear - Hj. revert j k Hj. induction (trailLen s) as [| a l IH]; intros j k Hj.
      * destruct k; reflexivity.
      * destruct k as [| k], j as [| j]; simpl; try reflexivity; try contradiction.
        apply IH. intro E. apply Hj. rewrite E. reflexivity.
  - clear. revert k. induction (trailLen s) as [| a l IH]; intros k n Hn.
    + destruct k; discriminate.
    + destruct k as [| k]; simpl in *; [reflexivity | eapply IH; exact Hn].
Qed.

(** ** How far a falling star moves in a tick *)

Lemma updateStar_step (inp : Inputs) (bhr deltaTime : R) (i : nat) (st : FallingStar) :
  let st' := fst (updateStar inp bhr deltaTime i st) in
  (FS.active st = true ->
   FS.x st' = FS.x st + FS.vx st' * deltaTime /\ FS.y st' = FS.y st + FS.vy st' * deltaTime)
  /\ (FS.active st = false -> FS.x st' = FS.x st /\ FS.y st' = FS.y st).
Proof.
  cbv zeta. unfold updateStar. cbv zeta.
  destruct (FS.active st) eqn:Hact; cbn [negb]; split; intro H; try discriminate.
  - destruct (if Rltb (1 / 10) _ then _ else _) as [vx vy].
    destruct (Rleb _ bhr || _ || _ || _ || _);
      [destruct (Rleb _ (bhr * (15 / 10))) |]; cbn; split; reflexivity.
  - destruct (FS.hasTrail st); [destruct (_ <? _)%Z |]; cbn; split; reflexivity.
Qed.

Lemma star_step_bounded :
  forall (inp : Inputs) (bhr deltaTime : R) (i : nat) (st : FallingStar),
    FS.vx st * FS.vx st + FS.vy st * FS.vy st <= 400 ->
    0 <= deltaTime <= 1 / 10 ->
    let st' := fst (updateStar inp bhr deltaTime i st) in
    (FS.x st' - FS.x st) * (FS.x st' - FS.x st)
    + (FS.y st' - FS.y st) * (FS.y st' - FS.y st)
    <= 400 * (deltaTime * deltaTime) <= 4
    /\ (FS.active st = false -> FS.x st' = FS.x st /\ FS.y st' = FS.y st).
Proof.
  intros inp bhr deltaTime i st Hv Hdt st'.
  pose proof (updateStar_speed inp bhr deltaTime i st Hv) as Hv'.
  fold st' in Hv'. unfold speedSq in Hv'.
  destruct (updateStar_step inp bhr deltaTime i st) as [Hon Hoff]. fold st' in Hon, Hoff.
  split; [| exact Hoff]. split; [| nra].
  destruct (FS.active st).
  - destruct (Hon eq_refl) as [-> ->].
    replace (FS.x st + FS.vx st' * deltaTime - FS.x st) with (FS.vx st' * deltaTime) by ring.
    replace (FS.y st + FS.vy st' * deltaTime - FS.y st) with (FS.vy st' * deltaTime) by ring.
    nra.
  - destruct (Hoff eq_refl) as [-> ->]. nra.
Qed.



(** ** Invariants of the accretion disk *)

(** X7: once the module has been initialised, every slot of the accretion
    disk is active: nothing in the module deactivates a particle, so the
    fading and reinitialising branches of the particle loop are never
    taken. *)
Theorem X7_particles_stay_active :
  forall s : State,
    reachable s ->
    blackHoleInitialized s = true ->
    Forall (fun p => AP.active p = true) (accretionDisk s).
Proof. intros s Hs Hi. exact (reachable_allActive s Hs Hi). Qed.

Lemma drawFrontParticle_angle (bhr : R) (cx cy : Z) (p : AccretionParticle) :
  AP.angle (fst (drawFrontParticle bhr cx cy p)) = AP.angle p.
Proof.
  unfold drawFrontParticle. cbv zeta.
  repeat match goal with
         | |- context [if ?c then _ else _] => destruct c
         end; reflexivity.
Qed.

(** X8: at the end of every tick run from a state the module can reach, every
    accretion particle has its angle in [0, 2*PI). *)
Theorem X8_angles_wrapped_after_tick :
  forall (s : State) (inp : Inputs),
    reachable s ->
    Forall (fun p => 0 <= AP.angle p < 2 * PI) (accretionDisk (fst (drawBlackHole inp s))).
Proof.
  intros s inp Hs. rewrite tick_particles.
  apply Forall_map.
  apply Forall_imap with (P := fun p => AP.active p = true).
  - intros i p Hp. rewrite drawFrontParticle_angle.
    rewrite updateParticle_active by exact Hp.
    rewrite advanceParticle_angle. apply wrapAngle_range.
  - apply Forall_map.
    pose proof (prepare_allActive inp s (reachable_allActive s Hs)) as Hall.
    revert Hall. apply Forall_impl. intros p Hp. exact Hp.
Qed.

Lemma advanceParticle_trail (bhr dir dor : R) (cx cy : Z) (deltaTime : R)
    (p : AccretionParticle) :
  (AP.prevX p < 0)%Z ->
  AP.trailX (advanceParticle bhr dir dor cx cy deltaTime p) = AP.trailX p
  /\ AP.trailY (advanceParticle bhr dir dor cx cy deltaTime p) = AP.trailY p
  /\ AP.trailLength (advanceParticle bhr dir dor cx cy deltaTime p) = AP.trailLength p.
Proof.
  intro Hx. unfold advanceParticle. cbv zeta. cbn [AP.active AP.prevX].
  apply Z.leb_gt in Hx. rewrite Hx, andb_false_r. cbn. repeat split.
Qed.

Lemma updateParticle_trail_empty (inp : Inputs) (bhr dir dor deltaTime : R) (i : nat)
    (p : AccretionParticle) :
  emptyTrail p -> emptyTrail (updateParticle inp bhr dir dor deltaTime i p).
Proof.
  intros (Hl & Hx & Hy). unfold updateParticle, emptyTrail.
  cbn [AP.active AP.hasTrail AP.prevX AP.prevY AP.trailLifetime AP.trailStartTime setPrev].
  assert (Hinit : forall rA rF q, emptyTrail (initParticle bhr rA rF q)).
  { intros rA rF q. unfold emptyTrail, initParticle.
    destruct (bandColor _) as [[r g] b]. cbn. repeat split. }
  destruct (AP.active p); cbn [negb].
  - destruct (advanceParticle_trail bhr dir dor (objectX inp) (objectY inp) deltaTime
                (setPrev (-1) (AP.prevY p) p)) as (-> & -> & ->); [cbn; lia |].
    cbn. auto.
  - destruct (AP.hasTrail p); [destruct (_ <? _)%Z |]; try apply Hinit.
    cbn. auto.
Qed.

Lemma drawFrontParticle_trailLength (bhr : R) (cx cy : Z) (p : AccretionParticle) :
  (AP.trailLength p <= AP.trailLength (fst (drawFrontParticle bhr cx cy p))
   <= Z.max (AP.trailLength p) (Z.min 8 (AP.trailLength p + 1)))%Z.
Proof.
  unfold drawFrontParticle. cbv zeta.
  repeat match goal with
         | |- context [if ?c then _ else _] => destruct c eqn:?
         end; cbn [fst AP.trailLength]; lia.
Qed.

Lemma afterAdvance_trails_empty (inp : Inputs) (s : State) :
  Forall emptyTrail (accretionDisk (afterAdvance inp s)).
Proof.
  rewrite afterAdvance_particles.
  apply Forall_imap with (P := emptyTrail).
  - intros i p Hp. apply updateParticle_trail_empty. exact Hp.
  - apply Forall_map. apply Forall_forall. intros p _.
    unfold emptyTrail. cbn. repeat split.
Qed.

Lemma tick_particles_afterAdvance (inp : Inputs) (s : State) :
  accretionDisk (fst (drawBlackHole inp s))
  = map (fun p => fst (drawFrontParticle (14 * objectScale inp) (objectX inp) (objectY inp) p))
        (accretionDisk (afterAdvance inp s)).
Proof. rewrite tick_particles, afterAdvance_particles. reflexivity. Qed.

(** X9: the motion trail of a particle is never pushed: the active branch of
    the particle loop tests [prevX >= 0] after [prevX] has been set to -1, so
    it leaves the trail arrays and the trail length as they are.  In every
    state the module can reach the trail length is 0 or 1: the only point ever
    recorded is the inner-edge point of the front pass. *)
Theorem X9_motion_trail_never_pushed :
  (forall (inp : Inputs) (bhr dir dor deltaTime : R) (i : nat) (p : AccretionParticle),
     AP.active p = true ->
     let p' := updateParticle inp bhr dir dor deltaTime i p in
     AP.trailX p' = AP.trailX p /\ AP.trailY p' = AP.trailY p
     /\ AP.trailLength p' = AP.trailLength p)
  /\ (forall s : State,
        reachable s ->
        Forall (fun p => (0 <= AP.trailLength p <= 1)%Z) (accretionDisk s)).
Proof.
  split.
  - intros inp bhr dir dor deltaTime i p Hact p'. unfold p'.
    rewrite updateParticle_active by exact Hact.
    destruct (advanceParticle_trail bhr dir dor (objectX inp) (objectY inp) deltaTime
                (setPrev (-1) (AP.prevY p) p)) as (-> & -> & ->); [cbn; lia |].
    cbn. auto.
  - intros s Hs. induction Hs as [| inp s Hs IH Hinp | s Hs IH].
    + unfold initialState. cbn [accretionDisk]. apply Forall_forall.
      intros p Hp. apply repeat_spec in Hp. subst p. cbn. lia.
    + rewrite tick_particles_afterAdvance. apply Forall_map.
      pose proof (afterAdvance_trails_empty inp s) as He.
      revert He. apply Forall_impl. intros p (Hl & _ & _).
      pose proof (drawFrontParticle_trailLength (14 * objectScale inp) (objectX inp)
                    (objectY inp) p) as Hb.
      rewrite Hl in Hb. lia.
    + unfold eraseBlackHole. destruct (blackHoleInitialized s); exact IH.
Qed.

(** ** What is drawn in a tick is erased by the next one: the disk *)

Lemma passes_in_tick (inp : Inputs) (s : State) :
  incl (diskDrawCalls inp s) (snd (drawBlackHole inp s))
  /\ incl (innerDrawCalls inp s) (snd (drawBlackHole inp s))
  /\ incl (starDrawCalls inp s) (snd (drawBlackHole inp s)).
Proof.
  unfold diskDrawCalls, innerDrawCalls, starDrawCalls, drawBlackHole, drawSection, advanced.
  cbv zeta. cbn [snd fst].
  repeat split; intros c Hc; repeat rewrite in_app_iff in *; tauto.
Qed.

Lemma eraseCalls_in_tick (inp : Inputs) (s : State) :
  incl (eraseCalls inp s) (snd (drawBlackHole inp s)).
Proof. intros c Hc. apply tick_calls_erase. exact Hc. Qed.

Lemma trailDrawCalls_empty (bhr : R) (cx cy : Z) (p : AccretionParticle) :
  AP.trailLength p = 0%Z -> trailDrawCalls bhr cx cy p = [].
Proof. intro H. unfold trailDrawCalls. rewrite H. reflexivity. Qed.

Lemma onScreen_nonneg (x y : Z) : onScreen x y = true -> (0 <= x)%Z.
Proof.
  unfold onScreen. intro H.
  repeat (apply andb_true_iff in H; destruct H as [H ?]).
  apply Z.leb_le. exact H.
Qed.

(** The pixels a particle with an empty trail gets in the two passes are
    among those the erasing section paints for the particle the passes
    leave. *)
Lemma particle_draws_erased (bhr : R) (cx cy : Z) (p : AccretionParticle) (x y c : Z) :
  emptyTrail p ->
  In (DrawPixel x y c) (drawBackParticle bhr cx cy p ++ snd (drawFrontParticle bhr cx cy p)) ->
  In (DrawPixel x y BG_COLOR) (eraseParticleCalls (fst (drawFrontParticle bhr cx cy p))).
Proof.
  intros (Hl & Hx & Hy) Hin.
  pose proof (trailDrawCalls_empty bhr cx cy p Hl) as Ht.
  assert (Hhead : onScreen (AP.prevX p) (AP.prevY p) = true ->
                  In (DrawPixel (AP.prevX p) (AP.prevY p) BG_COLOR)
                     (eraseParticleCalls (fst (drawFrontParticle bhr cx cy p)))).
  { intro Hon. apply onScreen_nonneg in Hon. apply Z.leb_le in Hon.
    unfold eraseParticleCalls.
    destruct (drawFrontParticle_prev bhr cx cy p) as (-> & -> & _).
    rewrite Hon. left. reflexivity. }
  apply in_app_iff in Hin. destruct Hin as [Hin | Hin].
  - unfold drawBackParticle in Hin. cbv zeta in Hin. rewrite Ht in Hin.
    destruct (negb (AP.active p) || (AP.prevX p <? 0)%Z); [destruct Hin |].
    destruct (Rltb 0 (sin (AP.angle p))); [destruct Hin |].
    destruct (onScreen (AP.prevX p) (AP.prevY p)) eqn:Hon; [| destruct Hin].
    destruct (_ <=? _)%Z; [destruct Hin |].
    destruct Hin as [E | []]. injection E as <- <- _. apply Hhead. reflexivity.
  - revert Hin Hhead. unfold drawFrontParticle. cbv zeta. rewrite Ht, Hl, Hx, Hy.
    destruct (negb (AP.active p) || (AP.prevX p <? 0)%Z); [intros [] |].
    destruct (Rleb (sin (AP.angle p)) 0); [intros [] |].
    destruct (onScreen (AP.prevX p) (AP.prevY p)) eqn:Hon; [| intros []].
    destruct (_ && _).
    + destruct (onScreen (roundZ _) (roundZ _)) eqn:Hon2; cbn [fst snd app].
      * intros [E | [E | []]] Hhead.
        -- injection E as <- <- _. apply Hhead. reflexivity.
        -- injection E as <- <- _. apply onScreen_nonneg in Hon2.
           unfold eraseParticleCalls. apply in_app_iff. right.
           cbn. change (PosDef.Pos.to_nat 1) with 1%nat. cbn.
           apply Z.leb_le in Hon2. rewrite Hon2. left. reflexivity.
      * intros [E | []] Hhead. injection E as <- <- _. apply Hhead. reflexivity.
    + cbn [fst snd]. intros [E | []] Hhead. injection E as <- <- _. apply Hhead. reflexivity.
Qed.

(** X10: every pixel drawn by the two disk passes of a tick is painted with
    the background colour by the erasing section of the next tick, whatever
    the inputs of the two ticks. *)
Theorem X10_disk_pixels_erased_next_tick :
  forall (s : State) (inp inp2 : Inputs),
    Forall (erasedBy (eraseCalls inp2 (fst (drawBlackHole inp s)))) (diskDrawCalls inp s).
Proof.
  intros s inp inp2. apply Forall_forall. intros c Hc.
  destruct c as [x y c | |]; cbn [erasedBy]; try exact I.
  unfold diskDrawCalls in Hc. cbv zeta in Hc.
  assert (Hdisk : accretionDisk (advanced inp s) = accretionDisk (afterAdvance inp s)).
  { unfold advanced, updateSection. cbn [fst]. apply spawnSection_particles. }
  destruct (advanced_radii inp s) as (Hr & _ & _).
  rewrite Hr, Hdisk in Hc.
  set (bhr := 14 * objectScale inp) in *.
  assert (Hp : exists p, In p (accretionDisk (afterAdvance inp s))
                         /\ In (DrawPixel x y c)
                               (drawBackParticle bhr (objectX inp) (objectY inp) p
                                ++ snd (drawFrontParticle bhr (objectX inp) (objectY inp) p))).
  { apply in_app_iff in Hc. destruct Hc as [Hc | Hc].
    - apply in_flat_map in Hc. destruct Hc as (p & Hp & Hc).
      exists p. split; [exact Hp | apply in_app_iff; left; exact Hc].
    - apply in_flat_map in Hc. destruct Hc as (r & Hr' & Hc).
      apply in_map_iff in Hr'. destruct Hr' as (p & <- & Hp).
      exists p. split; [exact Hp | apply in_app_iff; right; exact Hc]. }
  destruct Hp as (p & Hp & Hdraw).
  pose proof (afterAdvance_trails_empty inp s) as He.
  rewrite Forall_forall in He.
  pose proof (particle_draws_erased bhr (objectX inp) (objectY inp) p x y c (He p Hp) Hdraw)
    as Herase.
  unfold eraseCalls, eraseSection. cbn [snd].
  apply in_or_app. right. apply in_or_app. left.
  apply in_flat_map. exists (fst (drawFrontParticle bhr (objectX inp) (objectY inp) p)).
  split; [| exact Herase].
  rewrite prepare_particles, tick_initialized, tick_particles_afterAdvance.
  apply in_map_iff. exists p. split; [reflexivity | exact Hp].
Qed.

(** ** Arrays keep their sizes *)

Lemma imap_from_length {A B : Type} (f : nat -> A -> B) (l : list A) :
  forall k, length (imap_from k f l) = length l.
Proof. induction l as [| a l IH]; intro k; simpl; [reflexivity | rewrite IH; reflexivity]. Qed.

Lemma imap_length {A B : Type} (f : nat -> A -> B) (l : list A) :
  length (imap f l) = length l.
Proof. apply imap_from_length. Qed.

Lemma set_nth_length {A : Type} (i : nat) (v : A) (l : list A) :
  length (set_nth i v l) = length l.
Proof.
  revert i. induction l as [| a l IH]; intros [| i]; simpl; try reflexivity.
  rewrite IH. reflexivity.
Qed.


Lemma record_wf (x y : Z) (tr : Tracker) :
  wfTracker tr -> (snd tr < 10)%Z -> wfTracker (record x y tr).
Proof.
  destruct tr as [[tx ty] len]. unfold wfTracker, record. cbn [fst snd].
  intros (Hx & Hy & Hl) Hlt. rewrite !set_nth_length. repeat split; try assumption; lia.
Qed.

Lemma firstn_combine_set_nth (x y : Z) :
  forall (n : nat) (tx ty : list Z),
    (n < length tx)%nat -> (n < length ty)%nat ->
    firstn (S n) (combine (set_nth n x tx) (set_nth n y ty))
    = firstn n (combine tx ty) ++ [(x, y)].
Proof.
  induction n as [| n IH]; intros [| a tx] [| b ty] Hx Hy; simpl in *; try lia.
  - reflexivity.
  - rewrite IH by lia. reflexivity.
Qed.

Lemma record_recorded (x y : Z) (tr : Tracker) :
  wfTracker tr -> (snd tr < 10)%Z -> recorded (record x y tr) = recorded tr ++ [(x, y)].
Proof.
  destruct tr as [[tx ty] len]. unfold wfTracker, record, recorded. cbn [fst snd].
  intros (Hx & Hy & Hl) Hlt.
  replace (Z.to_nat (len + 1)) with (S (Z.to_nat len)) by lia.
  apply firstn_combine_set_nth; lia.
Qed.

Lemma pixelsOf_app (a b : list Call) : pixelsOf (a ++ b) = pixelsOf a ++ pixelsOf b.
Proof. unfold pixelsOf. apply flat_map_app. Qed.

(** The stretch loop records every pixel it draws, in order, and keeps the
    tracker within its ten slots. *)
Lemma stretchLoop_records (bhr : R) (cx cy x y : Z) (a : R) (b : Z) (js : list nat) :
  forall tr,
    wfTracker tr ->
    wfTracker (fst (stretchLoop bhr cx cy x y a b js tr))
    /\ recorded (fst (stretchLoop bhr cx cy x y a b js tr))
       = recorded tr ++ pixelsOf (snd (stretchLoop bhr cx cy x y a b js tr)).
Proof.
  induction js as [| j js IH]; intros tr Hwf; simpl.
  - split; [exact Hwf | rewrite app_nil_r; reflexivity].
  - destruct (snd tr <? 10)%Z eqn:Hlt; cbn [fst snd];
      [| split; [exact Hwf | rewrite app_nil_r; reflexivity]].
    apply Z.ltb_lt in Hlt.
    match goal with
    | |- context [if ?c then (record ?ax ?ay tr, ?cl) else (tr, [])] =>
        set (ahead := if c then (record ax ay tr, cl) else (tr, []));
        assert (H1 : wfTracker (fst ahead)
                     /\ recorded (fst ahead) = recorded tr ++ pixelsOf (snd ahead))
          by (subst ahead; destruct c; cbn [fst snd pixelsOf flat_map app];
              [split; [apply record_wf | apply record_recorded]; assumption
              | split; [exact Hwf | rewrite app_nil_r; reflexivity]])
    end.
    destruct ahead as [tr1 c1]. cbn [fst snd] in H1. destruct H1 as [Hwf1 Hrec1].
    match goal with
    | |- context [if ?c && ?d then (record ?bx ?by' tr1, ?cl) else (tr1, [])] =>
        set (behind := if c && d then (record bx by' tr1, cl) else (tr1, []));
        assert (H2 : wfTracker (fst behind)
                     /\ recorded (fst behind) = recorded tr1 ++ pixelsOf (snd behind))
          by (subst behind; destruct c; cbn [andb];
              [destruct d eqn:Hd; cbn [fst snd pixelsOf flat_map app];
               [apply Z.ltb_lt in Hd;
                split; [apply record_wf | apply record_recorded]; assumption
               | split; [exact Hwf1 | rewrite app_nil_r; reflexivity]]
              | cbn [fst snd pixelsOf flat_map];
                split; [exact Hwf1 | rewrite app_nil_r; reflexivity]])
    end.
    destruct behind as [tr2 c2]. cbn [fst snd] in H2. destruct H2 as [Hwf2 Hrec2].
    specialize (IH tr2 Hwf2).
    destruct (stretchLoop bhr cx cy x y a b js tr2) as [tr3 c3].
    cbn [fst snd] in *. destruct IH as [Hwf3 Hrec3].
    split; [exact Hwf3 |].
    rewrite Hrec3, Hrec2, Hrec1, !pixelsOf_app, !app_assoc. reflexivity.
Qed.

(** The star pass records every pixel it draws for a star whose tracker has
    room for the head, in order, and keeps the tracker within its ten
    slots. *)
Lemma drawStar_records (bhr : R) (cx cy : Z) (st : FallingStar) (tr : Tracker) :
  wfTracker tr -> (snd tr < 10)%Z ->
  wfTracker (fst (drawStar bhr cx cy st tr))
  /\ recorded (fst (drawStar bhr cx cy st tr))
     = recorded tr ++ pixelsOf (snd (drawStar bhr cx cy st tr)).
Proof.
  intros Hwf Hlt. unfold drawStar. cbv zeta.
  destruct (negb (FS.active st));
    [cbn [fst snd]; split; [exact Hwf | rewrite app_nil_r; reflexivity] |].
  destruct (onScreen (FS.prevX st) (FS.prevY st));
    [| cbn [fst snd]; split; [exact Hwf | rewrite app_nil_r; reflexivity]].
  pose proof Hlt as Hb. apply Z.ltb_lt in Hb. rewrite Hb.
  pose proof (record_wf (FS.prevX st) (FS.prevY st) tr Hwf Hlt) as Hwf1.
  pose proof (record_recorded (FS.prevX st) (FS.prevY st) tr Hwf Hlt) as Hrec1.
  destruct (Rltb _ _).
  - match goal with
    | |- context [stretchLoop ?b1 ?b2 ?b3 ?b4 ?b5 ?b6 ?b7 ?b8 ?b9] =>
        pose proof (stretchLoop_records b1 b2 b3 b4 b5 b6 b7 b8 b9 Hwf1) as [Hwf2 Hrec2];
        destruct (stretchLoop b1 b2 b3 b4 b5 b6 b7 b8 b9) as [t c]
    end.
    cbn [fst snd] in *. split; [exact Hwf2 |].
    rewrite Hrec2, Hrec1. cbn [pixelsOf flat_map app]. rewrite <- app_assoc. reflexivity.
  - cbn [fst snd pixelsOf flat_map app]. split; assumption.
Qed.

Lemma Forall_set_nth {A : Type} (P : A -> Prop) (i : nat) (v : A) (l : list A) :
  P v -> Forall P l -> Forall P (set_nth i v l).
Proof.
  intros Hv. revert i. induction l as [| a l IH]; intros i Hl; [destruct i; constructor |].
  inversion Hl; subst. destruct i as [| i]; simpl; constructor; auto.
Qed.

Lemma Forall_imap_index {A B : Type} (Q : B -> Prop) (f : nat -> A -> B) (l : list A) :
  (forall i a, nth_error l i = Some a -> Q (f i a)) -> Forall Q (imap f l).
Proof.
  intro H. apply Forall_forall. intros b Hb.
  apply In_nth_error in Hb. destruct Hb as [i Hi].
  rewrite nth_error_imap in Hi.
  destruct (nth_error l i) as [a |] eqn:E; [| discriminate].
  injection Hi as <-. apply H. exact E.
Qed.

Lemma nth_error_Forall {A : Type} (P : A -> Prop) (l : list A) (i : nat) (a : A) :
  Forall P l -> nth_error l i = Some a -> P a.
Proof. intros H E. rewrite Forall_forall in H. apply H. eapply nth_error_In. exact E. Qed.

Lemma nth_Forall {A : Type} (P : A -> Prop) (l : list A) (i : nat) (d : A) :
  Forall P l -> P d -> P (nth i l d).
Proof.
  intros H Hd. destruct (nth_error l i) as [a |] eqn:E.
  - rewrite (nth_error_nth _ _ d E). eapply nth_error_Forall; eassumption.
  - rewrite nth_overflow by (apply nth_error_None; exact E). exact Hd.
Qed.

(** The state after Advance and spawn: sizes are kept and every [trailLen] is 0. *)
Lemma prepare_wellSized (inp : Inputs) (s : State) :
  wellSized s -> wellSized (prepare inp s).
Proof.
  intros (H1 & H2 & H3 & H4 & H5 & H6 & H7 & H8). unfold wellSized, prepare. cbn.
  destruct (blackHoleInitialized s); cbn.
  - repeat split; assumption.
  - rewrite length_map. repeat split; try assumption; try reflexivity;
      repeat constructor.
Qed.

Lemma clearPrefix_length (n : Z) (col : list Z) : length (clearPrefix n col) = length col.
Proof. apply imap_length. Qed.

Lemma advanced_wellSized (inp : Inputs) (s : State) :
  wellSized s ->
  wellSized (advanced inp s) /\ Forall (fun n => n = 0%Z) (trailLen (advanced inp s)).
Proof.
  intro Hs. apply (prepare_wellSized inp) in Hs.
  destruct Hs as (H1 & H2 & H3 & H4 & H5 & H6 & H7 & H8).
  unfold advanced, updateSection. cbn [fst].
  set (a := advanceSection _ _ _).
  assert (Ha : wellSized a /\ Forall (fun n => n = 0%Z) (trailLen a)).
  { subst a. unfold wellSized.
    cbn [advanceSection eraseSection fst prevInnerParticleX prevInnerParticleY fallingStars
         prevTrailX prevTrailY trailLen].
    rewrite !length_map, !imap_length. repeat split; try assumption.
    - apply Forall_imap with (P := fun col => length col = 10%nat); [| assumption].
      intros i col Hc. rewrite clearPrefix_length. exact Hc.
    - apply Forall_imap with (P := fun col => length col = 10%nat); [| assumption].
      intros i col Hc. rewrite clearPrefix_length. exact Hc.
    - apply Forall_map. apply Forall_forall. intros; reflexivity. }
  destruct Ha as [(A1 & A2 & A3 & A4 & A5 & A6 & A7 & A8) Hz].
  unfold spawnSection. destruct (rndSpawn inp <? 4)%Z; [| split; [repeat split |]; assumption].
  destruct (firstFree 0 (fallingStars a)); [| split; [repeat split |]; assumption].
  unfold wellSized.
  cbn [prevInnerParticleX prevInnerParticleY fallingStars prevTrailX prevTrailY trailLen].
  unfold apply_at. rewrite imap_length, set_nth_length.
  split; [repeat split; assumption |].
  apply Forall_set_nth; [reflexivity | exact Hz].
Qed.

Lemma trackerOf_wf (u : State) (i : nat) :
  wellSized u -> Forall (fun n => n = 0%Z) (trailLen u) -> (i < MAX_FALLING_STARS)%nat ->
  wfTracker (trackerOf u i) /\ snd (trackerOf u i) = 0%Z.
Proof.
  intros (_ & _ & _ & H4 & H5 & H6 & H7 & H8) Hz Hi.
  unfold trackerOf, wfTracker. cbn [fst snd].
  assert (Hn : nth i (trailLen u) 0%Z = 0%Z).
  { apply (nth_Forall (fun n => n = 0%Z)); [exact Hz | reflexivity]. }
  rewrite Hn.
  destruct (nth_error (prevTrailX u) i) as [cxl |] eqn:EX;
    [| apply nth_error_None in EX; lia].
  destruct (nth_error (prevTrailY u) i) as [cyl |] eqn:EY;
    [| apply nth_error_None in EY; lia].
  rewrite (nth_error_nth _ _ _ EX), (nth_error_nth _ _ _ EY).
  repeat split; try lia.
  - exact (nth_error_Forall _ _ _ _ H7 EX).
  - exact (nth_error_Forall _ _ _ _ H8 EY).
Qed.

(** The tracker of a star after the star pass, and what it holds. *)
Lemma starTracker_spec (inp : Inputs) (u : State) (i : nat) (st : FallingStar) :
  wellSized u -> Forall (fun n => n = 0%Z) (trailLen u) ->
  nth_error (fallingStars u) i = Some st ->
  starTracker inp u i
  = fst (drawStar (blackHoleRadius u) (objectX inp) (objectY inp) st (trackerOf u i))
  /\ wfTracker (starTracker inp u i)
  /\ recorded (starTracker inp u i)
     = pixelsOf (snd (drawStar (blackHoleRadius u) (objectX inp) (objectY inp) st
                               (trackerOf u i))).
Proof.
  intros Hu Hz Hst.
  assert (Hi : (i < MAX_FALLING_STARS)%nat).
  { destruct Hu as (_ & _ & H3 & _). rewrite <- H3. apply nth_error_Some. congruence. }
  destruct (trackerOf_wf u i Hu Hz Hi) as [Hwf Hlen].
  assert (E : starTracker inp u i
              = fst (drawStar (blackHoleRadius u) (objectX inp) (objectY inp) st
                              (trackerOf u i))).
  { unfold starTracker. apply nth_error_nth.
    rewrite nth_error_map, nth_error_imap, Hst. reflexivity. }
  rewrite E.
  destruct (drawStar_records (blackHoleRadius u) (objectX inp) (objectY inp) st
              (trackerOf u i) Hwf) as [Hwf' Hrec]; [lia |].
  split; [reflexivity |]. split; [exact Hwf' |].
  rewrite Hrec. unfold recorded at 1. rewrite Hlen. reflexivity.
Qed.

Lemma starTracker_wf (inp : Inputs) (u : State) (i : nat) :
  wellSized u -> Forall (fun n => n = 0%Z) (trailLen u) -> (i < MAX_FALLING_STARS)%nat ->
  wfTracker (starTracker inp u i).
Proof.
  intros Hu Hz Hi.
  destruct (nth_error (fallingStars u) i) as [st |] eqn:E.
  - apply (starTracker_spec inp u i st Hu Hz E).
  - destruct Hu as (_ & _ & H3 & _). apply nth_error_None in E. lia.
Qed.

(** The trackers at the end of a tick, from the state [u] after Advance and
    spawn. *)
Lemma tick_trackers (inp : Inputs) (s : State) :
  let u := advanced inp s in
  let s' := fst (drawBlackHole inp s) in
  prevTrailX s' = imap (fun i _ => fst (fst (starTracker inp u i))) (prevTrailX u)
  /\ prevTrailY s' = imap (fun i _ => snd (fst (starTracker inp u i))) (prevTrailY u)
  /\ trailLen s' = imap (fun i _ => snd (starTracker inp u i)) (trailLen u)
  /\ prevInnerParticleX s'
     = imap (fun i _ => innerTrackX (blackHoleRadius u) (objectX inp) (objectY inp)
                                    (millisEntry inp) i) (prevInnerParticleX u)
  /\ prevInnerParticleY s'
     = imap (fun i _ => innerTrackY (blackHoleRadius u) (objectX inp) (objectY inp)
                                    (millisEntry inp) i) (prevInnerParticleY u)
  /\ fallingStars s' = fallingStars u.
Proof. cbv zeta. repeat split. Qed.

Lemma tick_wellSized (inp : Inputs) (s : State) :
  wellSized s ->
  wellSized (fst (drawBlackHole inp s))
  /\ Forall (fun n => (0 <= n <= 10)%Z) (trailLen (fst (drawBlackHole inp s))).
Proof.
  intro Hs. destruct (advanced_wellSized inp s Hs) as [Hu Hz].
  unfold wellSized.
  destruct (tick_trackers inp s) as (-> & -> & -> & -> & -> & ->).
  pose proof Hu as (H1 & H2 & H3 & H4 & H5 & H6 & H7 & H8).
  rewrite !imap_length.
  assert (Hwf : forall i (A : Type) (l : list A) (a : A),
             length l = MAX_FALLING_STARS -> nth_error l i = Some a ->
             wfTracker (starTracker inp (advanced inp s) i)).
  { intros i A l a Hl Hi. apply starTracker_wf; try assumption.
    rewrite <- Hl. apply nth_error_Some. congruence. }
  split; [repeat split; try assumption |].
  - apply Forall_imap_index. intros i col Hi. apply (Hwf i _ _ _ H4 Hi).
  - apply Forall_imap_index. intros i col Hi. apply (Hwf i _ _ _ H5 Hi).
  - apply Forall_imap_index. intros i n Hi. apply (Hwf i _ _ _ H6 Hi).
Qed.

Lemma eraseBlackHole_wellSized (s : State) :
  wellSized s -> wellSized (fst (eraseBlackHole s)).
Proof.
  intro Hs. unfold eraseBlackHole. destruct (blackHoleInitialized s); [| exact Hs].
  destruct Hs as (H1 & H2 & H3 & H4 & H5 & H6 & H7 & H8).
  unfold wellSized. cbn [fst prevInnerParticleX prevInnerParticleY fallingStars prevTrailX
                             prevTrailY trailLen].
  rewrite !length_map. repeat split; assumption.
Qed.

Lemma reachable_wellSized (s : State) : reachable s -> wellSized s.
Proof.
  intro Hs. induction Hs as [| inp s Hs IH Hinp | s Hs IH].
  - unfold wellSized, initialState. cbn. repeat split; repeat constructor.
  - apply tick_wellSized. exact IH.
  - apply eraseBlackHole_wellSized. exact IH.
Qed.

(** X11: in every state the module can reach, every [trailLen] is between 0
    and 10, the number of slots of a star's column of [prevTrailX] and
    [prevTrailY]. *)
Theorem X11_star_trail_capacity :
  forall s : State,
    reachable s ->
    Forall (fun n => (0 <= n <= 10)%Z) (trailLen s).
Proof.
  intros s Hs. induction Hs as [| inp s Hs IH Hinp | s Hs IH].
  - unfold initialState. cbn. repeat constructor; lia.
  - apply tick_wellSized. apply reachable_wellSized. exact Hs.
  - unfold eraseBlackHole. destruct (blackHoleInitialized s); [| exact IH].
    cbn. apply Forall_map. apply Forall_forall. intros; lia.
Qed.

(** ** What is drawn in a tick is erased by the next one: stars and swirl *)

Lemma prepare_trackers (inp : Inputs) (s : State) :
  blackHoleInitialized s = true ->
  prevTrailX (prepare inp s) = prevTrailX s
  /\ prevTrailY (prepare inp s) = prevTrailY s
  /\ trailLen (prepare inp s) = trailLen s
  /\ prevInnerParticleX (prepare inp s) = prevInnerParticleX s
  /\ prevInnerParticleY (prepare inp s) = prevInnerParticleY s.
Proof. intro H. unfold prepare. cbn. rewrite H. cbn. repeat split. Qed.




Lemma imap_index_only {A B : Type} (f : nat -> B) (l : list A) :
  forall k, imap_from k (fun i _ => f i) l = map f (seq k (length l)).
Proof.
  induction l as [| a l IH]; intro k; simpl; [reflexivity | rewrite IH; reflexivity].
Qed.

(** X13: from a state the module can reach, every pixel drawn by the
    inner-swirl pass of a tick is painted with the background colour by the
    erasing section of the next tick. *)
Theorem X13_swirl_pixels_erased_next_tick :
  forall (s : State) (inp inp2 : Inputs),
    reachable s ->
    Forall (erasedBy (eraseCalls inp2 (fst (drawBlackHole inp s)))) (innerDrawCalls inp s).
Proof.
  intros s inp inp2 Hs. apply Forall_forall. intros c Hc.
  destruct c as [x y c | |]; cbn [erasedBy]; try exact I.
  destruct (advanced_wellSized inp s (reachable_wellSized s Hs)) as [Hu _].
  set (u := advanced inp s) in *.
  unfold innerDrawCalls in Hc. cbv zeta in Hc. fold u in Hc.
  apply in_flat_map in Hc. destruct Hc as (i & Hi & Hc).
  unfold eraseCalls, eraseSection. cbn [snd].
  destruct (prepare_trackers inp2 (fst (drawBlackHole inp s)) (tick_initialized inp s))
    as (_ & _ & _ & -> & ->).
  destruct (tick_trackers inp s) as (_ & _ & _ & -> & -> & _). fold u.
  destruct Hu as (H1 & H2 & _).
  unfold imap. rewrite !imap_index_only, H1, H2.
  do 3 (apply in_or_app; right).
  unfold eraseInnerCalls. apply in_flat_map. exists (x, y).
  unfold drawInnerCall in Hc. unfold innerTrackX, innerTrackY.
  assert (Hpt : onScreen x y = true
                /\ innerPoint (blackHoleRadius u) (objectX inp) (objectY inp)
                              (millisEntry inp) i = (x, y)).
  { destruct (innerPoint _ _ _ _ i) as [ix iy].
    destruct (onScreen ix iy) eqn:Hon; [| destruct Hc].
    destruct Hc as [E | []]. injection E as <- <- _. split; [exact Hon | reflexivity]. }
  destruct Hpt as [Hon Hpt]. split.
  - cbn [seq map combine]. cbn in Hi.
    destruct Hi as [<- | [<- | [<- | [<- | []]]]]; rewrite Hpt, Hon; cbn; auto.
  - cbn [fst snd]. apply onScreen_nonneg in Hon. apply Z.leb_le in Hon. rewrite Hon.
    left. reflexivity.
Qed.

(** ** The erasing section *)

Lemma erasePixels_background (n : Z) (xs ys : list Z) :
  Forall (fun c => callColor c = BG_COLOR /\ isPixel c) (erasePixels n xs ys).
Proof.
  unfold erasePixels. apply Forall_flat_map. intro pt.
  destruct (0 <=? fst pt)%Z; repeat constructor.
Qed.

Lemma erase_pixel_part_background (s : State) :
  Forall (fun c => callColor c = BG_COLOR /\ isPixel c)
         (flat_map eraseParticleCalls (accretionDisk s)
          ++ concat (imap (fun i col => erasePixels (nth i (trailLen s) 0%Z) col
                                                    (nth i (prevTrailY s) []))
                          (prevTrailX s))
          ++ eraseInnerCalls (prevInnerParticleX s) (prevInnerParticleY s)).
Proof.
  apply Forall_app. split; [| apply Forall_app; split].
  - apply Forall_flat_map. intro p. unfold eraseParticleCalls.
    apply Forall_app. split; [| apply erasePixels_background].
    destruct (0 <=? AP.prevX p)%Z; repeat constructor.
  - apply Forall_concat. apply Forall_imap_index. intros i col _.
    apply erasePixels_background.
  - unfold eraseInnerCalls. apply Forall_flat_map. intro pt.
    destruct (0 <=? fst pt)%Z; repeat constructor.
Qed.

(** X14: the erasing section paints with the background colour only.  When
    the centre is where the previous tick left it and the radius differs by
    at most 0.5 from the previous one (or the previous radius is not
    positive) every call is a pixel; otherwise the first call fills the
    circle of radius [(int)(previousEventHorizonRadius + 4)] around the
    previous centre and every other call is a pixel. *)
Theorem X14_erasing_section_paints_background :
  forall (cx cy : Z) (s : State),
    Forall (fun c => callColor c = BG_COLOR) (snd (eraseSection cx cy s))
    /\ ((cx = prevBlackHoleX s /\ cy = prevBlackHoleY s
         /\ Rabs (blackHoleRadius s - previousEventHorizonRadius s) <= 5 / 10)
        \/ previousEventHorizonRadius s <= 0 ->
        Forall isPixel (snd (eraseSection cx cy s)))
    /\ ((cx <> prevBlackHoleX s \/ cy <> prevBlackHoleY s
         \/ 5 / 10 < Rabs (blackHoleRadius s - previousEventHorizonRadius s)) ->
        0 < previousEventHorizonRadius s ->
        exists rest,
          snd (eraseSection cx cy s)
          = FillCircle (prevBlackHoleX s) (prevBlackHoleY s)
                       (truncZ (previousEventHorizonRadius s + 4)) BG_COLOR :: rest
          /\ Forall isPixel rest).
Proof.
  intros cx cy s.
  pose proof (erase_pixel_part_background s) as Hpart.
  assert (Hlens : Forall (fun c => callColor c = BG_COLOR /\ isPixel c)
                         (eraseLensCalls (previousLensPoints s))).
  { unfold eraseLensCalls. apply Forall_flat_map. intro pt.
    destruct (0 <=? fst pt)%Z; repeat constructor. }
  unfold eraseSection. cbv zeta. cbn [snd]. split; [| split].
  - apply Forall_app. split.
    + destruct (eraseHorizon cx cy s); [| constructor].
      constructor; [reflexivity |].
      revert Hlens. apply Forall_impl. intros c [Hc _]. exact Hc.
    + revert Hpart. apply Forall_impl. intros c [Hc _]. exact Hc.
  - intro Hsame.
    assert (E : eraseHorizon cx cy s = false).
    { unfold eraseHorizon, blackHoleMovedOrResized.
      destruct Hsame as [(-> & -> & Hr) | Hr].
      - rewrite !Z.eqb_refl. cbn.
        replace (Rltb (5 / 10) (Rabs (blackHoleRadius s - previousEventHorizonRadius s)))
          with false by (symmetry; apply Rltb_false; lra).
        reflexivity.
      - replace (Rltb 0 (previousEventHorizonRadius s)) with false
          by (symmetry; apply Rltb_false; lra).
        apply andb_false_r. }
    rewrite E. cbn [app].
    revert Hpart. apply Forall_impl. intros c [_ Hc]. exact Hc.
  - intros Hmoved Hpos.
    assert (E : eraseHorizon cx cy s = true).
    { unfold eraseHorizon, blackHoleMovedOrResized.
      replace (Rltb 0 (previousEventHorizonRadius s)) with true
        by (symmetry; apply Rltb_true; exact Hpos).
      rewrite andb_true_r.
      destruct Hmoved as [H | [H | H]].
      - apply Z.eqb_neq in H. rewrite H. reflexivity.
      - apply Z.eqb_neq in H. rewrite H. cbn. rewrite orb_true_r. reflexivity.
      - apply Rltb_true in H. rewrite H. apply orb_true_r. }
    rewrite E. eexists. split; [reflexivity |].
    apply Forall_app. split.
    + revert Hlens. apply Forall_impl. intros c [_ Hc]. exact Hc.
    + revert Hpart. apply Forall_impl. intros c [_ Hc]. exact Hc.
Qed.

Lemma flat_map_nil {A B : Type} (f : A -> list B) (l : list A) :
  Forall (fun a => f a = []) l -> flat_map f l = [].
Proof.
  induction 1 as [| a l Ha Hl IH]; simpl; [reflexivity |]. rewrite Ha, IH. reflexivity.
Qed.

(** X15: the first tick after start-up or after a teardown erases nothing:
    its erasing section makes no display call. *)
Theorem X15_first_tick_erases_nothing :
  forall (inp : Inputs) (s : State),
    blackHoleInitialized s = false ->
    eraseCalls inp s = [].
Proof.
  intros inp s Hoff. unfold eraseCalls, eraseSection. cbv zeta. cbn [snd].
  assert (Hh : eraseHorizon (objectX inp) (objectY inp) (prepare inp s) = false).
  { unfold eraseHorizon, blackHoleMovedOrResized, prepare. cbn. rewrite Hoff. cbn.
    rewrite !Z.eqb_refl. cbn.
    replace (Rltb (5 / 10) (Rabs (14 * objectScale inp - 14 * objectScale inp))) with false.
    - reflexivity.
    - symmetry. apply Rltb_false.
      replace (14 * objectScale inp - 14 * objectScale inp) with 0 by ring.
      rewrite Rabs_R0. lra. }
  rewrite Hh. cbn [app].
  assert (Hp : flat_map eraseParticleCalls (accretionDisk (prepare inp s)) = []).
  { apply flat_map_nil. rewrite prepare_particles, Hoff.
    apply Forall_imap with (P := fun _ => True); [| apply Forall_forall; intros; exact I].
    intros i p _. unfold eraseParticleCalls, initParticle.
    destruct (bandColor _) as [[r g] b]. reflexivity. }
  rewrite Hp. unfold prepare. cbn. rewrite Hoff. reflexivity.
Qed.

(** ** The two disk passes *)

(** X16: every call of the back pass is a pixel on the screen that lies
    strictly outside the circle of radius [round(blackHoleRadius)] around the
    centre: nothing of the back half is drawn on the event horizon. *)
Theorem X16_back_pass_outside_horizon :
  forall (bhr : R) (cx cy : Z) (p : AccretionParticle),
    Forall (outsideHorizon bhr cx cy) (drawBackParticle bhr cx cy p).
Proof.
  intros bhr cx cy p. unfold drawBackParticle. cbv zeta.
  destruct (negb (AP.active p) || (AP.prevX p <? 0)%Z); [constructor |].
  destruct (Rltb 0 (sin (AP.angle p))); [constructor |].
  destruct (onScreen (AP.prevX p) (AP.prevY p)) eqn:Hon; [| constructor].
  destruct (sq (AP.prevX p - cx) + sq (AP.prevY p - cy) <=? sq (roundZ bhr))%Z eqn:Hin;
    [constructor |].
  constructor.
  - split; [exact Hon | apply Z.leb_gt; exact Hin].
  - unfold trailDrawCalls. apply Forall_flat_map. intros [[tx ty] c].
    destruct ((tx <? 0)%Z || (ty <? 0)%Z || (SCREEN_WIDTH <=? tx)%Z
              || (SCREEN_HEIGHT <=? ty)%Z) eqn:E; [constructor |].
    destruct (sq (tx - cx) + sq (ty - cy) <=? sq (roundZ bhr))%Z eqn:Hin2;
      repeat constructor.
    + apply notOffScreen. exact E.
    + apply Z.leb_gt. exact Hin2.
Qed.


(** ** Bounds tests of a whole tick *)

(** X18: the calls of a tick are those of its erasing section followed by
    calls whose pixels are all on the screen: every [drawPixel] of the update
    and drawing sections passes the bounds test. *)
Theorem X18_pixels_after_erasing_are_on_screen :
  forall (inp : Inputs) (s : State),
    exists rest,
      snd (drawBlackHole inp s) = eraseCalls inp s ++ rest
      /\ Forall pixelOnScreen rest.
Proof.
  intros inp s. unfold drawBlackHole. cbv zeta. cbn [snd].
  eexists. split; [reflexivity |]. apply draws_on_screen.
Qed.

(** ** The circle filled by the teardown *)

Lemma advanceParticle_prevY (bhr dir dor : R) (cx cy : Z) (deltaTime : R)
    (p : AccretionParticle) :
  AP.prevY (advanceParticle bhr dir dor cx cy deltaTime p)
  = roundZ (IZR cy
            + sin (AP.angle (advanceParticle bhr dir dor cx cy deltaTime p))
              * AP.distance (advanceParticle bhr dir dor cx cy deltaTime p)
              * (5 / 10 - (3 / 10)
                          * cos (AP.angle (advanceParticle bhr dir dor cx cy deltaTime p)))).
Proof.
  unfold advanceParticle. cbv zeta.
  match goal with |- context [if ?c then _ else _] => destruct c end;
    [match goal with |- context [if ?c then _ else _] => destruct c end |];
    reflexivity.
Qed.

(** The pixel of a point at distance at most [d] from the centre, after the
    vertical compression and the rounding, is within [d + 1] of the centre. *)
Lemma rounded_orbit_point_near (cx cy : Z) (a d : R) :
  0 <= d ->
  IZR (sq (roundZ (IZR cx + cos a * d) - cx)
       + sq (roundZ (IZR cy + sin a * d * (5 / 10 - (3 / 10) * cos a)) - cy))
  <= (d + 1) * (d + 1).
Proof.
  intro Hd.
  pose proof (COS_bound a) as [Hc0 Hc1]. pose proof (SIN_bound a) as [Hs0 Hs1].
  pose proof (sin2_cos2 a) as Hsc. unfold Rsqr in Hsc.
  set (vc := 5 / 10 - (3 / 10) * cos a).
  assert (Hvc : 0 <= vc <= 1) by (unfold vc; lra).
  set (U := cos a * d). set (V := sin a * d * vc).
  pose proof (roundZ_near (IZR cx + U)) as [Hx0 Hx1].
  pose proof (roundZ_near (IZR cy + V)) as [Hy0 Hy1].
  unfold sq. rewrite plus_IZR, !mult_IZR, !minus_IZR.
  set (X := IZR (roundZ (IZR cx + U)) - IZR cx) in *.
  set (Y := IZR (roundZ (IZR cy + V)) - IZR cy) in *.
  assert (HX : U - 5 / 10 <= X <= U + 5 / 10) by (unfold X; lra).
  assert (HY : V - 5 / 10 <= Y <= V + 5 / 10) by (unfold Y; lra).
  assert (HU : - d <= U <= d) by (unfold U; split; nra).
  assert (HsV : - d <= sin a * d <= d) by (split; nra).
  assert (HV : - d <= V <= d) by (unfold V; split; nra).
  assert (HV2 : V * V <= (sin a * d) * (sin a * d)).
  { unfold V. replace (sin a * d * vc * (sin a * d * vc))
      with ((sin a * d) * (sin a * d) * (vc * vc)) by ring.
    assert (0 <= (sin a * d) * (sin a * d)) by nra.
    assert (vc * vc <= 1) by nra. nra. }
  assert (HUV : U * U + V * V <= d * d).
  { assert (U * U + (sin a * d) * (sin a * d) = d * d).
    { unfold U. replace (cos a * d * (cos a * d) + sin a * d * (sin a * d))
        with ((sin a * sin a + cos a * cos a) * (d * d)) by ring.
      rewrite Hsc. ring. }
    lra. }
  assert (HXX : X * X <= U * U + d + 25 / 100) by nra.
  assert (HYY : Y * Y <= V * V + d + 25 / 100) by nra.
  nra.
Qed.

(** X19: after a tick run from a state the module can reach with a scale
    that is not negative, the teardown makes one call, a filled circle
    around the tick's centre in the background colour, and the last drawn
    position of every accretion particle lies inside that circle. *)
Theorem X19_teardown_circle_covers_disk :
  forall (s : State) (inp : Inputs),
    reachable s ->
    0 <= objectScale inp ->
    let s' := fst (drawBlackHole inp s) in
    exists radius,
      snd (eraseBlackHole s')
      = [FillCircle (objectX inp) (objectY inp) radius BG_COLOR]
      /\ Forall (fun p => (sq (AP.prevX p - objectX inp) + sq (AP.prevY p - objectY inp)
                           <= sq radius)%Z)
                (accretionDisk s').
Proof.
  intros s inp Hs Hscale s'.
  set (bhr := 14 * objectScale inp).
  assert (Hbhr : 0 <= bhr) by (unfold bhr; lra).
  destruct (drawBlackHole_radii inp s) as (Hr & _ & Ho). fold s' in Hr, Ho. fold bhr in Hr, Ho.
  assert (Hprev : prevBlackHoleX s' = objectX inp /\ prevBlackHoleY s' = objectY inp
                  /\ previousEventHorizonRadius s' = blackHoleRadius s') by (repeat split).
  destruct Hprev as (Hpx & Hpy & Hpr).
  unfold eraseBlackHole. unfold s' at 1 2. rewrite tick_initialized. cbn [fst snd].
  fold s'. rewrite Hpx, Hpy, Hpr, Hr, Ho.
  set (eraseRadius := if Rlt_dec 0 bhr then Rmax (bhr * (25 / 10)) (bhr * 2 * (11 / 10)) + 5
                      else 60).
  exists (roundZ eraseRadius). split; [reflexivity |].
  assert (Hrad : bhr * 2 * (11 / 10) + 5 <= eraseRadius).
  { unfold eraseRadius. destruct (Rlt_dec 0 bhr).
    - pose proof (Rmax_r (bhr * (25 / 10)) (bhr * 2 * (11 / 10))). lra.
    - lra. }
  pose proof (roundZ_near eraseRadius) as [HR0 _].
  unfold s'. rewrite tick_particles. fold bhr.
  apply Forall_map.
  apply Forall_imap with (P := fun p => AP.active p = true).
  2:{ apply Forall_map.
      pose proof (prepare_allActive inp s (reachable_allActive s Hs)) as Hall.
      revert Hall. apply Forall_impl. intros p Hp. exact Hp. }
  intros i p Hp.
  destruct (drawFrontParticle_prev bhr (objectX inp) (objectY inp)
              (updateParticle inp bhr (bhr * (12 / 10)) (bhr * 2) (tickDelta inp s) i p))
    as (-> & -> & _).
  rewrite updateParticle_active by exact Hp.
  rewrite advanceParticle_prevX, advanceParticle_prevY, advanceParticle_distance.
  set (a := AP.angle _).
  set (d := Rmin _ _).
  assert (Hd : 0 <= d <= bhr * 2 * (11 / 10)).
  { unfold d. split; [| apply Rmin_r].
    apply Rmin_glb; [| lra].
    eapply Rle_trans; [| apply Rmax_r].
    pose proof (Rmax_l 1 (bhr * (12 / 10))). lra. }
  pose proof (rounded_orbit_point_near (objectX inp) (objectY inp) a d (proj1 Hd)) as Hnear.
  apply le_IZR. eapply Rle_trans; [exact Hnear |].
  unfold sq at 1. rewrite mult_IZR. nra.
Qed.

(** ** A spawned star and the bounds test *)

Lemma updateStar_deactivation (inp : Inputs) (bhr deltaTime : R) (i : nat) (st : FallingStar) :
  FS.active st = true ->
  FS.active (fst (updateStar inp bhr deltaTime i st)) = false ->
  distToCenter inp st <= bhr
  \/ (roundZ (FS.x (fst (updateStar inp bhr deltaTime i st))) < -10)%Z
  \/ (SCREEN_WIDTH + 10 <= roundZ (FS.x (fst (updateStar inp bhr deltaTime i st))))%Z
  \/ (roundZ (FS.y (fst (updateStar inp bhr deltaTime i st))) < -10)%Z
  \/ (SCREEN_HEIGHT + 10 <= roundZ (FS.y (fst (updateStar inp bhr deltaTime i st))))%Z.
Proof.
  intros Hact. unfold updateStar. rewrite Hact. cbn [negb]. cbv zeta.
  fold (distToCenter inp st).
  destruct (if Rltb (1 / 10) (distToCenter inp st) then _ else _) as [vx vy].
  match goal with
  | |- context [if ?c1 || ?c2 || ?c3 || ?c4 || ?c5 then _ else _] =>
      destruct c1 eqn:E1; [| destruct c2 eqn:E2; [| destruct c3 eqn:E3;
        [| destruct c4 eqn:E4; [| destruct c5 eqn:E5]]]]
  end; cbn [orb].
  6:{ cbn. discriminate. }
  all: destruct (Rleb _ (bhr * (15 / 10))); cbn [fst FS.x FS.y]; intros _.
  all: first [ left; apply Rleb_true; assumption
             | right; left; apply Z.ltb_lt; assumption
             | right; right; left; apply Z.leb_le; assumption
             | right; right; right; left; apply Z.ltb_lt; assumption
             | right; right; right; right; apply Z.leb_le; assumption ].
Qed.

Lemma spawnStar_position (inp : Inputs) (st : FallingStar) :
  (0 <= rndEdge inp < 4)%Z ->
  (FS.x (spawnStar inp st) = IZR (rndPos inp) /\ FS.y (spawnStar inp st) = -5
   /\ rndEdge inp = 0%Z)
  \/ (FS.x (spawnStar inp st) = IZR (SCREEN_WIDTH + 4)
      /\ FS.y (spawnStar inp st) = IZR (rndPos inp) /\ rndEdge inp = 1%Z)
  \/ (FS.x (spawnStar inp st) = IZR (rndPos inp)
      /\ FS.y (spawnStar inp st) = IZR (SCREEN_HEIGHT + 4) /\ rndEdge inp = 2%Z)
  \/ (FS.x (spawnStar inp st) = -5 /\ FS.y (spawnStar inp st) = IZR (rndPos inp)
      /\ rndEdge inp = 3%Z).
Proof.
  intro He. unfold spawnStar. cbv zeta.
  destruct (rndEdge inp =? 0)%Z eqn:E0; [apply Z.eqb_eq in E0; left; cbn; auto |].
  destruct (rndEdge inp =? 1)%Z eqn:E1; [apply Z.eqb_eq in E1; right; left; cbn; auto |].
  destruct (rndEdge inp =? 2)%Z eqn:E2;
    [apply Z.eqb_eq in E2; right; right; left; cbn; auto |].
  destruct (rndEdge inp =? 3)%Z eqn:E3;
    [apply Z.eqb_eq in E3; right; right; right; cbn; auto |].
  apply Z.eqb_neq in E0, E1, E2, E3. lia.
Qed.

(** X20: a star spawned on an edge of the screen is not deactivated by the
    bounds test of its first update: with draws in the ranges of the calls to
    [random] and a time step of at most 0.1, it stays active unless it is
    already within the event horizon. *)
Theorem X20_spawned_star_survives_bounds_test :
  forall (inp inp2 : Inputs) (bhr deltaTime : R) (i : nat) (st : FallingStar),
    validInputs inp ->
    (0 < SCREEN_WIDTH)%Z -> (0 < SCREEN_HEIGHT)%Z ->
    (rndEdge inp = 0%Z \/ rndEdge inp = 2%Z -> (0 <= rndPos inp < SCREEN_WIDTH)%Z) ->
    (rndEdge inp = 1%Z \/ rndEdge inp = 3%Z -> (0 <= rndPos inp < SCREEN_HEIGHT)%Z) ->
    0 <= deltaTime <= 1 / 10 ->
    bhr < distToCenter inp2 (spawnStar inp st) ->
    FS.active (fst (updateStar inp2 bhr deltaTime i (spawnStar inp st))) = true.
Proof.
  intros inp inp2 bhr deltaTime i st Hinp HW HH HposW HposH Hdt Hfar.
  set (st1 := spawnStar inp st) in *.
  assert (Hact : FS.active st1 = true).
  { unfold st1, spawnStar. cbv zeta.
    destruct (if (rndEdge inp =? 0)%Z then _ else _) as [x y]. reflexivity. }
  assert (Hv : FS.vx st1 * FS.vx st1 + FS.vy st1 * FS.vy st1 <= 400).
  { pose proof (spawnStar_speed inp st (rndSpeed_range inp Hinp)) as H.
    unfold speedSq in H. fold st1 in H. lra. }
  destruct (star_step_bounded inp2 bhr deltaTime i st1 Hv Hdt) as [[Hstep Hstep4] _].
  set (st2 := fst (updateStar inp2 bhr deltaTime i st1)) in *.
  set (mx := FS.x st2 - FS.x st1) in *. set (my := FS.y st2 - FS.y st1) in *.
  assert (Hmx : mx * mx <= 4) by nra.
  assert (Hmy : my * my <= 4) by nra.
  assert (Hdx : -2 <= mx <= 2) by (split; nra).
  assert (Hdy : -2 <= my <= 2) by (split; nra).
  unfold mx in Hdx. unfold my in Hdy. clear Hstep Hmx Hmy. clear mx my.
  destruct (FS.active st2) eqn:E; [reflexivity | exfalso].
  pose proof (updateStar_deactivation inp2 bhr deltaTime i st1 Hact E) as Hcause.
  fold st2 in Hcause.
  assert (Hx : -7 <= FS.x st2 <= IZR (SCREEN_WIDTH + 6)
               /\ -7 <= FS.y st2 <= IZR (SCREEN_HEIGHT + 6)).
  { apply IZR_lt in HW, HH.
    destruct (spawnStar_position inp st (rndEdge_range inp Hinp))
      as [(Ex & Ey & Ee) | [(Ex & Ey & Ee) | [(Ex & Ey & Ee) | (Ex & Ey & Ee)]]];
      fold st1 in Ex, Ey; rewrite !plus_IZR in *.
    - destruct (HposW (or_introl Ee)) as [P0 P1]. apply IZR_le in P0. apply IZR_lt in P1. lra.
    - destruct (HposH (or_introl Ee)) as [P0 P1]. apply IZR_le in P0. apply IZR_lt in P1. lra.
    - destruct (HposW (or_intror Ee)) as [P0 P1]. apply IZR_le in P0. apply IZR_lt in P1. lra.
    - destruct (HposH (or_intror Ee)) as [P0 P1]. apply IZR_le in P0. apply IZR_lt in P1. lra. }
  destruct Hx as [Hx Hy].
  pose proof (roundZ_between (-7) (SCREEN_WIDTH + 6) (FS.x st2)) as Rx.
  pose proof (roundZ_between (-7) (SCREEN_HEIGHT + 6) (FS.y st2)) as Ry.
  destruct Hcause as [Hc | Hc]; [lra |].
  assert (-7 <= roundZ (FS.x st2) <= SCREEN_WIDTH + 6)%Z by (apply Rx; lra).
  assert (-7 <= roundZ (FS.y st2) <= SCREEN_HEIGHT + 6)%Z by (apply Ry; lra).
  lia.
Qed.

End Tick.

(** * Examples on a 240 x 240 screen with background colour 0 *)

Lemma slot0_initialized (inp : Inputs) (scale : R) :
  nth_error (accretionDisk (initializeAccretionParticle inp 0 120 120
                              (setRadii scale initialState))) 0
  = Some (initParticle (14 * scale) (rndAngle inp 0%nat) (rndFactor inp 0%nat) zeroParticle).
Proof. cbn [accretionDisk initializeAccretionParticle]. rewrite nth_error_apply_at. reflexivity. Qed.

Lemma C1_witness :
  AP.relativistic_factor (initParticle (14 * 1) 0 400 zeroParticle)
  = Rmin (sqrt (blackHoleRadius (setRadii 1 initialState)
                / AP.distance (initParticle (14 * 1) 0 400 zeroParticle))) (9 / 10).
Proof.
  apply (C1_relativistic_factor_uses_horizon_radius
           (inputsAt 120 120 1 0 0 400 50) 0%nat 120%Z 120%Z (setRadii 1 initialState)).
  apply slot0_initialized.
Defined.

Lemma initParticle_distance_scale_one (rA rF : Z) (p : AccretionParticle) :
  AP.distance (initParticle (14 * 1) rA rF p)
  = 168 / 10 + (IZR rF / 1000) ^ 2 * (182 / 10).
Proof.
  rewrite initParticle_distance.
  unfold currentDiskOuterRadius, currentDiskInnerRadius, Rmax. rdec; lra.
Qed.

(** At scale 1 and with the draw [random(0, 1000) = 400] the particle is put
    at distance 19.712: the factor stored is sqrt(14 / 19.712), below 0.9,
    while sqrt(16.8 / 19.712) is above 0.9. *)
Lemma C1_counterexample :
  let s := setRadii 1 initialState in
  let s' := initializeAccretionParticle (inputsAt 120 120 1 0 0 400 50) 0 120 120 s in
  exists p, nth_error (accretionDisk s') 0 = Some p
            /\ AP.relativistic_factor p
               <> Rmin (sqrt (diskInnerRadius s / AP.distance p)) (9 / 10).
Proof.
  cbv zeta. eexists. split; [apply slot0_initialized |].
  rewrite initParticle_relativistic_factor, initParticle_distance_scale_one.
  cbn [rndFactor rndAngle inputsAt diskInnerRadius setRadii].
  assert (Hd : 168 / 10 + (IZR 400 / 1000) ^ 2 * (182 / 10) = 19712 / 1000) by (simpl; lra).
  rewrite Hd.
  assert (H1 : sqrt (14 * 1 / (19712 / 1000)) < 9 / 10).
  { apply sqrt_below; lra. }
  assert (H2 : 9 / 10 <= sqrt (14 * 1 * (12 / 10) / (19712 / 1000))).
  { apply sqrt_above; lra. }
  rewrite (Rmin_left _ _ (Rlt_le _ _ H1)), (Rmin_right _ _ H2). lra.
Qed.




Lemma C7_witness :
  0 <= AP.angle (updateParticle (inputsAt 120 120 1 0 0 0 50) 14 (168 / 10) 28 (16 / 1000)
                                0 orbitingParticle) < 2 * PI.
Proof. apply C7_angle_wrapped. reflexivity. Defined.

Lemma centreStar_distance (scale : R) (now rA rF spawn : Z) :
  distToCenter (inputsAt 120 120 scale now rA rF spawn) centreStar = 0.
Proof.
  unfold distToCenter. cbn [objectX objectY inputsAt FS.x FS.y centreStar].
  replace ((120 - 120) * (120 - 120) + (120 - 120) * (120 - 120)) with 0 by lra.
  apply sqrt_0.
Qed.

Lemma centreStar_consumed :
  FS.active (fst (updateStar 240 240 (inputsAt 120 120 1 0 0 0 50) 14 (16 / 1000) 0 centreStar))
  = false.
Proof.
  apply updateStar_consumed; [reflexivity | lra |].
  rewrite centreStar_distance. lra.
Qed.

Lemma C4_witness :
  (length (snd (updateStar 240 240 (inputsAt 120 120 1 0 0 0 50) 14 (16 / 1000) 0 centreStar))
   <= 24)%nat.
Proof.
  refine (proj2 (C4_flash_is_three_rings 240 240 (inputsAt 120 120 1 0 0 0 50) 14 (16 / 1000)
                   0%nat centreStar _ _ _)).
  - reflexivity.
  - exact centreStar_consumed.
  - rewrite centreStar_distance. lra.
Defined.

(** A star consumed at the centre (120, 120) of a 240 x 240 screen, radius
    14: the flash is made of 24 pixels, one of them (136, 120), which is at
    distance 16 from the centre. *)
Lemma C4_counterexample :
  let calls :=
    snd (updateStar 240 240 (inputsAt 120 120 1 0 0 0 50) 14 (16 / 1000) 0 centreStar) in
  length calls = 24%nat /\ In (DrawPixel 136 120 TFT_WHITE) calls.
Proof.
  cbv zeta.
  destruct (updateStar_consumed 240 240 (inputsAt 120 120 1 0 0 0 50) 14 (16 / 1000) 0%nat
              centreStar) as (_ & _ & ->).
  - reflexivity.
  - lra.
  - rewrite centreStar_distance. lra.
  - cbn [objectX objectY inputsAt]. split.
    + apply (flashCalls_full 240 240 14 120 120 16); try lra; lia.
    + apply in_flashCalls. exists 2%nat, 0%nat.
      assert (EX : flashX 14 120 2 0 = 136%Z).
      { unfold flashX. replace (INR 0 * PI / 4) with 0 by (simpl; lra).
        rewrite cos_0. replace (IZR 120 + 1 * (14 + INR 2)) with (IZR 136) by (simpl; lra).
        apply roundZ_IZR. }
      assert (EY : flashY 14 120 2 0 = 120%Z).
      { unfold flashY. replace (INR 0 * PI / 4) with 0 by (simpl; lra).
        rewrite sin_0. replace (IZR 120 + 0 * (14 + INR 2)) with (IZR 120) by (simpl; lra).
        apply roundZ_IZR. }
      rewrite EX, EY. repeat split; try lia.
Qed.

Lemma C5_witness :
  FS.hasTrail (fst (updateStar 240 240 (inputsAt 120 120 1 0 0 0 50) 14 (16 / 1000) 0 centreStar))
  = true.
Proof.
  pose proof (C5_trail_iff_consumed_near 240 240 (inputsAt 120 120 1 0 0 0 50) 14 (16 / 1000)
                0%nat centreStar eq_refl centreStar_consumed) as (Hd & Hiff & _).
  apply Hiff. rewrite Hd, centreStar_distance. lra.
Defined.

Lemma firstTick_reachable (cx cy : Z) (scale : R) :
  reachable 240 240 0 (fst (drawBlackHole 240 240 0 (inputsAt cx cy scale 0 0 0 50) initialState)).
Proof.
  apply reach_tick; [apply reach_init |].
  apply validInputs_inputsAt; lia.
Qed.




Lemma C10_witness :
  previousLensPoints
    (fst (drawBlackHole 240 240 0 (inputsAt 130 120 1 16 0 0 50)
            (fst (drawBlackHole 240 240 0 (inputsAt 120 120 1 0 0 0 50) initialState))))
  = repeat ((-1)%Z, (-1)%Z) 60.
Proof.
  refine (proj1 (C10_lens_tracker_stays_clear 240 240 0 _ (inputsAt 130 120 1 16 0 0 50) _)).
  apply firstTick_reachable.
Defined.

(** After one tick at the centre of the screen and a teardown, the first
    entry of [prevInnerParticleY] is still the y of the swirl point drawn by
    the tick, between 106 and 134; the second teardown leaves it there. *)
Lemma C9_counterexample :
  let s := fst (drawBlackHole 240 240 0 (inputsAt 120 120 1 0 0 0 50) initialState) in
  let s1 := fst (eraseBlackHole 0 s) in
  let s2 := fst (eraseBlackHole 0 s1) in
  reachable 240 240 0 s
  /\ ~ Forall (fun y => y = (-1)%Z) (prevInnerParticleY s1)
  /\ ~ Forall (fun y => y = (-1)%Z) (prevInnerParticleY s2).
Proof.
  cbv zeta. split; [apply firstTick_reachable |].
  set (s := fst (drawBlackHole 240 240 0 (inputsAt 120 120 1 0 0 0 50) initialState)).
  rewrite !eraseBlackHole_innerY.
  assert (Hy : exists y l, prevInnerParticleY s = y :: l /\ (0 <= y)%Z).
  { unfold s. rewrite tick_innerY. cbn [objectX objectY objectScale millisEntry inputsAt].
    cbn [prepare eraseSection fst prevInnerParticleY setLastUpdate setRadii
         blackHoleInitialized initialState firstRun].
    cbn [repeat imap imap_from].
    eexists. eexists. split; [reflexivity |].
    unfold innerTrackY.
    pose proof (innerPoint_near (14 * 1) 120 120 0 0 14) as Hnear.
    destruct (innerPoint (14 * 1) 120 120 0 0) as [ix iy]. cbn [fst snd] in Hnear.
    destruct Hnear as [HX HY]; try lra.
    rewrite onScreen_true by lia. lia. }
  destruct Hy as (y & l & Ey & Hy0).
  assert (Hneg : ~ Forall (fun y => y = (-1)%Z) (prevInnerParticleY s)).
  { rewrite Ey. intro HF. inversion HF; subst. lia. }
  split; exact Hneg.
Qed.

(** ** The erasing section near the right edge of the screen *)

Lemma initParticle_speed (bhr : R) (rA rF : Z) (p : AccretionParticle) :
  AP.speed (initParticle bhr rA rF p)
  = 4 / 100 * sqrt (currentDiskInnerRadius bhr / AP.distance (initParticle bhr rA rF p)).
Proof. unfold initParticle. destruct (bandColor _) as [[r g] b]. reflexivity. Qed.

(** The particle initialised at angle 0 and distance 16.8 around the centre
    (235, 120), after its first Advance: its pixel is at x >= 243. *)
Lemma edge_particle_prevX (deltaTime : R) :
  0 < deltaTime <= 1 / 10 ->
  (243 <= AP.prevX (updateParticle (inputsAt 235 120 1 0 0 0 50)
                      (14 * 1) (14 * 1 * (12 / 10)) (14 * 1 * 2) deltaTime 0
                      (clearParticleTrail (initParticle (14 * 1) 0 0 zeroParticle))))%Z.
Proof.
  intros Hdt.
  set (p0 := initParticle (14 * 1) 0 0 zeroParticle).
  assert (Hdist : AP.distance p0 = 168 / 10).
  { unfold p0. rewrite initParticle_distance_scale_one. simpl. lra. }
  assert (Hangle : AP.angle p0 = 0).
  { unfold p0. rewrite initParticle_angle. lra. }
  assert (Hcdir : currentDiskInnerRadius (14 * 1) = 168 / 10).
  { unfold currentDiskInnerRadius, Rmax. rdec; lra. }
  assert (Hspeed : AP.speed p0 = 4 / 100).
  { unfold p0. rewrite initParticle_speed. fold p0. rewrite Hdist, Hcdir.
    replace (168 / 10 / (168 / 10)) with 1 by lra. rewrite sqrt_1. lra. }
  rewrite updateParticle_active by (cbn; apply initParticle_active).
  rewrite advanceParticle_prevX, advanceParticle_angle, advanceParticle_distance.
  cbn [AP.angle AP.speed AP.distance setPrev clearParticleTrail objectX objectY inputsAt].
  rewrite Hdist, Hangle, Hspeed.
  fold (currentDiskInnerRadius (14 * 1)). rewrite Hcdir.
  assert (Hmax : Rmax (168 / 10) (168 / 10 * (5 / 10)) = 168 / 10)
    by (unfold Rmax; rdec; lra).
  rewrite Hmax. replace (168 / 10 / (168 / 10)) with 1 by lra. rewrite sqrt_1.
  assert (Hlow : Rmax (168 / 10) (168 / 10 * (1 / 10)) = 168 / 10)
    by (unfold Rmax; rdec; lra).
  assert (Hclamp : Rmin (168 / 10) (14 * 1 * 2 * (11 / 10)) = 168 / 10)
    by (unfold Rmin; rdec; lra).
  rewrite Hlow, Hclamp.
  set (a := 0 + 4 / 100 * 1 * deltaTime * 60).
  assert (Ha : 0 <= a <= 1) by (unfold a; lra).
  pose proof PI2_3_2 as Hpi.
  rewrite wrapAngle_id by lra.
  assert (Hcos : 1 / 2 <= cos a).
  { rewrite <- cos_PI3. apply cos_decr_1; lra. }
  pose proof (COS_bound a) as [_ Hc1].
  apply (roundZ_between 243 252). split.
  - replace (IZR 243) with (IZR 235 + 8) by lra. nra.
  - replace (IZR 252) with (IZR 235 + 17) by lra. nra.
Qed.

(** C3 (failing run): the focal object at (235, 120) on a 240 x 240 screen,
    scale 1.  The first tick leaves particle 0 with [prevX >= 243]; the
    erasing section of the second tick calls [drawPixel] at that position,
    right of the screen. *)
Theorem C3_erase_pass_draws_off_screen :
  let s1 := fst (drawBlackHole 240 240 0 (inputsAt 235 120 1 0 0 0 50) initialState) in
  let inp2 := inputsAt 235 120 1 16 0 0 50 in
  reachable 240 240 0 s1
  /\ exists x y,
       (240 <= x)%Z
       /\ In (DrawPixel x y 0) (snd (eraseSection 0 (objectX inp2) (objectY inp2) (prepare inp2 s1)))
       /\ In (DrawPixel x y 0) (snd (drawBlackHole 240 240 0 inp2 s1)).
Proof.
  cbv zeta. split; [apply firstTick_reachable |].
  set (inp1 := inputsAt 235 120 1 0 0 0 50).
  set (inp2 := inputsAt 235 120 1 16 0 0 50).
  set (s1 := fst (drawBlackHole 240 240 0 inp1 initialState)).
  set (q := fst (drawFrontParticle 240 240 (14 * 1) 235 120
                   (updateParticle inp1 (14 * 1) (14 * 1 * (12 / 10)) (14 * 1 * 2)
                      (tickDelta inp1 initialState) 0
                      (clearParticleTrail (initParticle (14 * 1) 0 0 zeroParticle))))).
  assert (Hq : nth_error (accretionDisk s1) 0 = Some q).
  { unfold s1. rewrite tick_particles, prepare_particles.
    cbn [blackHoleInitialized initialState accretionDisk].
    rewrite nth_error_map, nth_error_imap, nth_error_map, nth_error_imap.
    reflexivity. }
  assert (Hx : (243 <= AP.prevX q)%Z).
  { unfold q. destruct (drawFrontParticle_prev 240 240 (14 * 1) 235 120
                          (updateParticle inp1 (14 * 1) (14 * 1 * (12 / 10)) (14 * 1 * 2)
                             (tickDelta inp1 initialState) 0
                             (clearParticleTrail (initParticle (14 * 1) 0 0 zeroParticle))))
      as (-> & _ & _).
    apply edge_particle_prevX. apply deltaTimeOf_range. }
  assert (Hin : In q (accretionDisk (prepare inp2 s1))).
  { rewrite prepare_particles. unfold s1 at 1. rewrite tick_initialized.
    eapply nth_error_In. exact Hq. }
  exists (AP.prevX q), (AP.prevY q). split; [lia |].
  assert (Hcall : In (DrawPixel (AP.prevX q) (AP.prevY q) 0)
                     (snd (eraseSection 0 (objectX inp2) (objectY inp2) (prepare inp2 s1)))).
  { apply eraseSection_particle_pixel; [exact Hin | lia]. }
  split; [exact Hcall |].
  apply tick_calls_erase. exact Hcall.
Qed.

(** * Examples for the further properties *)


Lemma X4_witness :
  Forall (fun st => FS.active st && FS.hasTrail st = false)
         (fallingStars (fst (drawBlackHole 240 240 0 (inputsAt 120 120 1 0 0 0 3)
                                           initialState))).
Proof.
  apply (X4_star_lifecycle_exclusive 240 240 0).
  apply reach_tick; [apply reach_init | apply validInputs_inputsAt; lia].
Defined.


Lemma X7_witness :
  Forall (fun p => AP.active p = true)
         (accretionDisk (fst (drawBlackHole 240 240 0 (inputsAt 120 120 1 0 0 0 50)
                                            initialState))).
Proof.
  apply (X7_particles_stay_active 240 240 0).
  - apply firstTick_reachable.
  - apply tick_initialized.
Defined.

Lemma X8_witness :
  Forall (fun p => 0 <= AP.angle p < 2 * PI)
         (accretionDisk (fst (drawBlackHole 240 240 0 (inputsAt 120 120 1 16 0 0 50)
                                (fst (drawBlackHole 240 240 0 (inputsAt 120 120 1 0 0 0 50)
                                                    initialState))))).
Proof. apply (X8_angles_wrapped_after_tick 240 240 0). apply firstTick_reachable. Defined.

Lemma X11_witness :
  Forall (fun n => (0 <= n <= 10)%Z)
         (trailLen (fst (drawBlackHole 240 240 0 (inputsAt 120 120 1 0 0 0 50) initialState))).
Proof. apply (X11_star_trail_capacity 240 240 0). apply firstTick_reachable. Defined.


Lemma X13_witness :
  let inp := inputsAt 120 120 1 0 0 0 50 in
  let inp2 := inputsAt 120 120 1 16 0 0 50 in
  Forall (erasedBy 0 (eraseCalls 0 inp2 (fst (drawBlackHole 240 240 0 inp initialState))))
         (innerDrawCalls 240 240 0 inp initialState).
Proof.
  cbv zeta. apply (X13_swirl_pixels_erased_next_tick 240 240 0). apply reach_init.
Defined.

Lemma X15_witness : eraseCalls 0 (inputsAt 120 120 1 0 0 0 50) initialState = [].
Proof. apply X15_first_tick_erases_nothing. reflexivity. Defined.

Lemma X19_witness :
  let inp := inputsAt 120 120 1 0 0 0 50 in
  let s' := fst (drawBlackHole 240 240 0 inp initialState) in
  exists radius,
    snd (eraseBlackHole 0 s') = [FillCircle 120 120 radius 0]
    /\ Forall (fun p => (sq (AP.prevX p - 120) + sq (AP.prevY p - 120) <= sq radius)%Z)
              (accretionDisk s').
Proof.
  cbv zeta.
  refine (X19_teardown_circle_covers_disk 240 240 0 initialState
            (inputsAt 120 120 1 0 0 0 50) _ _).
  - apply reach_init.
  - cbn. lra.
Defined.

(** A star spawned on the left edge at (-5, 60), 138 pixels from the centre
    (120, 120), is still active after its first update. *)
Lemma X20_witness :
  FS.active (fst (updateStar 240 240 (inputsAt 120 120 1 16 0 0 50) 14 (16 / 1000) 0
                             (spawnStar 240 240 (inputsAt 120 120 1 0 0 0 3) zeroStar)))
  = true.
Proof.
  apply X20_spawned_star_survives_bounds_test
    with (inp := inputsAt 120 120 1 0 0 0 3) (inp2 := inputsAt 120 120 1 16 0 0 50).
  - apply validInputs_inputsAt; lia.
  - lia.
  - lia.
  - cbn. intros [H | H]; discriminate.
  - cbn. intros _. lia.
  - lra.
  - destruct (spawnStar_position 240 240 (inputsAt 120 120 1 0 0 0 3) zeroStar)
      as [(_ & _ & E) | [(_ & _ & E) | [(_ & _ & E) | (Ex & Ey & _)]]];
      try (cbn; lia); try discriminate.
    unfold distToCenter. rewrite Ex, Ey. cbn [objectX objectY rndPos inputsAt].
    apply Rlt_le_trans with 15; [lra |].
    apply sqrt_above; lra.
Defined.
